(** * CTerminal: the interpreter loop of [main.cpp] and its subsystems

    A shallow embedding of the line tokenizer ([split_args]), the alias
    substitution pass ([substitute_aliases]), the history log and the
    read-eval-print loop of [main], the recursive-descent evaluator behind
    [calc] ([parse_number], [parse_term], [parse_expression]) and the file
    follower behind [tail -f] ([cmd_tailf]).

    Conventions.  A C++ [std::string] is a [string]; [std::vector<string>] is
    a [list string]; [std::map<string,string>] is a [gmap string string];
    a [double] is a primitive binary64 [float]; a stream is modelled by the
    text that is still unread. *)

From Stdlib Require Import ZArith Lia Bool List Ascii String DecimalString Floats Uint63.
From stdpp Require Import base option list gmap strings.

Local Open Scope string_scope.
Local Open Scope list_scope.

(** stdpp seals [String.append] against [simpl]; the proofs below compute
    with it. *)
#[local] Arguments String.append !s1 s2 : simpl nomatch.
#[local] Arguments Ascii.eqb : simpl never.

(** ** Characters and strings of the C++ library *)

Module Str.

(** [std::isspace] in the classic "C" locale, the one every stream of the
    program uses: space, [\t], [\n], [\v], [\f], [\r]. *)
Definition isspace (c : ascii) : bool :=
  match c with
  | "009" | "010" | "011" | "012" | "013" | " " => true
  | _ => false
  end%char.

Definition dquote : ascii := "034"%char.
Definition squote : ascii := "'"%char.

(** [s.front()] and [s.back()]; [None] stands for the empty string, on which
    the program never calls them. *)
Definition front (s : string) : option ascii :=
  match s with
  | EmptyString => None
  | String c _ => Some c
  end.

Fixpoint back (s : string) : option ascii :=
  match s with
  | EmptyString => None
  | String c EmptyString => Some c
  | String _ s' => back s'
  end.

Definition is_char (c : ascii) (o : option ascii) : bool :=
  match o with
  | Some d => Ascii.eqb d c
  | None => false
  end.

(** [s.substr(pos)]: the text from offset [pos] to the end. *)
Fixpoint substr_from (pos : nat) (s : string) : string :=
  match pos, s with
  | O, _ => s
  | S p, String _ s' => substr_from p s'
  | S _, EmptyString => EmptyString
  end.

(** [s.substr(pos, n)] is [substring pos n s] of the standard library. *)
Definition substr (pos n : nat) (s : string) : string := substring pos n s.

Fixpoint mem_char (c : ascii) (set : string) : bool :=
  match set with
  | EmptyString => false
  | String d set' => Ascii.eqb c d || mem_char c set'
  end.

(** [s.find_first_of(set)]: offset of the first character of [s] that occurs
    in [set]; [None] is [string::npos]. *)
Fixpoint find_first_of (set : string) (s : string) : option nat :=
  match s with
  | EmptyString => None
  | String c s' =>
      if mem_char c set then Some 0
      else match find_first_of set s' with
           | Some i => Some (S i)
           | None => None
           end
  end.

(** [s.find(c)] for a character [c]. *)
Definition find_char (c : ascii) (s : string) : option nat :=
  find_first_of (String c EmptyString) s.

Definition space_tab : string := String " " (String "009" EmptyString).

End Str.

(** ** The tokenizer, [split_args] (main.cpp 103-123) *)

Module Tokenizer.
Import Str.

(** The [istringstream] is the text not yet read.  [iss >> token] skips
    leading white space, then takes the longest run of other characters; it
    fails when the text runs out before a character is found, and a failed
    stream stays failed, which the empty remainder models. *)
Fixpoint skipws (s : string) : string :=
  match s with
  | EmptyString => EmptyString
  | String c s' => if isspace c then skipws s' else s
  end.

Fixpoint read_word (s : string) : string * string :=
  match s with
  | EmptyString => (EmptyString, EmptyString)
  | String c s' =>
      if isspace c then (EmptyString, s)
      else let (w, r) := read_word s' in (String c w, r)
  end.

Definition extract (iss : string) : option (string * string) :=
  match skipws iss with
  | EmptyString => None
  | s => Some (read_word s)
  end.

(** The condition of lines 108-109: the token opens with a quote and does
    not close with the same one. *)
Definition opens_quote (token : string) : option ascii :=
  if is_char dquote (front token) && negb (is_char dquote (back token)) then Some dquote
  else if is_char squote (front token) && negb (is_char squote (back token)) then Some squote
  else None.

(** The inner loop, lines 112-115. *)
Fixpoint absorb (fuel : nat) (quote : ascii) (token iss : string) : string * string :=
  match fuel with
  | O => (token, iss)
  | S fuel' =>
      match extract iss with
      | None => (token, EmptyString)
      | Some (rest, iss') =>
          let token' := token +:+ " " +:+ rest in
          if is_char quote (back rest) then (token', iss')
          else absorb fuel' quote token' iss'
      end
  end.

(** Lines 117-119. *)
Definition strip_quotes (token : string) : string :=
  if (2 <=? String.length token)%nat
     && ((is_char dquote (front token) && is_char dquote (back token))
         || (is_char squote (front token) && is_char squote (back token)))
  then substr 1 (String.length token - 2) token
  else token.

(** The outer loop, lines 107-121. *)
Fixpoint split_loop (fuel : nat) (iss : string) : list string :=
  match fuel with
  | O => []
  | S fuel' =>
      match extract iss with
      | None => []
      | Some (token, iss') =>
          let (token', iss'') :=
            match opens_quote token with
            | Some quote => absorb (String.length iss') quote token iss'
            | None => (token, iss')
            end in
          strip_quotes token' :: split_loop fuel' iss''
      end
  end.

(** Every turn of either loop reads at least one character, so the length of
    the line bounds the number of turns. *)
Definition split_args (s : string) : list string :=
  split_loop (String.length s) s.

End Tokenizer.

Import Str Tokenizer.

(** The double quote as a one-character text, to spell quoted input. *)
Definition dq : string := String dquote EmptyString.

(** ** The tokenizer as the specification words it

    Split on runs of white space; then walk the words: a word that opens a
    quote absorbs the following words, joined by single spaces, until one
    closes the quote; a token with the same quote at both ends loses one
    quote at each end; a quote that is never closed runs to the end of the
    line. *)

Module TokenizerSpec.

Definition flush (cur : string) : list string :=
  match cur with
  | EmptyString => []
  | _ => [cur]
  end.

Fixpoint words_from (cur : string) (s : string) : list string :=
  match s with
  | EmptyString => flush cur
  | String c s' =>
      if isspace c then flush cur ++ words_from EmptyString s'
      else words_from (cur +:+ String c EmptyString) s'
  end.

Definition words (s : string) : list string := words_from EmptyString s.

Definition is_quote (c : ascii) : bool := Ascii.eqb c dquote || Ascii.eqb c squote.

Fixpoint remove_last (s : string) : string :=
  match s with
  | EmptyString => EmptyString
  | String _ EmptyString => EmptyString
  | String c s' => String c (remove_last s')
  end.

Definition strip_matching (token : string) : string :=
  match token with
  | String q body =>
      if is_quote q && is_char q (back body) then remove_last body else token
  | EmptyString => token
  end.

Definition opening (w : string) : option ascii :=
  match front w with
  | Some q => if is_quote q && negb (is_char q (back w)) then Some q else None
  | None => None
  end.

Fixpoint group_words (open : option (ascii * string)) (ws : list string) : list string :=
  match ws with
  | [] =>
      match open with
      | Some (_, token) => [token]
      | None => []
      end
  | w :: ws' =>
      match open with
      | Some (q, token) =>
          let token' := token +:+ " " +:+ w in
          if is_char q (back w) then strip_matching token' :: group_words None ws'
          else group_words (Some (q, token')) ws'
      | None =>
          match opening w with
          | Some q => group_words (Some (q, w)) ws'
          | None => strip_matching w :: group_words None ws'
          end
      end
  end.

Definition tokenize (s : string) : list string := group_words None (words s).

(** Texts made of white space only, and texts free of it. *)
Fixpoint all_space (s : string) : bool :=
  match s with
  | EmptyString => true
  | String c s' => isspace c && all_space s'
  end.

Fixpoint no_space (s : string) : bool :=
  match s with
  | EmptyString => true
  | String c s' => negb (isspace c) && no_space s'
  end.

Definition begins_with_quote (t : string) : bool :=
  match front t with
  | Some c => is_quote c
  | None => false
  end.

(** A token that a line of words separated by single spaces can carry: not
    empty, free of white space, not opening with a quote character. *)
Definition plain_token (t : string) : Prop :=
  t <> EmptyString /\ no_space t = true /\ begins_with_quote t = false.

End TokenizerSpec.

(** ** Session state and console (main.cpp 43-46, 49-100) *)

Module Console.

Definition nl : string := String "010" EmptyString.
Definition esc : string := String "027" EmptyString.

Inductive MTColor :=
  | RESET | BOLD | DIM | MINT_GREEN | BRIGHT_GREEN | CYAN | BLUE
  | MAGENTA | ORANGE | YELLOW | RED | GRAY.

Definition mt_code (c : MTColor) : string :=
  match c with
  | RESET => esc +:+ "[0m"
  | BOLD => esc +:+ "[1m"
  | DIM => esc +:+ "[2m"
  | MINT_GREEN => esc +:+ "[38;5;121m"
  | BRIGHT_GREEN => esc +:+ "[92m"
  | CYAN => esc +:+ "[36m"
  | BLUE => esc +:+ "[34m"
  | MAGENTA => esc +:+ "[35m"
  | ORANGE => esc +:+ "[38;5;214m"
  | YELLOW => esc +:+ "[33m"
  | RED => esc +:+ "[31m"
  | GRAY => esc +:+ "[90m"
  end.

Definition colorize (c : MTColor) (s : string) : string :=
  mt_code c +:+ s +:+ mt_code RESET.

(** What one command writes: to [cout] and to [cerr]. *)
Record console := { cout : string; cerr : string }.

Definition silent : console := {| cout := EmptyString; cerr := EmptyString |}.
Definition print (s : string) : console := {| cout := s; cerr := EmptyString |}.
Definition print_colored (c : MTColor) (s : string) : console := print (colorize c s).
Definition eprint_colored (c : MTColor) (s : string) : console :=
  {| cout := EmptyString; cerr := colorize c s |}.

(** [cout << n] for an unsigned [n]. *)
Definition show_nat (n : nat) : string := NilEmpty.string_of_uint (Nat.to_uint n).

End Console.

(** ** Alias substitution and the alias commands (main.cpp 597-616, 857-869) *)

Module Alias.
Import Console.

Definition substitute_aliases (alias_map : gmap string string) (line : string) : string :=
  let args := split_args line in
  match args with
  | [] => line
  | arg0 :: _ =>
      match alias_map !! arg0 with
      | None => line
      | Some replacement =>
          let rest :=
            if (1 <? List.length args)%nat then
              match find_first_of space_tab line with
              | Some pos => substr_from (pos + 1) line
              | None => EmptyString
              end
            else EmptyString in
          replacement +:+
            match rest with
            | EmptyString => EmptyString
            | _ => " " +:+ rest
            end
      end
  end.

Definition cmd_alias (a : list string) (alias_map : gmap string string)
  : gmap string string * console :=
  match a with
  | _ :: s :: _ =>
      match find_char "=" s with
      | None => (alias_map, eprint_colored YELLOW ("alias: need name=command" +:+ nl))
      | Some pos =>
          let name := substr 0 pos s in
          let cmd := strip_quotes (substr_from (pos + 1) s) in
          (<[name := cmd]> alias_map,
           print ("alias " +:+ colorize MINT_GREEN name +:+ " -> " +:+ cmd +:+ nl))
      end
  | _ => (alias_map, eprint_colored YELLOW ("alias: usage alias name='command'" +:+ nl))
  end.

Definition cmd_unalias (a : list string) (alias_map : gmap string string)
  : gmap string string * console :=
  match a with
  | _ :: name :: _ =>
      match alias_map !! name with
      | None => (alias_map, eprint_colored YELLOW ("unalias: not found" +:+ nl))
      | Some _ => (delete name alias_map, print ("unalias: removed" +:+ nl))
      end
  | _ => (alias_map, eprint_colored YELLOW ("unalias: usage unalias name" +:+ nl))
  end.

End Alias.

(** ** History, echo and the loop of [main] (main.cpp 380-382, 497-500, 872-972) *)

Module Shell.
Import Console Alias.

Record shell := { history_buf : list string; alias_map : gmap string string }.

Definition fresh : shell := {| history_buf := []; alias_map := ∅ |}.

Fixpoint echo_args (i : nat) (a : list string) : string :=
  match a with
  | [] => EmptyString
  | x :: a' => (if (1 <? i)%nat then " " else EmptyString) +:+ x +:+ echo_args (S i) a'
  end.

Definition cmd_echo (a : list string) : console :=
  print (echo_args 1 (List.tl a) +:+ nl).

Fixpoint history_lines (i : nat) (h : list string) : string :=
  match h with
  | [] => EmptyString
  | e :: h' => show_nat (i + 1) +:+ "  " +:+ e +:+ nl +:+ history_lines (S i) h'
  end.

Definition cmd_history (a : list string) (history : list string)
  : list string * console :=
  if (1 <? List.length a)%nat && String.eqb (List.nth 1 a EmptyString) "-c"
  then ([], print ("history cleared" +:+ nl))
  else (history, print (history_lines 0 history)).

(** The command names the chain of comparisons of [main] recognises, in
    its order (lines 903-960). *)
Definition builtin_names : list string :=
  [ "exit"; "quit"; "help"; "ls"; "pwd"; "cd"; "cat"; "edit"; "mkdir"; "rm";
    "rmdir"; "touch"; "cp"; "mv"; "find"; "tree"; "ps"; "df"; "whoami"; "date";
    "clear"; "echo"; "grep"; "wc"; "head"; "tail"; "chmod"; "ln"; "du"; "sort";
    "uniq"; "history"; "which"; "open"; "env"; "setenv"; "stat"; "count";
    "alias"; "unalias"; "aliases"; "uptime"; "ping"; "hash"; "compress";
    "extract"; "calc"; "random"; "bookmark"; "bookmarks"; "unbookmark"; "goto";
    "replace"; "top"; "net"; "notify" ].

Definition is_builtin (cmd : string) : bool :=
  existsb (String.eqb cmd) builtin_names.

(** Where a tokenized line goes. *)
Inductive handler :=
  | Quit
  | Builtin (name : string)
  | TailFollow
  | External.

Definition select (args : list string) : option handler :=
  match args with
  | [] => None
  | cmd :: rest =>
      if String.eqb cmd "exit" || String.eqb cmd "quit" then Some Quit
      else if String.eqb cmd "tail" then
        if (1 <? List.length args)%nat && String.eqb (List.nth 1 args EmptyString) "-f"
        then Some TailFollow
        else Some (Builtin "tail")
      else if is_builtin cmd then Some (Builtin cmd)
      else Some External
  end.

Section Loop.

(** Everything outside the session state: file system, processes, the
    bookmark table, the environment. *)
Variable world : Type.

(** The handlers that the loop does not model itself, and the [popen]
    fallback, which receives the line: they act on the world and print, and
    none of them touches the history or the alias table.  [os_popen] is
    the call of the fallback alone; a handler that starts a process of its
    own, as [ps] and [hash] do, does so within [os_builtin].  [tail -f] is among
    them; it returns only when it cannot open its file, and is modelled on
    its own below ([Follower]). *)
Variable os_builtin : string -> list string -> shell -> world -> world * console.
Variable os_popen : string -> world -> world * console.

Inductive outcome :=
  | Continue (sh : shell) (w : world) (c : console)
  | Break (sh : shell) (w : world).

(** Lines 896-897: substitute, then log. *)
Definition record_line (sh : shell) (line : string) : shell * string :=
  let line' := substitute_aliases (alias_map sh) line in
  ({| history_buf := history_buf sh ++ [line']; alias_map := alias_map sh |}, line').

(** Lines 899-967. *)
Definition dispatch (sh : shell) (w : world) (line : string) : outcome :=
  let args := split_args line in
  match select args with
  | None => Continue sh w silent
  | Some Quit => Break sh w
  | Some (Builtin name) =>
      if String.eqb name "echo" then Continue sh w (cmd_echo args)
      else if String.eqb name "history" then
        let (h, c) := cmd_history args (history_buf sh) in
        Continue {| history_buf := h; alias_map := alias_map sh |} w c
      else if String.eqb name "alias" then
        let (m, c) := cmd_alias args (alias_map sh) in
        Continue {| history_buf := history_buf sh; alias_map := m |} w c
      else if String.eqb name "unalias" then
        let (m, c) := cmd_unalias args (alias_map sh) in
        Continue {| history_buf := history_buf sh; alias_map := m |} w c
      else
        let (w', c) := os_builtin name args sh w in Continue sh w' c
  | Some TailFollow =>
      let (w', c) := os_builtin "tail -f" args sh w in Continue sh w' c
  | Some External =>
      let (w', c) := os_popen line w in Continue sh w' c
  end.

(** One turn of the loop on a line that [getline] delivered (lines 894-967). *)
Definition main_step (sh : shell) (w : world) (line : string) : outcome :=
  match line with
  | EmptyString => Continue sh w silent
  | _ =>
      let (sh', line') := record_line sh line in
      dispatch sh' w line'
  end.

(** The loop over the lines of standard input; the result carries what each
    command printed, in order.  The prompt, which depends on the
    environment only, is left out. *)
Fixpoint main_loop (sh : shell) (w : world) (input : list string)
  : shell * world * list console :=
  match input with
  | [] => (sh, w, [])
  | line :: input' =>
      match main_step sh w line with
      | Break sh' w' => (sh', w', [])
      | Continue sh' w' c =>
          let '(sh'', w'', cs) := main_loop sh' w' input' in
          (sh'', w'', c :: cs)
      end
  end.

Definition outcome_shell (o : outcome) : shell :=
  match o with
  | Continue sh _ _ => sh
  | Break sh _ => sh
  end.

End Loop.

Arguments Continue {world} sh w c.
Arguments Break {world} sh w.
Arguments outcome_shell {world} o.

(** The operating system of the closed examples: a world without state whose
    services print nothing. *)
Definition quiet_builtin : string -> list string -> shell -> unit -> unit * console :=
  fun _ _ _ w => (w, silent).
Definition quiet_popen : string -> unit -> unit * console :=
  fun _ w => (w, silent).

End Shell.

(** ** Alias substitution as the specification words it

    [rest] is the text strictly after the first run of white space that
    follows the first token. *)

Module AliasSpec.

Definition after_first_token (line : string) : string :=
  skipws (snd (read_word (skipws line))).

Definition substitute (alias_map : gmap string string) (line : string) : string :=
  match split_args line with
  | [] => line
  | arg0 :: more =>
      match alias_map !! arg0 with
      | None => line
      | Some replacement =>
          let rest := match more with [] => EmptyString | _ => after_first_token line end in
          replacement +:+
            match rest with
            | EmptyString => EmptyString
            | _ => " " +:+ rest
            end
      end
  end.

End AliasSpec.

(** ** The expression evaluator behind [calc] (main.cpp 713-761) *)

Module Calc.

Local Open Scope float_scope.

(** [expr_ptr] is the text from the cursor to the terminating NUL. *)
Definition peek (p : string) : ascii :=
  match p with
  | String c _ => c
  | EmptyString => "000"%char
  end.

Definition advance (p : string) : string :=
  match p with
  | String _ p' => p'
  | EmptyString => EmptyString
  end.

(** The loop that steps [expr_ptr] over white space. *)
Fixpoint skip_spaces (p : string) : string :=
  match p with
  | EmptyString => EmptyString
  | String c p' => if isspace c then skip_spaces p' else p
  end.

(** [expr.c_str()]: the text up to the first NUL. *)
Fixpoint c_str (s : string) : string :=
  match s with
  | EmptyString => EmptyString
  | String c s' => if Ascii.eqb c "000" then EmptyString else String c (c_str s')
  end.

Section Evaluator.

(** [strtod] of the C library: the value converted and the number of
    characters consumed, [end - expr_ptr]; zero characters means that no
    conversion was performed. *)
Variable strtod : string -> float * nat.

(** Lines 717-721: the optional sign between two runs of white space. *)
Definition sign_of (p : string) : float :=
  if Ascii.eqb (peek p) "-" then (-1) else 1.

Definition after_sign (p : string) : string :=
  if Ascii.eqb (peek p) "+" then advance p
  else if Ascii.eqb (peek p) "-" then advance p
  else p.

Definition close_paren (p : string) : string :=
  if Ascii.eqb (peek p) ")" then advance p else p.

(** The three functions and their two loops.  [fuel] bounds the depth of
    the calls; [None] is a run that needs more. *)
Fixpoint parse_number (fuel : nat) (p : string) : option (float * string) :=
  match fuel with
  | O => None
  | S fuel =>
      let p1 := skip_spaces p in
      let sign := sign_of p1 in
      let p2 := skip_spaces (after_sign p1) in
      if Ascii.eqb (peek p2) "(" then
        match parse_expression fuel (advance p2) with
        | None => None
        | Some (v, p3) => Some (sign * v, close_paren p3)
        end
      else
        let (val, n) := strtod p2 in
        if (n =? 0)%nat then Some (0, p2)
        else Some (sign * val, substr_from n p2)
  end
with parse_term (fuel : nat) (p : string) : option (float * string) :=
  match fuel with
  | O => None
  | S fuel =>
      match parse_number fuel p with
      | None => None
      | Some (v, p1) => term_loop fuel v p1
      end
  end
with term_loop (fuel : nat) (v : float) (p : string) : option (float * string) :=
  match fuel with
  | O => None
  | S fuel =>
      let p1 := skip_spaces p in
      if Ascii.eqb (peek p1) "*" then
        match parse_number fuel (advance p1) with
        | None => None
        | Some (x, p2) => term_loop fuel (v * x) p2
        end
      else if Ascii.eqb (peek p1) "/" then
        match parse_number fuel (advance p1) with
        | None => None
        | Some (x, p2) => term_loop fuel (v / x) p2
        end
      else Some (v, p1)
  end
with parse_expression (fuel : nat) (p : string) : option (float * string) :=
  match fuel with
  | O => None
  | S fuel =>
      match parse_term fuel p with
      | None => None
      | Some (v, p1) => expr_loop fuel v p1
      end
  end
with expr_loop (fuel : nat) (v : float) (p : string) : option (float * string) :=
  match fuel with
  | O => None
  | S fuel =>
      let p1 := skip_spaces p in
      if Ascii.eqb (peek p1) "+" then
        match parse_term fuel (advance p1) with
        | None => None
        | Some (x, p2) => expr_loop fuel (v + x) p2
        end
      else if Ascii.eqb (peek p1) "-" then
        match parse_term fuel (advance p1) with
        | None => None
        | Some (x, p2) => expr_loop fuel (v - x) p2
        end
      else Some (v, p1)
  end.

(** Fuel that every text is shown to get by with. *)
Definition fuel_for (p : string) : nat := 3 * String.length p + 3.

(** [parse_expression()] with [expr_ptr] at [p]: the value and the final
    cursor. *)
Definition run_expression (p : string) : option (float * string) :=
  parse_expression (fuel_for p) p.

(** Lines 757-759 of [cmd_calc]: the value that is printed. *)
Definition calc (expr : string) : option float :=
  option_map fst (run_expression (c_str expr)).

(** A run that ends within the text, with a result that no further fuel
    changes. *)
Definition settles (run : nat -> option (float * string)) (bound : nat) (p : string) : Prop :=
  exists v q, String.length q <= String.length p /\
              forall fuel, bound <= fuel -> run fuel = Some (v, q).

Definition settled (p : string) : Prop :=
  settles (fun f => parse_number f p) (3 * String.length p + 1) p /\
  (forall v, settles (fun f => term_loop f v p) (3 * String.length p + 1) p) /\
  settles (fun f => parse_term f p) (3 * String.length p + 2) p /\
  (forall v, settles (fun f => expr_loop f v p) (3 * String.length p + 1) p) /\
  settles (fun f => parse_expression f p) (3 * String.length p + 3) p.

(** The five functions at their settling fuel, as total functions of the
    cursor. *)
Definition result_of (r : option (float * string)) : float * string :=
  match r with
  | Some x => x
  | None => (0, EmptyString)
  end.

Definition number_at (p : string) : float * string :=
  result_of (parse_number (3 * String.length p + 1) p).
Definition term_loop_at (v : float) (p : string) : float * string :=
  result_of (term_loop (3 * String.length p + 1) v p).
Definition term_at (p : string) : float * string :=
  result_of (parse_term (3 * String.length p + 2) p).
Definition expr_loop_at (v : float) (p : string) : float * string :=
  result_of (expr_loop (3 * String.length p + 1) v p).
Definition expression_at (p : string) : float * string :=
  result_of (parse_expression (3 * String.length p + 3) p).

(** *** The grammar of the specification

    [expression := term (('+' | '-') term)*],
    [term := number (('*' | '/') number)*],
    [number := ['+' | '-'] ( '(' expression ')' | float-literal )],
    white space allowed between tokens, operators associating to the left.
    Each judgement carries the text derived and its value. *)

Inductive sign_mark := NoSign | PlusSign | MinusSign.

Definition sign_text (sg : sign_mark) : string :=
  match sg with
  | NoSign => EmptyString
  | PlusSign => "+"
  | MinusSign => "-"
  end.

Definition sign_value (sg : sign_mark) : float :=
  match sg with
  | MinusSign => (-1)
  | _ => 1
  end.

(** What can come after a number: the end of the text, white space, an
    operator or a closing parenthesis. *)
Definition follows_number (rest : string) : bool :=
  match rest with
  | EmptyString => true
  | String c _ => isspace c || mem_char c "+-*/)"
  end.

(** A float literal is a text that [strtod] converts in full wherever a
    number may stand; it does not open with white space, a sign or a
    parenthesis, which belong to the grammar. *)
Definition float_literal (l : string) (v : float) : Prop :=
  (exists c l', l = String c l' /\ isspace c = false /\ mem_char c "+-(" = false) /\
  forall rest, follows_number rest = true -> strtod (l +:+ rest) = (v, String.length l).

Inductive gnumber : string -> float -> Prop :=
  | G_literal w1 sg w2 l v :
      TokenizerSpec.all_space w1 = true -> TokenizerSpec.all_space w2 = true ->
      float_literal l v ->
      gnumber (w1 +:+ sign_text sg +:+ w2 +:+ l) (sign_value sg * v)
  | G_paren w1 sg w2 e v w3 :
      TokenizerSpec.all_space w1 = true -> TokenizerSpec.all_space w2 = true ->
      TokenizerSpec.all_space w3 = true ->
      gexpression e v ->
      gnumber (w1 +:+ sign_text sg +:+ w2 +:+ "(" +:+ e +:+ w3 +:+ ")") (sign_value sg * v)
with gterm : string -> float -> Prop :=
  | G_number n v : gnumber n v -> gterm n v
  | G_mul t v w n x :
      gterm t v -> TokenizerSpec.all_space w = true -> gnumber n x ->
      gterm (t +:+ w +:+ "*" +:+ n) (v * x)
  | G_div t v w n x :
      gterm t v -> TokenizerSpec.all_space w = true -> gnumber n x ->
      gterm (t +:+ w +:+ "/" +:+ n) (v / x)
with gexpression : string -> float -> Prop :=
  | G_term t v : gterm t v -> gexpression t v
  | G_add e v w t x :
      gexpression e v -> TokenizerSpec.all_space w = true -> gterm t x ->
      gexpression (e +:+ w +:+ "+" +:+ t) (v + x)
  | G_sub e v w t x :
      gexpression e v -> TokenizerSpec.all_space w = true -> gterm t x ->
      gexpression (e +:+ w +:+ "-" +:+ t) (v - x).

Scheme gnumber_mut := Minimality for gnumber Sort Prop
  with gterm_mut := Minimality for gterm Sort Prop
  with gexpression_mut := Minimality for gexpression Sort Prop.
Combined Scheme grammar_mutind from gnumber_mut, gterm_mut, gexpression_mut.

(** The text after a term does not continue it. *)
Definition stops_term (rest : string) : Prop :=
  Ascii.eqb (peek (skip_spaces rest)) "*" = false /\
  Ascii.eqb (peek (skip_spaces rest)) "/" = false.

(** *** What the examples need of [strtod]

    On a run of at most fifteen decimal digits, followed by something that
    cannot continue a number, [strtod] converts exactly the digits; their
    value is below [2^53], so it is a double. *)
Definition is_digit (c : ascii) : bool :=
  (48 <=? nat_of_ascii c)%nat && (nat_of_ascii c <=? 57)%nat.

Fixpoint all_digits (s : string) : bool :=
  match s with
  | EmptyString => true
  | String c s' => is_digit c && all_digits s'
  end.

Fixpoint decimal_value (acc : Z) (ds : string) : Z :=
  match ds with
  | EmptyString => acc
  | String c ds' => decimal_value (10 * acc + Z.of_nat (nat_of_ascii c - 48)) ds'
  end.

Definition float_of_digits (ds : string) : float :=
  PrimFloat.of_uint63 (Uint63.of_Z (decimal_value 0 ds)).

Definition reads_integers : Prop :=
  forall ds rest,
    ds <> EmptyString -> all_digits ds = true -> String.length ds <= 15 ->
    follows_number rest = true ->
    strtod (ds +:+ rest) = (float_of_digits ds, String.length ds).

End Evaluator.

(** Zeros, and the values a division by zero produces. *)
Definition is_zero (x : float) : Prop := exists s, Prim2SF x = S754_zero s.

Definition infinite_or_nan (x : float) : Prop :=
  Prim2SF x = S754_nan \/ exists s, Prim2SF x = S754_infinity s.

(** A conversion function that reads unsigned decimal integers and nothing
    else: the part of [strtod] the examples of the specification use. *)
Fixpoint digits_prefix (s : string) : string :=
  match s with
  | EmptyString => EmptyString
  | String c s' => if is_digit c then String c (digits_prefix s') else EmptyString
  end.

Definition strtod_integers (s : string) : float * nat :=
  match digits_prefix s with
  | EmptyString => (0, O)
  | ds => (float_of_digits ds, String.length ds)
  end.

End Calc.

(** ** The file follower behind [tail -f] (main.cpp 415-443) *)

Module Follower.
Import Console.

(** The [ifstream]: the read position and the two state bits the loop
    depends on.  The file is a text of bytes that other processes extend;
    every read sees the content of that moment. *)
Record ifstream := { gpos : nat; eofbit : bool; failbit : bool }.

(** The characters up to the next newline, and whether one was found. *)
Fixpoint read_line (s : string) : string * bool :=
  match s with
  | EmptyString => (EmptyString, false)
  | String c s' =>
      if Ascii.eqb c "010" then (EmptyString, true)
      else let (l, t) := read_line s' in (String c l, t)
  end.

(** [std::getline(file, line)] on the content of the moment.  A stream that
    is not good fails at once.  Otherwise characters are taken up to a
    newline, which is consumed, or to the end of the file, which sets
    [eofbit]; when nothing at all was taken, [failbit] is set as well.  The
    call counts as true when [failbit] is clear, and then delivers a line. *)
Definition getline (content : string) (f : ifstream) : ifstream * option string :=
  if eofbit f || failbit f then
    ({| gpos := gpos f; eofbit := eofbit f; failbit := true |}, None)
  else
    let (line, terminated) := read_line (substr_from (gpos f) content) in
    if terminated then
      ({| gpos := gpos f + String.length line + 1; eofbit := false; failbit := false |},
       Some line)
    else
      match line with
      | EmptyString => ({| gpos := gpos f; eofbit := true; failbit := true |}, None)
      | _ => ({| gpos := gpos f + String.length line; eofbit := true; failbit := false |},
              Some line)
      end.

(** [file.clear()] *)
Definition clear (f : ifstream) : ifstream :=
  {| gpos := gpos f; eofbit := false; failbit := false |}.

(** Lines 423-427, on [std::streamoff] values. *)
Definition start_offset (pos_off : Z) : Z :=
  let pos_off := if (pos_off <? 0)%Z then 0%Z else pos_off in
  if (4096 <? pos_off)%Z then (pos_off - 4096)%Z else 0%Z.

(** The first loop (line 432) and the endless second one (lines 434-441). *)
Inductive phase := CatchUp | Follow.

Record follower := {
  stream : ifstream;
  state : phase;
  emitted : list string   (* the lines written to [cout], a newline after each *)
}.

(** Lines 419-429: the stream after the two seeks, at the start offset that
    the size of the file at that moment gives. *)
Definition attach (content0 : string) : follower :=
  {| stream := {| gpos := Z.to_nat (start_offset (Z.of_nat (String.length content0)));
                  eofbit := false; failbit := false |};
     state := CatchUp;
     emitted := [] |}.

(** One call of [getline] and what the loop around it does with the
    result; [content] is the file at the time of the call.  In the second
    loop a failed call is followed by the sleep and by [clear]. *)
Definition step (content : string) (st : follower) : follower :=
  let (f, r) := getline content (stream st) in
  match state st, r with
  | CatchUp, Some line => {| stream := f; state := CatchUp; emitted := emitted st ++ [line] |}
  | CatchUp, None => {| stream := f; state := Follow; emitted := emitted st |}
  | Follow, Some line => {| stream := f; state := Follow; emitted := emitted st ++ [line] |}
  | Follow, None => {| stream := clear f; state := Follow; emitted := emitted st |}
  end.

(** The loops never end by themselves; a run is observed along the
    contents that the successive calls of [getline] saw. *)
Fixpoint follow (snapshots : list string) (st : follower) : follower :=
  match snapshots with
  | [] => st
  | content :: snapshots' => follow snapshots' (step content st)
  end.

Inductive tailf_result :=
  | Refused (c : console)
  | Following (st : follower).

(** [cmd_tailf]: the file it opens is the one named by [a[1]]. *)
Definition cmd_tailf (a : list string) (open_file : string -> option string)
    (snapshots : list string) : tailf_result :=
  match a with
  | _ :: fname :: _ =>
      match open_file fname with
      | None => Refused (eprint_colored RED ("tail -f: cannot open file" +:+ nl))
      | Some content0 => Following (follow snapshots (attach content0))
      end
  | _ => Refused (eprint_colored YELLOW ("tail -f: missing file" +:+ nl))
  end.

(** What has been written to [cout]. *)
Fixpoint output_of (lines : list string) : string :=
  match lines with
  | [] => EmptyString
  | l :: lines' => l +:+ nl +:+ output_of lines'
  end.

Definition output (st : follower) : string := output_of (emitted st).

(** The file is only appended to: each content extends the one before. *)
Definition extends (c c' : string) : Prop := exists t, c' = c +:+ t.

Fixpoint grows (c : string) (snapshots : list string) : Prop :=
  match snapshots with
  | [] => True
  | c' :: snapshots' => extends c c' /\ grows c' snapshots'
  end.

(** Lines are appended whole: the content is empty or ends with a newline. *)
Definition whole_lines (c : string) : Prop :=
  c = EmptyString \/ back c = Some "010"%char.

Fixpoint no_newline (l : string) : bool :=
  match l with
  | EmptyString => true
  | String c l' => negb (Ascii.eqb c "010") && no_newline l'
  end.

(** A stream that is not good, and the calls of [getline] that such a
    stream wastes before the next read. *)
Definition not_good (f : ifstream) : bool := eofbit f || failbit f.

Definition wasted (st : follower) : nat :=
  match not_good (stream st), state st with
  | false, _ => 0
  | true, Follow => 1
  | true, CatchUp => 2
  end.

(** What a run maintains when lines are appended whole: the cursor lies
    between the start offset and the end of the file, and the file from the
    start offset is what was written followed by what is still unread. *)
Definition in_step (start : nat) (c : string) (st : follower) : Prop :=
  start <= gpos (stream st) /\ gpos (stream st) <= String.length c /\
  substr_from start c = output st +:+ substr_from (gpos (stream st)) c /\
  Forall (fun l => no_newline l = true) (emitted st).

(** The lines of a text, the last one with or without its newline. *)
Fixpoint lines_of (s : string) : list string :=
  match s with
  | EmptyString => []
  | String c s' =>
      if Ascii.eqb c "010" then EmptyString :: lines_of s'
      else match lines_of s' with
           | [] => [String c EmptyString]
           | l :: ls => String c l :: ls
           end
  end.

End Follower.

(** ** Permission bits: [perms_to_string] and [cmd_chmod] (main.cpp 137-149, 445-465) *)

Module Perms.
Import Console.

Local Open Scope Z_scope.

(** [std::filesystem::perms] is a bit mask; these are its POSIX values. *)
Definition none : Z := 0.
Definition owner_read : Z := 256.
Definition owner_write : Z := 128.
Definition owner_exec : Z := 64.
Definition group_read : Z := 32.
Definition group_write : Z := 16.
Definition group_exec : Z := 8.
Definition others_read : Z := 4.
Definition others_write : Z := 2.
Definition others_exec : Z := 1.

(** [(p & bit) != fs::perms::none] *)
Definition has (p bit : Z) : bool := negb (Z.land p bit =? none).

Definition flag (p bit : Z) (c : ascii) : ascii := if has p bit then c else "-"%char.

Definition perms_to_string (p : Z) : string :=
  String (flag p owner_read "r")
 (String (flag p owner_write "w")
 (String (flag p owner_exec "x")
 (String (flag p group_read "r")
 (String (flag p group_write "w")
 (String (flag p group_exec "x")
 (String (flag p others_read "r")
 (String (flag p others_write "w")
 (String (flag p others_exec "x") EmptyString)))))))).

(** A [char] as the [int] it promotes to, [char] being signed. *)
Definition char_value (c : ascii) : Z :=
  let n := Z.of_nat (nat_of_ascii c) in
  if n <? 128 then n else n - 256.

(** [s[i]]; the program only reads inside the string. *)
Definition char_at (i : nat) (s : string) : ascii :=
  match String.get i s with
  | Some c => c
  | None => "000"%char
  end.

(** [string(n, '0')] *)
Fixpoint zeros (n : nat) : string :=
  match n with
  | O => EmptyString
  | S n' => String "0" (zeros n')
  end.

(** Lines 447-449: one leading zero is dropped, then the text is padded on
    the left to three characters. *)
Definition chmod_digits (a1 : string) : string :=
  let s := if is_char "0" (front a1) then substr_from 1 a1 else a1 in
  if (String.length s <? 3)%nat then zeros (3 - String.length s) +:+ s else s.

(** [if (x & bit) p |= flag;] *)
Definition add_flag (x bit flag_bit p : Z) : Z :=
  if Z.land x bit =? 0 then p else Z.lor p flag_bit.

(** Lines 450-462: the mask that [fs::permissions] receives. *)
Definition chmod_perms (a1 : string) : Z :=
  let s := chmod_digits a1 in
  let n := String.length s in
  let owner := char_value (char_at (n - 3) s) - char_value "0" in
  let group := char_value (char_at (n - 2) s) - char_value "0" in
  let other := char_value (char_at (n - 1) s) - char_value "0" in
  add_flag other 1 others_exec
 (add_flag other 2 others_write
 (add_flag other 4 others_read
 (add_flag group 1 group_exec
 (add_flag group 2 group_write
 (add_flag group 4 group_read
 (add_flag owner 1 owner_exec
 (add_flag owner 2 owner_write
 (add_flag owner 4 owner_read none)))))))).

(** [cmd_chmod] up to the call of [fs::permissions(a[2], p, replace)]. *)
Inductive chmod_action :=
  | ChmodUsage (c : console)
  | ChmodSet (file : string) (p : Z).

Definition cmd_chmod (a : list string) : chmod_action :=
  match a with
  | _ :: a1 :: a2 :: _ => ChmodSet a2 (chmod_perms a1)
  | _ => ChmodUsage (eprint_colored YELLOW ("chmod: usage chmod <octal> <file>" +:+ nl))
  end.

(** The usual rendering of one octal digit. *)
Definition rwx (d : Z) : string :=
  String (if Z.testbit d 2 then "r" else "-")
 (String (if Z.testbit d 1 then "w" else "-")
 (String (if Z.testbit d 0 then "x" else "-") EmptyString)).

(** The text of three octal digits. *)
Definition octal3 (o g t : Z) : string :=
  String (ascii_of_nat (Z.to_nat (48 + o)))
 (String (ascii_of_nat (Z.to_nat (48 + g)))
 (String (ascii_of_nat (Z.to_nat (48 + t))) EmptyString)).

(** The character code, of which [cmd_chmod] keeps the low three bits. *)
Definition code (c : ascii) : Z := Z.of_nat (nat_of_ascii c).

End Perms.

(** ** Words that a pair of quotes can enclose *)

Module Quoting.
Import TokenizerSpec.

(** A word that can stand between the quotes [q]: not empty, free of white
    space and of the quote character itself. *)
Definition quotable (q : ascii) (w : string) : Prop :=
  w <> EmptyString /\ no_space w = true /\ mem_char q w = false.

(** The text [q w1 w2 ... wn q], the words separated by single spaces. *)
Definition quoted (q : ascii) (ws : list string) : string :=
  String q (String.concat " " ws +:+ String q EmptyString).

(** A text without quote characters. *)
Fixpoint quote_free (s : string) : bool :=
  match s with
  | EmptyString => true
  | String c s' => negb (is_quote c) && quote_free s'
  end.

End Quoting.

(** ** Lines that reach the alias commands (main.cpp 941-942) *)

Module AliasLines.
Import Alias.

(** The line, after substitution under table [m], has [alias] or [unalias]
    as its first token. *)
Definition defines_alias (m : gmap string string) (line : string) : Prop :=
  exists rest, split_args (substitute_aliases m line) = "alias" :: rest
            \/ split_args (substitute_aliases m line) = "unalias" :: rest.

End AliasLines.

(** ** The text-file commands (main.cpp 263-267, 384-413, 491-495)

    Each command opens the file named by its argument and reads it with
    [std::getline] until a call fails.  The file is the text it holds when
    it is opened; on POSIX a text stream delivers the bytes as they are. *)

Module TextFile.
Import Console Follower.

(** The stream of [ifstream f(name)] that opened. *)
Definition opened : ifstream := {| gpos := 0; eofbit := false; failbit := false |}.

(** The lines that the successive calls of [getline] deliver until one
    fails. *)
Fixpoint getlines (fuel : nat) (content : string) (f : ifstream) : list string :=
  match fuel with
  | O => []
  | S fuel' =>
      match getline content f with
      | (f', Some line) => line :: getlines fuel' content f'
      | (_, None) => []
      end
  end.

(** Every call that delivers a line consumes a character or ends the file,
    so one more than the length of the file bounds the number of calls. *)
Definition calls (content : string) : nat := S (String.length content).

(** Line 266. *)
Fixpoint cat_loop (fuel : nat) (content : string) (f : ifstream) : string :=
  match fuel with
  | O => EmptyString
  | S fuel' =>
      match getline content f with
      | (f', Some line) => line +:+ nl +:+ cat_loop fuel' content f'
      | (_, None) => EmptyString
      end
  end.

Definition cmd_cat (a : list string) (open_file : string -> option string) : console :=
  match a with
  | _ :: fname :: _ =>
      match open_file fname with
      | None => eprint_colored RED ("cat: cannot open" +:+ nl)
      | Some content => print (cat_loop (calls content) content opened)
      end
  | _ => eprint_colored YELLOW ("cat: missing file" +:+ nl)
  end.

(** Line 405; [n] is an [int] that stays within 0..10. *)
Fixpoint head_loop (fuel : nat) (n : Z) (content : string) (f : ifstream) : string :=
  match fuel with
  | O => EmptyString
  | S fuel' =>
      if (n <? 10)%Z then
        match getline content f with
        | (f', Some line) => line +:+ nl +:+ head_loop fuel' (n + 1)%Z content f'
        | (_, None) => EmptyString
        end
      else EmptyString
  end.

Definition cmd_head (a : list string) (open_file : string -> option string) : console :=
  match a with
  | _ :: fname :: _ =>
      match open_file fname with
      | None => eprint_colored RED ("head: cannot open file" +:+ nl)
      | Some content => print (head_loop (calls content) 0 content opened)
      end
  | _ => eprint_colored YELLOW ("head: missing file" +:+ nl)
  end.

(** Line 411: [buf.push_back(line); if (buf.size() > 10) buf.erase(buf.begin());] *)
Definition push_back_10 (buf : list string) (line : string) : list string :=
  let buf := buf ++ [line] in
  if (10 <? List.length buf)%nat then List.tl buf else buf.

Fixpoint tail_loop (fuel : nat) (buf : list string) (content : string) (f : ifstream)
  : list string :=
  match fuel with
  | O => buf
  | S fuel' =>
      match getline content f with
      | (f', Some line) => tail_loop fuel' (push_back_10 buf line) content f'
      | (_, None) => buf
      end
  end.

Definition cmd_tail (a : list string) (open_file : string -> option string) : console :=
  match a with
  | _ :: fname :: _ =>
      match open_file fname with
      | None => eprint_colored RED ("tail: cannot open file" +:+ nl)
      | Some content => print (output_of (tail_loop (calls content) [] content opened))
      end
  | _ => eprint_colored YELLOW ("tail: missing file" +:+ nl)
  end.

(** Line 494: the loop after the first line. *)
Fixpoint uniq_loop (fuel : nat) (prev : string) (content : string) (f : ifstream)
  : string :=
  match fuel with
  | O => EmptyString
  | S fuel' =>
      match getline content f with
      | (f', Some cur) =>
          (if negb (String.eqb cur prev) then cur +:+ nl else EmptyString)
          +:+ uniq_loop fuel' cur content f'
      | (_, None) => EmptyString
      end
  end.

Definition cmd_uniq (a : list string) (open_file : string -> option string) : console :=
  match a with
  | _ :: fname :: _ =>
      match open_file fname with
      | None => eprint_colored RED ("uniq: cannot open file" +:+ nl)
      | Some content =>
          match getline content opened with
          | (f', Some prev) =>
              print (prev +:+ nl +:+ uniq_loop (calls content) prev content f')
          | (f', None) => print (uniq_loop (calls content) EmptyString content f')
          end
      end
  | _ => eprint_colored YELLOW ("uniq: missing file" +:+ nl)
  end.

(** [std::size_t] arithmetic, on 64 bits. *)
Definition size_t (n : N) : N := (n mod 18446744073709551616)%N.

(** [cout << n] and [to_string(n)] for a [size_t]. *)
Definition show_N (n : N) : string := NilEmpty.string_of_uint (N.to_uint n).

(** Line 397: [while (iss >> w) ++W;] *)
Fixpoint count_words (fuel : nat) (W : N) (iss : string) : N :=
  match fuel with
  | O => W
  | S fuel' =>
      match extract iss with
      | Some (_, iss') => count_words fuel' (size_t (W + 1)) iss'
      | None => W
      end
  end.

(** Lines 395-398. *)
Fixpoint wc_loop (fuel : nat) (L W C : N) (content : string) (f : ifstream)
  : N * N * N :=
  match fuel with
  | O => (L, W, C)
  | S fuel' =>
      match getline content f with
      | (f', Some line) =>
          wc_loop fuel' (size_t (L + 1))
            (count_words (String.length line) W line)
            (size_t (C + size_t (N.of_nat (String.length line) + 1)))
            content f'
      | (_, None) => (L, W, C)
      end
  end.

Definition cmd_wc (a : list string) (open_file : string -> option string) : console :=
  match a with
  | _ :: fname :: _ =>
      match open_file fname with
      | None => eprint_colored RED ("wc: cannot open file" +:+ nl)
      | Some content =>
          let '(L, W, C) := wc_loop (calls content) 0 0 0 content opened in
          print (show_N L +:+ " " +:+ show_N W +:+ " " +:+ show_N C +:+ " " +:+ fname +:+ nl)
      end
  | _ => eprint_colored YELLOW ("wc: missing file" +:+ nl)
  end.

(** [line.find(pattern) != string::npos] *)
Definition contains (pattern line : string) : bool :=
  match String.index 0 pattern line with
  | Some _ => true
  | None => false
  end.

(** Line 388. *)
Fixpoint grep_loop (fuel : nat) (pattern : string) (lineno : N) (content : string)
    (f : ifstream) : string :=
  match fuel with
  | O => EmptyString
  | S fuel' =>
      match getline content f with
      | (f', Some line) =>
          (if contains pattern line
           then colorize MAGENTA (show_N lineno +:+ ": ") +:+ line +:+ nl
           else EmptyString)
          +:+ grep_loop fuel' pattern (size_t (lineno + 1)) content f'
      | (_, None) => EmptyString
      end
  end.

Definition cmd_grep (a : list string) (open_file : string -> option string) : console :=
  match a with
  | _ :: pattern :: fname :: _ =>
      match open_file fname with
      | None => eprint_colored RED ("grep: cannot open file" +:+ nl)
      | Some content => print (grep_loop (calls content) pattern 1 content opened)
      end
  | _ => eprint_colored YELLOW ("grep: usage grep <pattern> <file>" +:+ nl)
  end.

End TextFile.

(** ** What the text-file commands print, in terms of the lines of the file *)

Module TextSpec.
Import Console Follower.

(** The file ends a line: it is empty or its last character is a newline. *)
Definition ends_line (s : string) : bool :=
  match s with
  | EmptyString => true
  | _ => is_char "010" (back s)
  end.

(** The last [n] elements. *)
Definition lastn {A : Type} (n : nat) (l : list A) : list A :=
  skipn (List.length l - n) l.

(** Runs of equal adjacent lines reduced to their first line. *)
Fixpoint squeeze_from (prev : string) (ls : list string) : list string :=
  match ls with
  | [] => []
  | l :: ls' =>
      if String.eqb l prev then squeeze_from l ls' else l :: squeeze_from l ls'
  end.

Definition squeeze (ls : list string) : list string :=
  match ls with
  | [] => []
  | l :: ls' => l :: squeeze_from l ls'
  end.

Fixpoint no_adjacent_equal (ls : list string) : Prop :=
  match ls with
  | a :: ((b :: _) as ls') => a <> b /\ no_adjacent_equal ls'
  | _ => True
  end.

(** The matching lines with their numbers, counted from [k]. *)
Fixpoint matches (pattern : string) (k : N) (ls : list string) : list (N * string) :=
  match ls with
  | [] => []
  | l :: ls' =>
      (if TextFile.contains pattern l then [(k, l)] else [])
      ++ matches pattern (k + 1)%N ls'
  end.

Fixpoint grep_report (ms : list (N * string)) : string :=
  match ms with
  | [] => EmptyString
  | (k, l) :: ms' =>
      colorize MAGENTA (TextFile.show_N k +:+ ": ") +:+ l +:+ nl +:+ grep_report ms'
  end.

End TextSpec.

(** ** [replace <file> <old> <new>] (main.cpp 803-825)

    The files are a table from names to contents.  Opening a file for
    writing creates or truncates it; the program does not check that the
    writes succeed, and the model lets them succeed. *)

Module Replace.
Import Console.

(** [content.replace(pos, n, newv)] for [pos] within the text. *)
Definition replace_at (pos n : nat) (newv content : string) : string :=
  substr 0 pos content +:+ newv +:+ substr_from (pos + n) content.

(** Lines 815-819.  [content.find(oldv, pos)] is [String.index pos oldv
    content].  The loop has no bound of its own: [None] says that [fuel]
    turns did not reach its exit.  The text can grow without limit here:
    the failure of an allocation, which the handler of line 824 reports,
    has no place in the model, and the properties below are about runs in
    which the memory suffices. *)
Fixpoint replace_loop (fuel : nat) (oldv newv content : string) (pos : nat)
  : option string :=
  match fuel with
  | O => None
  | S fuel' =>
      match String.index pos oldv content with
      | None => Some content
      | Some p =>
          replace_loop fuel' oldv newv
            (replace_at p (String.length oldv) newv content)
            (p + String.length newv)
      end
  end.

(** The loop started as the command starts it, with the turns that a
    non-empty [oldv] can need. *)
Definition replaced (oldv newv content : string) : option string :=
  replace_loop (S (String.length content)) oldv newv content 0.

Inductive replace_result :=
  | Done (files : gmap string string) (c : console)
  | Spinning (files : gmap string string).

Definition cmd_replace (fuel : nat) (a : list string) (files : gmap string string)
  : replace_result :=
  match a with
  | _ :: file :: oldv :: newv :: _ =>
      match files !! file with
      | None => Done files (eprint_colored RED ("replace: cannot open file" +:+ nl))
      | Some content =>
          let bak := file +:+ ".bak" in
          let files := <[bak := content]> files in
          match replace_loop fuel oldv newv content 0 with
          | None => Spinning files
          | Some content' =>
              Done (<[file := content']> files)
                   (print ("replaced (backup -> " +:+ bak +:+ ")" +:+ nl))
          end
      end
  | _ => Done files
           (eprint_colored YELLOW ("replace: usage replace <file> <old> <new>" +:+ nl))
  end.

End Replace.

(** ** [which] (main.cpp 504-528), POSIX branch *)

Module Which.
Import Console.

(** The characters before the first [sep] and the text after it; [None]
    when the text ends first. *)
Fixpoint read_until (sep : ascii) (s : string) : string * option string :=
  match s with
  | EmptyString => (EmptyString, None)
  | String c s' =>
      if Ascii.eqb c sep then (EmptyString, Some s')
      else let (l, r) := read_until sep s' in (String c l, r)
  end.

(** [getline(ss, part, sep)] on a [stringstream]: the unread text, or [None]
    once [eofbit] or [failbit] is set.  The call fails on such a stream, and
    when the text ends before any character was taken. *)
Definition getline_sep (sep : ascii) (ss : option string)
  : option string * option string :=
  match ss with
  | None => (None, None)
  | Some s =>
      match read_until sep s with
      | (l, Some r) => (Some l, Some r)
      | (EmptyString, None) => (None, None)
      | (l, None) => (Some l, None)
      end
  end.

(** [fs::path(part) / cmd] on POSIX: an absolute [cmd] replaces the
    path; otherwise a separator is added when the path has a file name, that
    is when it is not empty and does not end with a slash. *)
Definition has_filename (p : string) : bool :=
  match back p with
  | Some c => negb (Ascii.eqb c "/")
  | None => false
  end.

Definition path_append (p q : string) : string :=
  if is_char "/" (front q) then q
  else if has_filename p then p +:+ "/" +:+ q
  else p +:+ q.

(** What a call of [cmd_which] comes to: it returns after printing, or a
    [filesystem_error] leaves it; neither [cmd_which] nor [main] handles
    the exception, so the program ends there. *)
Inductive which_result :=
  | Printed (c : console)
  | Uncaught.

Section Search.

(** [is_executable_file] (lines 125-135): whether the file exists, is
    regular and may be executed; [None] when [fs::exists] or
    [fs::is_regular_file] throws, which they do when the status of the file
    cannot be read for a reason other than its absence. *)
Variable is_executable_file : string -> option bool.

(** Lines 517-526.  Every call of [getline] that delivers a part shortens
    the unread text or ends it. *)
Fixpoint which_loop (fuel : nat) (cmd : string) (ss : option string) : which_result :=
  match fuel with
  | O => Printed (print ("which: not found" +:+ nl))
  | S fuel' =>
      match getline_sep ":" ss with
      | (Some part, ss') =>
          let candidate := path_append part cmd in
          match is_executable_file candidate with
          | None => Uncaught
          | Some true => Printed (print (candidate +:+ nl))
          | Some false => which_loop fuel' cmd ss'
          end
      | (None, _) => Printed (print ("which: not found" +:+ nl))
      end
  end.

Definition cmd_which (a : list string) (getenv : string -> option string)
  : which_result :=
  match a with
  | _ :: cmd :: _ =>
      match getenv "PATH" with
      | None => Printed (eprint_colored RED ("which: PATH not set" +:+ nl))
      | Some path => which_loop (S (String.length path)) cmd (Some path)
      end
  | _ => Printed (eprint_colored YELLOW ("which: missing argument" +:+ nl))
  end.

(** The search over a list of candidates, in its order. *)
Fixpoint search (candidates : list string) : which_result :=
  match candidates with
  | [] => Printed (print ("which: not found" +:+ nl))
  | candidate :: candidates' =>
      match is_executable_file candidate with
      | None => Uncaught
      | Some true => Printed (print (candidate +:+ nl))
      | Some false => search candidates'
      end
  end.

End Search.

(** The entries of a list separated by [sep]; a separator at the very end
    opens no further entry. *)
Fixpoint entries (sep : ascii) (s : string) : list string :=
  match s with
  | EmptyString => []
  | String c s' =>
      if Ascii.eqb c sep then EmptyString :: entries sep s'
      else match entries sep s' with
           | [] => [String c EmptyString]
           | l :: ls => String c l :: ls
           end
  end.

Definition free_of (sep : ascii) (s : string) : Prop := mem_char sep s = false.

End Which.

(** ** Bookmarks (main.cpp 46, 776-801) *)

Module Bookmark.
Import Console.

Section Directories.

(** The process and its file system; [fs::current_path()] reads the
    working directory and [fs::current_path(p)] sets it, and either may
    throw, with a message. *)
Variable world : Type.
Variable current_path : world -> string + string.
Variable set_current_path : string -> world -> world + string.

Definition cmd_bookmark (a : list string) (bookmarks : gmap string string) (w : world)
  : gmap string string * console :=
  match a with
  | _ :: name :: _ =>
      match current_path w with
      | inl cwd =>
          (<[name := cwd]> bookmarks,
           print ("bookmarked " +:+ colorize MINT_GREEN name +:+ " -> " +:+ cwd +:+ nl))
      | inr what => (bookmarks, eprint_colored RED ("bookmark: " +:+ what +:+ nl))
      end
  | _ => (bookmarks, eprint_colored YELLOW ("bookmark: usage bookmark <name>" +:+ nl))
  end.

Definition cmd_unbookmark (a : list string) (bookmarks : gmap string string)
  : gmap string string * console :=
  match a with
  | _ :: name :: _ =>
      match bookmarks !! name with
      | Some _ => (delete name bookmarks, print ("removed" +:+ nl))
      | None => (bookmarks, eprint_colored YELLOW ("unbookmark: not found" +:+ nl))
      end
  | _ => (bookmarks, eprint_colored YELLOW ("unbookmark: usage unbookmark <name>" +:+ nl))
  end.

Definition cmd_goto (a : list string) (bookmarks : gmap string string) (w : world)
  : world * console :=
  match a with
  | _ :: name :: _ =>
      match bookmarks !! name with
      | None => (w, eprint_colored YELLOW ("goto: not found" +:+ nl))
      | Some dir =>
          match set_current_path dir w with
          | inl w' => (w', print ("cwd -> " +:+ colorize MINT_GREEN dir +:+ nl))
          | inr what => (w, eprint_colored RED ("goto: " +:+ what +:+ nl))
          end
      end
  | _ => (w, eprint_colored YELLOW ("goto: usage goto <name>" +:+ nl))
  end.

End Directories.

End Bookmark.

(* ===================================================================== *)
(** * Properties *)
(* ===================================================================== *)

(** ** Texts *)

Section StringFacts.

Lemma app_nil_r (s : string) : s +:+ EmptyString = s.
Proof. induction s as [|c s IH]; simpl; [reflexivity | f_equal; exact IH]. Qed.

Lemma app_assoc (s t u : string) : (s +:+ t) +:+ u = s +:+ (t +:+ u).
Proof. induction s as [|c s IH]; simpl; [reflexivity | f_equal; exact IH]. Qed.

Lemma length_app (s t : string) :
  String.length (s +:+ t) = String.length s + String.length t.
Proof. induction s as [|c s IH]; simpl; [reflexivity | f_equal; exact IH]. Qed.

Lemma back_app_cons (s : string) (c : ascii) (t : string) :
  back (s +:+ String c t) = back (String c t).
Proof.
  induction s as [|d s IH]; [reflexivity |].
  change (back (String d (s +:+ String c t)) = back (String c t)).
  destruct s as [|e s]; simpl in *; exact IH.
Qed.

Lemma back_cons_nonempty (c : ascii) (s : string) :
  s <> EmptyString -> back (String c s) = back s.
Proof. destruct s; [congruence | reflexivity]. Qed.

Lemma front_app (s t : string) :
  s <> EmptyString -> front (s +:+ t) = front s.
Proof. destruct s; [congruence | reflexivity]. Qed.

End StringFacts.

Example split_args_my_dir :
  split_args ("ls -l " +:+ dq +:+ "my dir" +:+ dq) = ["ls"; "-l"; "my dir"].
Proof. reflexivity. Qed.

(** ** The tokenizer refines its specification *)

Section TokenizerFacts.
Import TokenizerSpec.

Lemma skipws_length (s : string) : String.length (skipws s) <= String.length s.
Proof.
  induction s as [|c s IH]; simpl; [lia |].
  destruct (isspace c); simpl; lia.
Qed.

Lemma skipws_head (s : string) c t : skipws s = String c t -> isspace c = false.
Proof.
  induction s as [|d s IH]; simpl; [discriminate |].
  destruct (isspace d) eqn:E; [exact IH |].
  intros [= -> _]. exact E.
Qed.

Lemma read_word_length (s : string) :
  String.length (fst (read_word s)) + String.length (snd (read_word s)) = String.length s.
Proof.
  induction s as [|c s IH]; simpl; [reflexivity |].
  destruct (isspace c); simpl; [reflexivity |].
  destruct (read_word s) as [w r]; simpl in *. lia.
Qed.

Lemma read_word_nonempty c s :
  isspace c = false -> fst (read_word (String c s)) <> EmptyString.
Proof.
  intros E. simpl. rewrite E. destruct (read_word s); simpl. discriminate.
Qed.

Lemma extract_Some (s w r : string) :
  extract s = Some (w, r) ->
  w <> EmptyString /\ String.length r < String.length s.
Proof.
  unfold extract. destruct (skipws s) as [|c t] eqn:E; [discriminate |].
  pose proof (skipws_head _ _ _ E) as Hc.
  pose proof (read_word_nonempty c t Hc) as Hne.
  pose proof (read_word_length (String c t)) as Hl.
  pose proof (skipws_length s) as Hs. rewrite E in Hs.
  destruct (read_word (String c t)) as [w' r']. intros [= -> ->].
  simpl fst in *; simpl snd in *. split; [exact Hne |].
  destruct w; [congruence | simpl in *; lia].
Qed.

Lemma extract_None_words (s : string) : extract s = None -> words s = [].
Proof.
  unfold extract, words. induction s as [|c s IH]; simpl; [reflexivity |].
  destruct (isspace c); [exact IH | discriminate].
Qed.

Lemma words_from_read_word (s cur : string) :
  words_from cur s =
  flush (cur +:+ fst (read_word s)) ++ words_from EmptyString (snd (read_word s)).
Proof.
  revert cur. induction s as [|c s IH]; intros cur; simpl.
  - now rewrite app_nil_r, List.app_nil_r.
  - destruct (isspace c) eqn:E; simpl.
    + now rewrite app_nil_r, E.
    + rewrite IH. destruct (read_word s) as [w r]; simpl.
      now rewrite app_assoc.
Qed.

Lemma words_skipws (s : string) : words s = words (skipws s).
Proof.
  unfold words. induction s as [|c s IH]; simpl; [reflexivity |].
  destruct (isspace c) eqn:E; simpl; [exact IH | now rewrite E].
Qed.

Lemma extract_Some_words (s w r : string) :
  extract s = Some (w, r) -> words s = w :: words r.
Proof.
  intros H. destruct (extract_Some _ _ _ H) as [Hne _].
  rewrite words_skipws. unfold extract in H.
  destruct (skipws s) as [|c t]; [discriminate |].
  unfold words. rewrite words_from_read_word.
  destruct (read_word (String c t)) as [w' r']. injection H as -> ->. simpl.
  destruct w; [congruence | reflexivity].
Qed.

Lemma absorb_length fuel q token iss :
  String.length (snd (absorb fuel q token iss)) <= String.length iss.
Proof.
  revert token iss. induction fuel as [|fuel IH]; intros token iss; simpl; [lia |].
  destruct (extract iss) as [[rest iss']|] eqn:E; simpl; [| lia].
  apply extract_Some in E as [_ E].
  destruct (is_char q (back rest)); simpl; [lia |].
  etransitivity; [apply IH | lia].
Qed.

Lemma remove_last_substring (s : string) :
  substring 0 (String.length s - 1) s = remove_last s.
Proof.
  induction s as [|c s IH]; [reflexivity |].
  destruct s as [|d s]; [reflexivity |].
  change (String.length (String c (String d s)) - 1) with (S (String.length s)).
  change (String c (substring 0 (String.length s) (String d s)) =
          String c (remove_last (String d s))).
  f_equal. rewrite <- IH. simpl. now rewrite Nat.sub_0_r.
Qed.

Lemma strip_quotes_matching (token : string) :
  strip_quotes token = strip_matching token.
Proof.
  unfold strip_quotes, strip_matching, substr.
  destruct token as [|q body]; [reflexivity |].
  destruct body as [|d body].
  { simpl. now rewrite andb_false_r. }
  rewrite back_cons_nonempty by discriminate.
  change (2 <=? String.length (String q (String d body)))%nat with true.
  change (String.length (String q (String d body)) - 2)
    with (String.length (String d body) - 1).
  change (substring 1 (String.length (String d body) - 1) (String q (String d body)))
    with (substring 0 (String.length (String d body) - 1) (String d body)).
  rewrite remove_last_substring. unfold is_quote, is_char, front.
  destruct (Ascii.eqb_spec q dquote) as [->|Hd].
  - simpl. now rewrite orb_false_r.
  - destruct (Ascii.eqb_spec q squote) as [->|Hs]; reflexivity.
Qed.

Lemma opens_quote_opening (w : string) : opens_quote w = opening w.
Proof.
  unfold opens_quote, opening, is_quote. destruct w as [|q body]; [reflexivity |].
  unfold front, is_char at 1 3.
  destruct (Ascii.eqb_spec q dquote) as [->|Hd]; simpl.
  - destruct (is_char dquote (back (String dquote body))); reflexivity.
  - destruct (Ascii.eqb_spec q squote) as [->|Hs]; simpl; [| reflexivity].
    destruct (is_char squote (back (String squote body))); reflexivity.
Qed.

Lemma opening_Some (w : string) q :
  opening w = Some q ->
  is_quote q = true /\ front w = Some q /\ is_char q (back w) = false.
Proof.
  unfold opening. destruct (front w) as [c|]; [| discriminate].
  destruct (is_quote c) eqn:Hq; [| discriminate]. simpl.
  destruct (is_char c (back w)) eqn:Hb; [discriminate |].
  intros [= <-]. auto.
Qed.

(** A token that opens with [q] and does not end with it is not stripped. *)
Lemma strip_matching_open (token : string) q :
  front token = Some q -> is_char q (back token) = false ->
  strip_matching token = token.
Proof.
  destruct token as [|c body]; [reflexivity |]. intros [= ->] Hb.
  unfold strip_matching. destruct body as [|d body].
  - simpl. now rewrite andb_false_r.
  - rewrite back_cons_nonempty in Hb by discriminate. now rewrite Hb, andb_false_r.
Qed.

Lemma absorb_refines fuel : forall iss q token,
  String.length iss <= fuel ->
  front token = Some q -> is_char q (back token) = false ->
  strip_quotes (fst (absorb fuel q token iss))
    :: group_words None (words (snd (absorb fuel q token iss)))
  = group_words (Some (q, token)) (words iss).
Proof.
  induction fuel as [|fuel IH]; intros iss q token Hlen Hf Hb.
  - destruct iss; [| simpl in Hlen; lia]. simpl.
    rewrite strip_quotes_matching. f_equal. eapply strip_matching_open; eauto.
  - simpl. destruct (extract iss) as [[rest iss']|] eqn:E.
    + rewrite (extract_Some_words _ _ _ E). simpl.
      destruct (extract_Some _ _ _ E) as [Hne Hl].
      destruct (is_char q (back rest)) eqn:Hr; simpl.
      * now rewrite strip_quotes_matching.
      * apply IH; [lia | |].
        -- rewrite front_app; [exact Hf |]. destruct token; [discriminate | discriminate].
        -- destruct rest as [|c rest]; [congruence |].
           rewrite back_app_cons. exact Hr.
    + rewrite (extract_None_words _ E). simpl.
      rewrite strip_quotes_matching. f_equal. eapply strip_matching_open; eauto.
Qed.

Lemma split_loop_refines fuel : forall iss,
  String.length iss <= fuel -> split_loop fuel iss = tokenize iss.
Proof.
  unfold tokenize. induction fuel as [|fuel IH]; intros iss Hlen.
  - destruct iss; [reflexivity | simpl in Hlen; lia].
  - simpl. destruct (extract iss) as [[token iss']|] eqn:E.
    + rewrite (extract_Some_words _ _ _ E). simpl.
      destruct (extract_Some _ _ _ E) as [Hne Hl].
      rewrite opens_quote_opening. destruct (opening token) as [q|] eqn:Ho.
      * destruct (opening_Some _ _ Ho) as (Hq & Hf & Hb).
        pose proof (absorb_length (String.length iss') q token iss') as Ha.
        pose proof (absorb_refines (String.length iss') iss' q token (le_n _) Hf Hb) as Hr.
        destruct (absorb (String.length iss') q token iss') as [token' iss'']; simpl in *.
        rewrite <- Hr. f_equal. apply IH. lia.
      * rewrite strip_quotes_matching. f_equal. apply IH. lia.
    + now rewrite (extract_None_words _ E).
Qed.

(** The code and the specification's tokenizer agree on every line. *)
Lemma split_args_tokenize (s : string) : split_args s = tokenize s.
Proof. apply split_loop_refines. lia. Qed.

(** The unfolding of the outer loop: the fuel never runs out. *)
Lemma split_loop_enough fuel iss :
  String.length iss <= fuel -> split_loop fuel iss = split_args iss.
Proof. intros H. rewrite split_args_tokenize. now apply split_loop_refines. Qed.

End TokenizerFacts.

Import Console Alias Shell.

(** ** Alias substitution *)

Section AliasFacts.

Lemma find_first_of_app (set pre : string) c post :
  find_first_of set pre = None -> mem_char c set = true ->
  find_first_of set (pre +:+ String c post) = Some (String.length pre).
Proof.
  intros Hpre Hc. induction pre as [|d pre IH]; simpl in *.
  - now rewrite Hc.
  - destruct (mem_char d set); [discriminate |].
    destruct (find_first_of set pre); [discriminate |].
    now rewrite IH.
Qed.

Lemma substr_from_app (pre : string) c post :
  substr_from (String.length pre + 1) (pre +:+ String c post) = post.
Proof. induction pre as [|d pre IH]; simpl; [reflexivity | exact IH]. Qed.

(** A line whose first token is no alias, and a line without tokens, pass
    through unchanged. *)
Lemma substitute_aliases_absent (m : gmap string string) (line : string) :
  (forall k args, split_args line = k :: args -> m !! k = None) ->
  substitute_aliases m line = line.
Proof.
  intros H. unfold substitute_aliases.
  destruct (split_args line) as [|k args]; [reflexivity |].
  now rewrite (H k args eq_refl).
Qed.

Lemma substitute_aliases_single (m : gmap string string) (line k v : string) :
  split_args line = [k] -> m !! k = Some v -> substitute_aliases m line = v.
Proof.
  intros Hs Hk. unfold substitute_aliases. rewrite Hs, Hk. simpl.
  apply app_nil_r.
Qed.

Lemma substitute_aliases_more (m : gmap string string) (line pre post k t v : string)
    (c : ascii) (ts : list string) :
  line = pre +:+ String c post ->
  find_first_of space_tab pre = None -> mem_char c space_tab = true ->
  split_args line = k :: t :: ts -> m !! k = Some v ->
  substitute_aliases m line =
  v +:+ match post with EmptyString => EmptyString | _ => " " +:+ post end.
Proof.
  intros -> Hpre Hc Hs Hk. unfold substitute_aliases. rewrite Hs, Hk.
  change (1 <? List.length (k :: t :: ts))%nat with true. cbv iota.
  rewrite (find_first_of_app _ _ _ _ Hpre Hc), substr_from_app. reflexivity.
Qed.

End AliasFacts.

(** C1.  What the code does on [alias ll='ls -l'] followed by [ll /tmp]:
    the tokenizer only honours a quote that opens a token, so the definition
    is split at its space into [ll='ls] and [-l']; [cmd_alias] reads the
    second token alone and stores [ll -> 'ls].  The later line [ll /tmp] is
    rewritten to ['ls /tmp], not to [ls -l /tmp].  Quoting the whole
    definition, [alias 'll=ls -l'], stores [ll -> ls -l] and gives
    [ls -l /tmp]. *)
Theorem alias_ll_definition_is_cut_at_space
    (world : Type) (os_builtin : string -> list string -> shell -> world -> world * console)
    (os_popen : string -> world -> world * console) (w : world) :
  split_args "alias ll='ls -l'" = ["alias"; "ll='ls"; "-l'"] /\
  main_step world os_builtin os_popen fresh w "alias ll='ls -l'" =
    Continue {| history_buf := ["alias ll='ls -l'"]; alias_map := <["ll" := "'ls"]> ∅ |} w
      (print ("alias " +:+ colorize MINT_GREEN "ll" +:+ " -> 'ls" +:+ nl)) /\
  substitute_aliases (<["ll" := "'ls"]> ∅) "ll /tmp" = "'ls /tmp" /\
  "'ls /tmp" <> "ls -l /tmp" /\
  outcome_shell (main_step world os_builtin os_popen fresh w "alias 'll=ls -l'") =
    {| history_buf := ["alias 'll=ls -l'"]; alias_map := <["ll" := "ls -l"]> ∅ |} /\
  substitute_aliases (<["ll" := "ls -l"]> ∅) "ll /tmp" = "ls -l /tmp".
Proof.
  repeat split; try reflexivity. discriminate.
Qed.

(** C2, as the claim words it, fails: on [ll  /tmp] (two spaces) the code
    keeps the second space, where the text after the white-space run would
    be [/tmp]. *)
Lemma substitute_aliases_keeps_second_space :
  substitute_aliases {["ll" := "ls -l"]} "ll  /tmp" = "ls -l  /tmp" /\
  AliasSpec.substitute {["ll" := "ls -l"]} "ll  /tmp" = "ls -l /tmp" /\
  substitute_aliases {["ll" := "ls -l"]} "ll  /tmp"
    <> AliasSpec.substitute {["ll" := "ls -l"]} "ll  /tmp".
Proof. repeat split; try reflexivity. vm_compute. discriminate. Qed.

(** C2, amended.  With [m] the alias table:
    - a line whose first token is no key of [m] (or that has no token) is
      returned unchanged;
    - a line of exactly one token, a key of [m], becomes the replacement text
      alone;
    - a line that starts with its first token [k], a key of [m], followed by
      one space or tab [c] and the text [post], and that has more than one
      token, becomes the replacement, a single space and [post], which is
      everything after that one separator character (nothing is added when
      [post] is empty);
    - the pass is single: the result depends on the table through the entry
      of the first token only, so the replacement is never expanded again. *)
Theorem substitute_aliases_contract (m : gmap string string) :
  (forall line,
     (forall k args, split_args line = k :: args -> m !! k = None) ->
     substitute_aliases m line = line) /\
  (forall line k v,
     split_args line = [k] -> m !! k = Some v -> substitute_aliases m line = v) /\
  (forall k c post t ts v,
     mem_char c space_tab = true -> find_first_of space_tab k = None ->
     split_args (k +:+ String c post) = k :: t :: ts -> m !! k = Some v ->
     substitute_aliases m (k +:+ String c post) =
     v +:+ match post with EmptyString => EmptyString | _ => " " +:+ post end) /\
  (forall m' line k args,
     split_args line = k :: args -> m !! k = m' !! k ->
     substitute_aliases m line = substitute_aliases m' line).
Proof.
  split; [| split; [| split]].
  - apply substitute_aliases_absent.
  - apply substitute_aliases_single.
  - intros k c post t ts v Hc Hk Hs Hm.
    now apply (substitute_aliases_more m _ k post k t v c ts).
  - intros m' line k args Hs Hm. unfold substitute_aliases.
    rewrite Hs, Hm. reflexivity.
Qed.

Lemma substitute_aliases_contract_witness :
  substitute_aliases {["ll" := "ls -l"]} "ll  /tmp" = "ls -l  /tmp" /\
  substitute_aliases {["ll" := "ls -l"]} "ll" = "ls -l" /\
  substitute_aliases {["ll" := "ls -l"]} "cat x" = "cat x" /\
  substitute_aliases {["a" := "b"; "b" := "c"]} "a" = "b".
Proof.
  split; [| split; [| split]].
  - apply (proj1 (proj2 (proj2 (substitute_aliases_contract {["ll" := "ls -l"]})))
             "ll" " "%char " /tmp" "/tmp" [] "ls -l"); reflexivity.
  - apply (proj1 (proj2 (substitute_aliases_contract {["ll" := "ls -l"]}))
             "ll" "ll" "ls -l"); reflexivity.
  - apply (proj1 (substitute_aliases_contract {["ll" := "ls -l"]}) "cat x").
    intros k args [= <- <-]. reflexivity.
  - apply (proj1 (proj2 (substitute_aliases_contract {["a" := "b"; "b" := "c"]}))
             "a" "a" "b"); reflexivity.
Defined.

(** ** The loop of [main] and the history log *)

Section LoopFacts.
Context (world : Type)
        (os_builtin : string -> list string -> shell -> world -> world * console)
        (os_popen : string -> world -> world * console).

Lemma select_Builtin (args : list string) name :
  select args = Some (Builtin name) -> exists rest, args = name :: rest.
Proof.
  unfold select. destruct args as [|cmd rest]; [discriminate |].
  destruct (String.eqb cmd "exit" || String.eqb cmd "quit"); [discriminate |].
  destruct (String.eqb_spec cmd "tail") as [->|_].
  - destruct (_ && _); [discriminate |]. intros [= <-]. eauto.
  - destruct (is_builtin cmd); [| discriminate]. intros [= <-]. eauto.
Qed.

(** No handler but [history -c] touches the log. *)
Lemma dispatch_history (sh : shell) (w : world) (line : string) :
  history_buf (outcome_shell (dispatch world os_builtin os_popen sh w line)) = history_buf sh
  \/ (history_buf (outcome_shell (dispatch world os_builtin os_popen sh w line)) = []
      /\ exists rest, split_args line = "history" :: "-c" :: rest).
Proof.
  unfold dispatch.
  destruct (select (split_args line)) as [[|name| |]|] eqn:Hsel; simpl; auto.
  - destruct (select_Builtin _ _ Hsel) as [rest Hargs]. rewrite Hargs.
    destruct (String.eqb_spec name "echo"); [auto |].
    destruct (String.eqb_spec name "history") as [->|].
    + unfold cmd_history. destruct rest as [|a1 rest]; simpl; [auto |].
      destruct (String.eqb_spec a1 "-c") as [->|]; simpl; eauto.
    + destruct (String.eqb_spec name "alias").
      { destruct (cmd_alias _ _); auto. }
      destruct (String.eqb_spec name "unalias").
      { destruct (cmd_unalias _ _); auto. }
      destruct (os_builtin _ _ _ _); auto.
  - destruct (os_builtin _ _ _ _); auto.
  - destruct (os_popen _ _); auto.
Qed.

Lemma main_step_nonempty (sh : shell) (w : world) (line : string) :
  line <> EmptyString ->
  main_step world os_builtin os_popen sh w line =
  dispatch world os_builtin os_popen
    {| history_buf := history_buf sh ++ [substitute_aliases (alias_map sh) line];
       alias_map := alias_map sh |}
    w (substitute_aliases (alias_map sh) line).
Proof. destruct line; [congruence | reflexivity]. Qed.

(** [history -c] leaves an empty log, whatever was logged before. *)
Lemma dispatch_history_clear (sh : shell) (w : world) (line : string) (rest : list string) :
  split_args line = "history" :: "-c" :: rest ->
  history_buf (outcome_shell (dispatch world os_builtin os_popen sh w line)) = [].
Proof.
  intros H. unfold dispatch. rewrite H.
  change (select ("history" :: "-c" :: rest)) with (Some (Builtin "history")).
  cbv iota.
  change (String.eqb "history" "echo") with false.
  change (String.eqb "history" "history") with true. cbv iota.
  reflexivity.
Qed.

End LoopFacts.

(** C3, as the claim words it, fails: the line [history] is logged before it
    is dispatched, so the listing ends with the command itself, and after
    [history -c] the next [history] lists itself. *)
Lemma history_lists_itself :
  (main_loop unit quiet_builtin quiet_popen fresh tt ["echo a"; "echo b"; "history"]).2
  = [print ("a" +:+ nl); print ("b" +:+ nl);
     print ("1  echo a" +:+ nl +:+ "2  echo b" +:+ nl +:+ "3  history" +:+ nl)]
  /\ "1  echo a" +:+ nl +:+ "2  echo b" +:+ nl +:+ "3  history" +:+ nl
     <> "1  echo a" +:+ nl +:+ "2  echo b" +:+ nl
  /\ (main_loop unit quiet_builtin quiet_popen fresh tt
        ["echo a"; "echo b"; "history -c"; "history"]).2
  = [print ("a" +:+ nl); print ("b" +:+ nl); print ("history cleared" +:+ nl);
     print ("1  history" +:+ nl)]
  /\ "1  history" +:+ nl <> EmptyString.
Proof. repeat split; try reflexivity; vm_compute; discriminate. Qed.

(** C3, amended.  In a fresh session, whatever the operating system does,
    after [echo a] and [echo b] the command [history] prints [1  echo a],
    [2  echo b] and then its own entry [3  history]; [history -c] prints
    [history cleared] and empties the log, its own entry included; the
    [history] after it prints its own entry [1  history] only. *)
Theorem history_after_echo_and_clear
    (world : Type) (os_builtin : string -> list string -> shell -> world -> world * console)
    (os_popen : string -> world -> world * console) (w : world) :
  main_loop world os_builtin os_popen fresh w ["echo a"; "echo b"; "history"]
  = ({| history_buf := ["echo a"; "echo b"; "history"]; alias_map := ∅ |}, w,
     [print ("a" +:+ nl); print ("b" +:+ nl);
      print ("1  echo a" +:+ nl +:+ "2  echo b" +:+ nl +:+ "3  history" +:+ nl)])
  /\ main_loop world os_builtin os_popen fresh w
       ["echo a"; "echo b"; "history -c"; "history"]
  = ({| history_buf := ["history"]; alias_map := ∅ |}, w,
     [print ("a" +:+ nl); print ("b" +:+ nl); print ("history cleared" +:+ nl);
      print ("1  history" +:+ nl)]).
Proof. split; reflexivity. Qed.

(** C4, as the claim words it, fails: a line of one space is not empty,
    has no token, and is logged all the same. *)
Lemma blank_line_is_logged :
  " " <> EmptyString /\ split_args " " = [] /\
  main_step unit quiet_builtin quiet_popen fresh tt " "
  = Continue {| history_buf := [" "]; alias_map := ∅ |} tt silent.
Proof. repeat split; try reflexivity. discriminate. Qed.

(** C4, amended.  The empty line changes nothing.  Every other line,
    whether or not it has a token, is logged exactly once, before it is
    dispatched, and the logged text is the line after alias substitution:
    the handler runs on the log extended by that one entry.  After the turn
    the log is empty when the tokens of the logged line are [history -c]
    followed by anything, and it is this extended log in every other
    case. *)
Theorem history_logs_every_nonempty_line
    (world : Type) (os_builtin : string -> list string -> shell -> world -> world * console)
    (os_popen : string -> world -> world * console) (sh : shell) (w : world) :
  main_step world os_builtin os_popen sh w EmptyString = Continue sh w silent /\
  forall line, line <> EmptyString ->
    let line' := substitute_aliases (alias_map sh) line in
    let logged := history_buf sh ++ [line'] in
    main_step world os_builtin os_popen sh w line =
      dispatch world os_builtin os_popen
        {| history_buf := logged; alias_map := alias_map sh |} w line'
    /\ (forall rest, split_args line' = "history" :: "-c" :: rest ->
          history_buf (outcome_shell (main_step world os_builtin os_popen sh w line)) = [])
    /\ ((forall rest, split_args line' <> "history" :: "-c" :: rest) ->
          history_buf (outcome_shell (main_step world os_builtin os_popen sh w line))
          = logged).
Proof.
  split; [reflexivity |]. intros line Hne line' logged.
  rewrite main_step_nonempty by exact Hne. split; [reflexivity | split].
  - intros rest Hrest.
    exact (dispatch_history_clear world os_builtin os_popen
             {| history_buf := logged; alias_map := alias_map sh |} w line' rest Hrest).
  - intros Hother.
    destruct (dispatch_history world os_builtin os_popen
                {| history_buf := logged; alias_map := alias_map sh |} w line')
      as [H | [_ [rest Hrest]]]; [exact H |].
    destruct (Hother rest Hrest).
Qed.

Lemma history_logs_every_nonempty_line_witness :
  history_buf (outcome_shell
    (main_step unit quiet_builtin quiet_popen
       {| history_buf := ["echo a"]; alias_map := {["ll" := "ls -l"]} |} tt "ll /tmp"))
  = ["echo a"; "ls -l /tmp"]
  /\ history_buf (outcome_shell
       (main_step unit quiet_builtin quiet_popen
          {| history_buf := ["echo a"]; alias_map := {["ll" := "ls -l"]} |} tt
          "history  -c now"))
     = [].
Proof.
  pose proof (proj2 (history_logs_every_nonempty_line unit quiet_builtin quiet_popen
                       {| history_buf := ["echo a"]; alias_map := {["ll" := "ls -l"]} |} tt))
    as H.
  split.
  - destruct (H "ll /tmp" ltac:(discriminate)) as (_ & _ & Hkeep).
    apply Hkeep. intros rest Hrest. vm_compute in Hrest. discriminate Hrest.
  - destruct (H "history  -c now" ltac:(discriminate)) as (_ & Hclear & _).
    apply (Hclear ["now"]). vm_compute. reflexivity.
Defined.

(** ** The tokenizer: contract, joined words, empty quotes *)

Section TokenizerContract.
Import TokenizerSpec.

Lemma split_args_all_space (s : string) : all_space s = true -> split_args s = [].
Proof.
  intros H. rewrite split_args_tokenize. unfold tokenize, words.
  induction s as [|c s IH]; simpl in *; [reflexivity |].
  apply andb_prop in H as [Hc Hs]. rewrite Hc. simpl. auto.
Qed.

Lemma strip_quotes_bounded (q : ascii) (mid : string) :
  is_quote q = true -> strip_quotes (String q (mid +:+ String q EmptyString)) = mid.
Proof.
  intros Hq. rewrite strip_quotes_matching. unfold strip_matching.
  rewrite Hq, back_app_cons. simpl. rewrite Ascii.eqb_refl.
  induction mid as [|c mid IH]; [reflexivity |].
  simpl. destruct (mid +:+ String q EmptyString) eqn:E.
  - destruct mid; discriminate.
  - now rewrite IH.
Qed.

Lemma words_from_no_space (t cur s : string) :
  no_space t = true -> words_from cur (t +:+ s) = words_from (cur +:+ t) s.
Proof.
  revert cur. induction t as [|c t IH]; intros cur H; simpl in *.
  - now rewrite app_nil_r.
  - apply andb_prop in H as [Hc Ht]. apply negb_true_iff in Hc. rewrite Hc.
    rewrite IH by exact Ht. now rewrite app_assoc.
Qed.

Lemma words_concat (toks : list string) :
  Forall plain_token toks -> words (String.concat " " toks) = toks.
Proof.
  unfold words. induction 1 as [|t toks (Hne & Hns & _) Hall IH]; [reflexivity |].
  destruct toks as [|u toks].
  - simpl. rewrite <- (app_nil_r t) at 1. rewrite words_from_no_space by exact Hns.
    simpl. destruct t; [congruence | reflexivity].
  - change (String.concat " " (t :: u :: toks)) with (t +:+ String " " (String.concat " " (u :: toks))).
    rewrite words_from_no_space by exact Hns.
    change (flush t ++ words_from EmptyString (String.concat " " (u :: toks)) = t :: u :: toks).
    rewrite IH. destruct t; [congruence | reflexivity].
Qed.

Lemma group_words_plain (toks : list string) :
  Forall plain_token toks -> group_words None toks = toks.
Proof.
  induction 1 as [|t toks (Hne & _ & Hq) Hall IH]; [reflexivity |].
  simpl. unfold opening, strip_matching. unfold begins_with_quote in Hq.
  destruct t as [|c t]; [congruence |]. simpl in *. rewrite Hq. simpl.
  now rewrite IH.
Qed.

End TokenizerContract.

(** C5.  On every line [split_args] computes what the specification
    describes ([TokenizerSpec.tokenize]): the words between runs of white
    space, where a word that opens with a quote it does not close absorbs
    the following words, joined by single spaces, up to the first one that
    ends with that quote, or to the end of the line when none does; a token
    with the same quote at both ends loses one quote at each end.  The
    loops of the code never run out of fuel.  In particular
    [ls -l "my dir"] gives [ls], [-l], [my dir]; a quote that is never
    closed gives one token running to the end of the line; white space
    alone gives no token. *)
Theorem split_args_contract :
  (forall line, split_args line = TokenizerSpec.tokenize line) /\
  (forall fuel line, String.length line <= fuel -> split_loop fuel line = split_args line) /\
  (forall q mid, TokenizerSpec.is_quote q = true ->
     strip_quotes (String q (mid +:+ String q EmptyString)) = mid) /\
  split_args ("ls -l " +:+ dq +:+ "my dir" +:+ dq) = ["ls"; "-l"; "my dir"] /\
  split_args ("echo " +:+ dq +:+ "a   b c") = ["echo"; dq +:+ "a b c"] /\
  (forall line, TokenizerSpec.all_space line = true -> split_args line = []).
Proof.
  split; [exact split_args_tokenize |].
  split; [exact split_loop_enough |].
  split; [exact strip_quotes_bounded |].
  split; [reflexivity |]. split; [reflexivity |].
  exact split_args_all_space.
Qed.

Lemma split_args_contract_witness :
  strip_quotes "'my dir'" = "my dir" /\
  split_args (String " " (String "009" (String "013" " "))) = [].
Proof.
  split.
  - apply (proj1 (proj2 (proj2 split_args_contract)) "'"%char "my dir"). reflexivity.
  - apply (proj2 (proj2 (proj2 (proj2 (proj2 split_args_contract))))). reflexivity.
Defined.

(** C9, as the claim words it, fails on the empty token, which holds no
    space and no quote: joined, it gives the empty line, which has no token.
    The tokenizer itself produces this token, from [''].  A token holding a
    tab is cut in two as well. *)
Lemma split_args_loses_empty_token :
  mem_char " " EmptyString = false /\
  TokenizerSpec.begins_with_quote EmptyString = false /\
  split_args "''" = [EmptyString] /\
  split_args (String.concat " " [EmptyString]) = [] /\
  mem_char " " (String "a" (String "009" "b")) = false /\
  split_args (String.concat " " [String "a" (String "009" "b")]) = ["a"; "b"].
Proof. repeat split; reflexivity. Qed.

(** C9, amended.  For every sequence of tokens that are not empty, hold no
    white-space character (space, tab, newline, vertical tab, form feed,
    carriage return) and do not open with a quote character, tokenizing the
    sequence joined by single spaces gives the sequence back. *)
Theorem split_args_concat (toks : list string) :
  Forall TokenizerSpec.plain_token toks -> split_args (String.concat " " toks) = toks.
Proof.
  intros H. rewrite split_args_tokenize. unfold TokenizerSpec.tokenize.
  rewrite words_concat by exact H. now apply group_words_plain.
Qed.

Lemma split_args_concat_witness :
  split_args (String.concat " " ["grep"; "-n"; "a'b"; "file.txt"]) = ["grep"; "-n"; "a'b"; "file.txt"].
Proof.
  apply split_args_concat.
  repeat constructor; discriminate.
Defined.

(** C10.  A line made of two equal quote characters gives one token, the
    empty string, where white space alone gives none.  The empty string is
    then the command name: it is no built-in, so, unless it is itself an
    alias, the line is logged and handed to the external process service. *)
Theorem empty_quotes_give_empty_command
    (world : Type) (os_builtin : string -> list string -> shell -> world -> world * console)
    (os_popen : string -> world -> world * console) (sh : shell) (w : world) :
  split_args "''" = [EmptyString] /\
  split_args (dq +:+ dq) = [EmptyString] /\
  (forall line, TokenizerSpec.all_space line = true -> split_args line = []) /\
  select [EmptyString] = Some External /\
  (alias_map sh !! EmptyString = None ->
   forall line, line = "''" \/ line = dq +:+ dq ->
   main_step world os_builtin os_popen sh w line =
   let (w', c) := os_popen line w in
   Continue {| history_buf := history_buf sh ++ [line]; alias_map := alias_map sh |} w' c).
Proof.
  split; [reflexivity |]. split; [reflexivity |].
  split; [exact split_args_all_space |]. split; [reflexivity |].
  intros Hm line [-> | ->].
  - rewrite main_step_nonempty by discriminate.
    assert (Hs : substitute_aliases (alias_map sh) "''" = "''").
    { apply substitute_aliases_absent. intros k args [= <- <-]. exact Hm. }
    rewrite Hs. reflexivity.
  - rewrite main_step_nonempty by discriminate.
    assert (Hs : substitute_aliases (alias_map sh) (dq +:+ dq) = dq +:+ dq).
    { apply substitute_aliases_absent. intros k args [= <- <-]. exact Hm. }
    rewrite Hs. reflexivity.
Qed.

Lemma empty_quotes_give_empty_command_witness :
  main_step unit quiet_builtin quiet_popen fresh tt "''" =
  Continue {| history_buf := ["''"]; alias_map := ∅ |} tt silent.
Proof.
  apply (proj2 (proj2 (proj2 (proj2
           (empty_quotes_give_empty_command unit quiet_builtin quiet_popen fresh tt))))
           eq_refl "''" (or_introl eq_refl)).
Defined.

(** ** The evaluator: every run ends, whatever the text *)

Section EvaluatorTotal.
Import Calc.
Variable strtod : string -> float * nat.

Lemma skip_spaces_length (p : string) :
  String.length (skip_spaces p) <= String.length p.
Proof.
  induction p as [|c p IH]; simpl; [lia |].
  destruct (isspace c); simpl; lia.
Qed.

Lemma advance_length (p : string) : String.length (advance p) <= String.length p.
Proof. destruct p; simpl; lia. Qed.

Lemma peek_advance_length (p : string) (c : ascii) :
  Ascii.eqb (peek p) c = true -> c <> "000"%char ->
  S (String.length (advance p)) = String.length p.
Proof.
  destruct p as [|d p]; [| reflexivity].
  intros H Hc. apply Ascii.eqb_eq in H. simpl in H. congruence.
Qed.

Lemma after_sign_length (p : string) :
  String.length (after_sign p) <= String.length p.
Proof.
  unfold after_sign. pose proof (advance_length p).
  destruct (Ascii.eqb (peek p) "+"), (Ascii.eqb (peek p) "-"); lia.
Qed.

Lemma close_paren_length (p : string) :
  String.length (close_paren p) <= String.length p.
Proof.
  unfold close_paren. pose proof (advance_length p).
  destruct (Ascii.eqb (peek p) ")"); lia.
Qed.

Lemma substr_from_length (n : nat) (p : string) :
  String.length (substr_from n p) <= String.length p.
Proof.
  revert p. induction n as [|n IH]; intros p; simpl; [lia |].
  destruct p as [|c p]; simpl; [lia |]. specialize (IH p). lia.
Qed.

Lemma settled_all (n : nat) : forall p, String.length p <= n -> settled strtod p.
Proof.
  induction n as [n IH] using lt_wf_ind.
  assert (Hshort : forall q, String.length q < n -> settled strtod q).
  { intros q Hq. apply (IH (String.length q)); lia. }
  clear IH.
  assert (HN : forall p, String.length p <= n ->
            settles (fun f => parse_number strtod f p) (3 * String.length p + 1) p).
  { intros p Hp. pose proof (skip_spaces_length p) as L1.
    pose proof (after_sign_length (skip_spaces p)) as L2.
    pose proof (skip_spaces_length (after_sign (skip_spaces p))) as L3.
    set (p2 := skip_spaces (after_sign (skip_spaces p))) in *.
    destruct (Ascii.eqb (peek p2) "(") eqn:Hparen.
    - pose proof (peek_advance_length _ _ Hparen ltac:(discriminate)) as L4.
      destruct (Hshort (advance p2) ltac:(lia)) as (_ & _ & _ & _ & (v & q & Hq & Hrun)).
      exists (PrimFloat.mul (sign_of (skip_spaces p)) v), (close_paren q). split.
      + pose proof (close_paren_length q). lia.
      + intros [|fuel] Hf; [lia |]. simpl. fold p2. rewrite Hparen.
        rewrite Hrun by lia. reflexivity.
    - destruct (strtod p2) as [val k] eqn:Hs. destruct (k =? 0)%nat eqn:Hk.
      + exists 0%float, p2. split; [lia |].
        intros [|fuel] Hf; [lia |]. simpl. fold p2. now rewrite Hparen, Hs, Hk.
      + exists (PrimFloat.mul (sign_of (skip_spaces p)) val), (substr_from k p2). split.
        * pose proof (substr_from_length k p2). lia.
        * intros [|fuel] Hf; [lia |]. simpl. fold p2. now rewrite Hparen, Hs, Hk. }
  assert (HTL : forall p, String.length p <= n -> forall v,
            settles (fun f => term_loop strtod f v p) (3 * String.length p + 1) p).
  { intros p Hp v. pose proof (skip_spaces_length p) as L1.
    destruct (Ascii.eqb (peek (skip_spaces p)) "*") eqn:Hmul;
      [| destruct (Ascii.eqb (peek (skip_spaces p)) "/") eqn:Hdiv].
    - pose proof (peek_advance_length _ _ Hmul ltac:(discriminate)) as L2.
      destruct (Hshort (advance (skip_spaces p)) ltac:(lia)) as ((x & q & Hq & Hrun) & _).
      destruct (Hshort q ltac:(lia)) as (_ & HTq & _).
      destruct (HTq (PrimFloat.mul v x)) as (v' & q' & Hq' & Hrun').
      exists v', q'. split; [lia |].
      intros [|fuel] Hf; [lia |]. simpl. rewrite Hmul.
      rewrite Hrun by lia. apply Hrun'. lia.
    - pose proof (peek_advance_length _ _ Hdiv ltac:(discriminate)) as L2.
      destruct (Hshort (advance (skip_spaces p)) ltac:(lia)) as ((x & q & Hq & Hrun) & _).
      destruct (Hshort q ltac:(lia)) as (_ & HTq & _).
      destruct (HTq (PrimFloat.div v x)) as (v' & q' & Hq' & Hrun').
      exists v', q'. split; [lia |].
      intros [|fuel] Hf; [lia |]. simpl. rewrite Hmul, Hdiv.
      rewrite Hrun by lia. apply Hrun'. lia.
    - exists v, (skip_spaces p). split; [lia |].
      intros [|fuel] Hf; [lia |]. simpl. now rewrite Hmul, Hdiv. }
  assert (HT : forall p, String.length p <= n ->
            settles (fun f => parse_term strtod f p) (3 * String.length p + 2) p).
  { intros p Hp. destruct (HN p Hp) as (v & q & Hq & Hrun).
    destruct (HTL q ltac:(lia) v) as (v' & q' & Hq' & Hrun').
    exists v', q'. split; [lia |].
    intros [|fuel] Hf; [lia |]. simpl. rewrite Hrun by lia. apply Hrun'. lia. }
  assert (HEL : forall p, String.length p <= n -> forall v,
            settles (fun f => expr_loop strtod f v p) (3 * String.length p + 1) p).
  { intros p Hp v. pose proof (skip_spaces_length p) as L1.
    destruct (Ascii.eqb (peek (skip_spaces p)) "+") eqn:Hadd;
      [| destruct (Ascii.eqb (peek (skip_spaces p)) "-") eqn:Hsub].
    - pose proof (peek_advance_length _ _ Hadd ltac:(discriminate)) as L2.
      destruct (Hshort (advance (skip_spaces p)) ltac:(lia))
        as (_ & _ & (x & q & Hq & Hrun) & _).
      destruct (Hshort q ltac:(lia)) as (_ & _ & _ & HEq & _).
      destruct (HEq (PrimFloat.add v x)) as (v' & q' & Hq' & Hrun').
      exists v', q'. split; [lia |].
      intros [|fuel] Hf; [lia |]. simpl. rewrite Hadd.
      rewrite Hrun by lia. apply Hrun'. lia.
    - pose proof (peek_advance_length _ _ Hsub ltac:(discriminate)) as L2.
      destruct (Hshort (advance (skip_spaces p)) ltac:(lia))
        as (_ & _ & (x & q & Hq & Hrun) & _).
      destruct (Hshort q ltac:(lia)) as (_ & _ & _ & HEq & _).
      destruct (HEq (PrimFloat.sub v x)) as (v' & q' & Hq' & Hrun').
      exists v', q'. split; [lia |].
      intros [|fuel] Hf; [lia |]. simpl. rewrite Hadd, Hsub.
      rewrite Hrun by lia. apply Hrun'. lia.
    - exists v, (skip_spaces p). split; [lia |].
      intros [|fuel] Hf; [lia |]. simpl. now rewrite Hadd, Hsub. }
  intros p Hp. repeat split; auto.
  destruct (HT p Hp) as (v & q & Hq & Hrun).
  destruct (HEL q ltac:(lia) v) as (v' & q' & Hq' & Hrun').
  exists v', q'. split; [lia |].
  intros [|fuel] Hf; [lia |]. simpl. rewrite Hrun by lia. apply Hrun'. lia.
Qed.

End EvaluatorTotal.

(** ** The evaluator: the equations of the five functions *)

Section EvaluatorEquations.
Import Calc.
Variable strtod : string -> float * nat.

Lemma parse_number_stable (p : string) fuel :
  3 * String.length p + 1 <= fuel ->
  parse_number strtod fuel p = Some (number_at strtod p).
Proof.
  destruct (settled_all strtod _ p (le_n _)) as ((v & q & _ & H) & _).
  intros Hf. unfold number_at. rewrite (H _ (le_n _)). simpl. now apply H.
Qed.

Lemma term_loop_stable (v : float) (p : string) fuel :
  3 * String.length p + 1 <= fuel ->
  term_loop strtod fuel v p = Some (term_loop_at strtod v p).
Proof.
  destruct (settled_all strtod _ p (le_n _)) as (_ & H & _).
  destruct (H v) as (v' & q & _ & Hrun).
  intros Hf. unfold term_loop_at. rewrite (Hrun _ (le_n _)). simpl. now apply Hrun.
Qed.

Lemma parse_term_stable (p : string) fuel :
  3 * String.length p + 2 <= fuel ->
  parse_term strtod fuel p = Some (term_at strtod p).
Proof.
  destruct (settled_all strtod _ p (le_n _)) as (_ & _ & (v & q & _ & H) & _).
  intros Hf. unfold term_at. rewrite (H _ (le_n _)). simpl. now apply H.
Qed.

Lemma expr_loop_stable (v : float) (p : string) fuel :
  3 * String.length p + 1 <= fuel ->
  expr_loop strtod fuel v p = Some (expr_loop_at strtod v p).
Proof.
  destruct (settled_all strtod _ p (le_n _)) as (_ & _ & _ & H & _).
  destruct (H v) as (v' & q & _ & Hrun).
  intros Hf. unfold expr_loop_at. rewrite (Hrun _ (le_n _)). simpl. now apply Hrun.
Qed.

Lemma parse_expression_stable (p : string) fuel :
  3 * String.length p + 3 <= fuel ->
  parse_expression strtod fuel p = Some (expression_at strtod p).
Proof.
  destruct (settled_all strtod _ p (le_n _)) as (_ & _ & _ & _ & (v & q & _ & H)).
  intros Hf. unfold expression_at. rewrite (H _ (le_n _)). simpl. now apply H.
Qed.

Lemma number_at_length (p : string) :
  String.length (number_at strtod p).2 <= String.length p.
Proof.
  destruct (settled_all strtod _ p (le_n _)) as ((v & q & Hq & H) & _).
  unfold number_at. now rewrite (H _ (le_n _)).
Qed.

Lemma term_at_length (p : string) :
  String.length (term_at strtod p).2 <= String.length p.
Proof.
  destruct (settled_all strtod _ p (le_n _)) as (_ & _ & (v & q & Hq & H) & _).
  unfold term_at. now rewrite (H _ (le_n _)).
Qed.

(** [parse_number], lines 716-733. *)
Lemma number_at_paren (p : string) :
  let p2 := skip_spaces (after_sign (skip_spaces p)) in
  Ascii.eqb (peek p2) "(" = true ->
  number_at strtod p =
  (PrimFloat.mul (sign_of (skip_spaces p)) (expression_at strtod (advance p2)).1,
   close_paren (expression_at strtod (advance p2)).2).
Proof.
  intros p2 Hparen. unfold number_at.
  replace (3 * String.length p + 1) with (S (3 * String.length p)) by lia.
  simpl. fold p2. rewrite Hparen.
  pose proof (skip_spaces_length p) as L1.
  pose proof (after_sign_length (skip_spaces p)) as L2.
  pose proof (skip_spaces_length (after_sign (skip_spaces p))) as L3. fold p2 in L3.
  pose proof (peek_advance_length _ _ Hparen ltac:(discriminate)) as L4.
  rewrite parse_expression_stable by lia.
  destruct (expression_at strtod (advance p2)). reflexivity.
Qed.

Lemma number_at_strtod (p : string) :
  let p2 := skip_spaces (after_sign (skip_spaces p)) in
  Ascii.eqb (peek p2) "(" = false ->
  number_at strtod p =
  if ((strtod p2).2 =? 0)%nat then (0%float, p2)
  else (PrimFloat.mul (sign_of (skip_spaces p)) (strtod p2).1, substr_from (strtod p2).2 p2).
Proof.
  intros p2 Hparen. unfold number_at.
  replace (3 * String.length p + 1) with (S (3 * String.length p)) by lia.
  simpl. fold p2. rewrite Hparen. destruct (strtod p2) as [val n]. simpl.
  destruct (n =? 0)%nat; reflexivity.
Qed.

(** [parse_term], lines 734-743. *)
Lemma term_at_eq (p : string) :
  term_at strtod p = term_loop_at strtod (number_at strtod p).1 (number_at strtod p).2.
Proof.
  unfold term_at.
  replace (3 * String.length p + 2) with (S (3 * String.length p + 1)) by lia.
  simpl. rewrite parse_number_stable by lia.
  pose proof (number_at_length p). destruct (number_at strtod p) as [v q]. simpl in *.
  rewrite term_loop_stable by lia. reflexivity.
Qed.

Lemma term_loop_at_mul (v : float) (p : string) :
  Ascii.eqb (peek (skip_spaces p)) "*" = true ->
  term_loop_at strtod v p =
  term_loop_at strtod (PrimFloat.mul v (number_at strtod (advance (skip_spaces p))).1)
    (number_at strtod (advance (skip_spaces p))).2.
Proof.
  intros Hmul. unfold term_loop_at at 1.
  replace (3 * String.length p + 1) with (S (3 * String.length p)) by lia.
  simpl. rewrite Hmul.
  pose proof (skip_spaces_length p) as L1.
  pose proof (peek_advance_length _ _ Hmul ltac:(discriminate)) as L2.
  rewrite parse_number_stable by lia.
  pose proof (number_at_length (advance (skip_spaces p))).
  destruct (number_at strtod (advance (skip_spaces p))) as [x q]. simpl in *.
  rewrite term_loop_stable by lia. reflexivity.
Qed.

Lemma term_loop_at_div (v : float) (p : string) :
  Ascii.eqb (peek (skip_spaces p)) "/" = true ->
  term_loop_at strtod v p =
  term_loop_at strtod (PrimFloat.div v (number_at strtod (advance (skip_spaces p))).1)
    (number_at strtod (advance (skip_spaces p))).2.
Proof.
  intros Hdiv. unfold term_loop_at at 1.
  replace (3 * String.length p + 1) with (S (3 * String.length p)) by lia.
  simpl. destruct (Ascii.eqb (peek (skip_spaces p)) "*") eqn:Hmul.
  { apply Ascii.eqb_eq in Hmul, Hdiv. congruence. }
  rewrite Hdiv.
  pose proof (skip_spaces_length p) as L1.
  pose proof (peek_advance_length _ _ Hdiv ltac:(discriminate)) as L2.
  rewrite parse_number_stable by lia.
  pose proof (number_at_length (advance (skip_spaces p))).
  destruct (number_at strtod (advance (skip_spaces p))) as [x q]. simpl in *.
  rewrite term_loop_stable by lia. reflexivity.
Qed.

Lemma term_loop_at_stop (v : float) (p : string) :
  Ascii.eqb (peek (skip_spaces p)) "*" = false ->
  Ascii.eqb (peek (skip_spaces p)) "/" = false ->
  term_loop_at strtod v p = (v, skip_spaces p).
Proof.
  intros Hmul Hdiv. unfold term_loop_at.
  replace (3 * String.length p + 1) with (S (3 * String.length p)) by lia.
  simpl. now rewrite Hmul, Hdiv.
Qed.

(** [parse_expression], lines 744-753. *)
Lemma expression_at_eq (p : string) :
  expression_at strtod p = expr_loop_at strtod (term_at strtod p).1 (term_at strtod p).2.
Proof.
  unfold expression_at.
  replace (3 * String.length p + 3) with (S (3 * String.length p + 2)) by lia.
  simpl. rewrite parse_term_stable by lia.
  pose proof (term_at_length p). destruct (term_at strtod p) as [v q]. simpl in *.
  rewrite expr_loop_stable by lia. reflexivity.
Qed.

Lemma expr_loop_at_add (v : float) (p : string) :
  Ascii.eqb (peek (skip_spaces p)) "+" = true ->
  expr_loop_at strtod v p =
  expr_loop_at strtod (PrimFloat.add v (term_at strtod (advance (skip_spaces p))).1)
    (term_at strtod (advance (skip_spaces p))).2.
Proof.
  intros Hadd. unfold expr_loop_at at 1.
  replace (3 * String.length p + 1) with (S (3 * String.length p)) by lia.
  simpl. rewrite Hadd.
  pose proof (skip_spaces_length p) as L1.
  pose proof (peek_advance_length _ _ Hadd ltac:(discriminate)) as L2.
  rewrite parse_term_stable by lia.
  pose proof (term_at_length (advance (skip_spaces p))).
  destruct (term_at strtod (advance (skip_spaces p))) as [x q]. simpl in *.
  rewrite expr_loop_stable by lia. reflexivity.
Qed.

Lemma expr_loop_at_sub (v : float) (p : string) :
  Ascii.eqb (peek (skip_spaces p)) "-" = true ->
  expr_loop_at strtod v p =
  expr_loop_at strtod (PrimFloat.sub v (term_at strtod (advance (skip_spaces p))).1)
    (term_at strtod (advance (skip_spaces p))).2.
Proof.
  intros Hsub. unfold expr_loop_at at 1.
  replace (3 * String.length p + 1) with (S (3 * String.length p)) by lia.
  simpl. destruct (Ascii.eqb (peek (skip_spaces p)) "+") eqn:Hadd.
  { apply Ascii.eqb_eq in Hadd, Hsub. congruence. }
  rewrite Hsub.
  pose proof (skip_spaces_length p) as L1.
  pose proof (peek_advance_length _ _ Hsub ltac:(discriminate)) as L2.
  rewrite parse_term_stable by lia.
  pose proof (term_at_length (advance (skip_spaces p))).
  destruct (term_at strtod (advance (skip_spaces p))) as [x q]. simpl in *.
  rewrite expr_loop_stable by lia. reflexivity.
Qed.

Lemma expr_loop_at_stop (v : float) (p : string) :
  Ascii.eqb (peek (skip_spaces p)) "+" = false ->
  Ascii.eqb (peek (skip_spaces p)) "-" = false ->
  expr_loop_at strtod v p = (v, skip_spaces p).
Proof.
  intros Hadd Hsub. unfold expr_loop_at.
  replace (3 * String.length p + 1) with (S (3 * String.length p)) by lia.
  simpl. now rewrite Hadd, Hsub.
Qed.

Lemma run_expression_eq (p : string) :
  run_expression strtod p = Some (expression_at strtod p).
Proof. unfold run_expression, fuel_for. apply parse_expression_stable. lia. Qed.

End EvaluatorEquations.

(** ** The evaluator follows the grammar *)

Section EvaluatorGrammar.
Import Calc TokenizerSpec.
Variable strtod : string -> float * nat.

Lemma skip_spaces_all_space (w s : string) :
  all_space w = true -> skip_spaces (w +:+ s) = skip_spaces s.
Proof.
  induction w as [|c w IH]; simpl; [reflexivity |].
  intros H. apply andb_prop in H as [Hc Hw]. rewrite Hc. auto.
Qed.

Lemma skip_spaces_nonspace (c : ascii) (s : string) :
  isspace c = false -> skip_spaces (String c s) = String c s.
Proof. intros H. simpl. now rewrite H. Qed.

Lemma skip_spaces_idem (p : string) : skip_spaces (skip_spaces p) = skip_spaces p.
Proof.
  induction p as [|c p IH]; simpl; [reflexivity |].
  destruct (isspace c) eqn:E; [exact IH |]. simpl. now rewrite E.
Qed.

Lemma substr_from_app_length (l rest : string) :
  substr_from (String.length l) (l +:+ rest) = rest.
Proof. induction l as [|c l IH]; simpl; [now destruct rest | exact IH]. Qed.

Lemma expr_loop_at_skip (v : float) (p : string) :
  expr_loop_at strtod v (skip_spaces p) = expr_loop_at strtod v p.
Proof.
  destruct (Ascii.eqb (peek (skip_spaces p)) "+") eqn:Hadd;
    [| destruct (Ascii.eqb (peek (skip_spaces p)) "-") eqn:Hsub].
  - rewrite (expr_loop_at_add _ _ p Hadd).
    rewrite expr_loop_at_add by (now rewrite skip_spaces_idem).
    now rewrite skip_spaces_idem.
  - rewrite (expr_loop_at_sub _ _ p Hsub).
    rewrite expr_loop_at_sub by (now rewrite skip_spaces_idem).
    now rewrite skip_spaces_idem.
  - rewrite (expr_loop_at_stop _ _ p Hadd Hsub).
    rewrite expr_loop_at_stop by (now rewrite skip_spaces_idem).
    now rewrite skip_spaces_idem.
Qed.

(** After an operator character the text still follows a number. *)
Lemma follows_number_space (w : string) (c : ascii) (s : string) :
  all_space w = true -> mem_char c "+-*/)" = true ->
  follows_number (w +:+ String c s) = true.
Proof.
  destruct w as [|d w]; simpl; intros Hw Hc.
  - rewrite Hc. apply orb_true_r.
  - apply andb_prop in Hw as [Hd _]. now rewrite Hd.
Qed.

Lemma skip_to_char (w : string) (c : ascii) (s : string) :
  all_space w = true -> isspace c = false ->
  skip_spaces (w +:+ String c s) = String c s.
Proof.
  intros Hw Hc. rewrite skip_spaces_all_space by exact Hw.
  now apply skip_spaces_nonspace.
Qed.

Lemma sign_prefix (w1 : string) (sg : sign_mark) (w2 : string) (c : ascii) (tail : string) :
  all_space w1 = true -> all_space w2 = true -> isspace c = false ->
  Ascii.eqb c "+" = false -> Ascii.eqb c "-" = false ->
  let p := w1 +:+ sign_text sg +:+ w2 +:+ String c tail in
  sign_of (skip_spaces p) = sign_value sg /\
  skip_spaces (after_sign (skip_spaces p)) = String c tail.
Proof.
  intros Hw1 Hw2 Hsp Hplus Hminus p. subst p.
  rewrite skip_spaces_all_space by exact Hw1.
  destruct sg; simpl.
  - rewrite skip_to_char by assumption.
    unfold sign_of, after_sign. simpl peek. rewrite Hplus, Hminus.
    rewrite skip_spaces_nonspace by exact Hsp. auto.
  - unfold sign_of, after_sign. simpl. rewrite skip_to_char by assumption. auto.
  - unfold sign_of, after_sign. simpl. rewrite skip_to_char by assumption. auto.
Qed.

Lemma not_sign_or_paren (c : ascii) :
  mem_char c "+-(" = false ->
  Ascii.eqb c "+" = false /\ Ascii.eqb c "-" = false /\ Ascii.eqb c "(" = false.
Proof.
  simpl. intros H.
  apply orb_false_elim in H as [H1 H]. apply orb_false_elim in H as [H2 H].
  apply orb_false_elim in H as [H3 _]. auto.
Qed.

Theorem grammar_sound :
  (forall n v, gnumber strtod n v ->
     forall rest, follows_number rest = true ->
       number_at strtod (n +:+ rest) = (v, rest)) /\
  (forall t v, gterm strtod t v ->
     forall rest, follows_number rest = true ->
       term_at strtod (t +:+ rest) = term_loop_at strtod v rest) /\
  (forall e v, gexpression strtod e v ->
     forall rest, follows_number rest = true -> stops_term rest ->
       expression_at strtod (e +:+ rest) = expr_loop_at strtod v rest).
Proof.
  apply grammar_mutind.
  - (* literal *)
    intros w1 sg w2 l v Hw1 Hw2 [(c & l' & Hl & Hsp & Hmem) Hconv] rest Hrest.
    destruct (not_sign_or_paren c Hmem) as (Hplus & Hminus & Hparen).
    rewrite !app_assoc. specialize (Hconv rest Hrest). subst l.
    change (String c l' +:+ rest) with (String c (l' +:+ rest)) in *.
    destruct (sign_prefix w1 sg w2 c (l' +:+ rest) Hw1 Hw2 Hsp Hplus Hminus)
      as (Hsign & Hafter).
    rewrite number_at_strtod; rewrite Hafter; [| exact Hparen].
    rewrite Hsign, Hconv. cbn [fst snd].
    change (String c (l' +:+ rest)) with (String c l' +:+ rest).
    rewrite substr_from_app_length. reflexivity.
  - (* parenthesis *)
    intros w1 sg w2 e v w3 Hw1 Hw2 Hw3 _ IH rest Hrest.
    rewrite !app_assoc.
    change ("(" +:+ e +:+ w3 +:+ ")" +:+ rest) with (String "(" (e +:+ w3 +:+ String ")" rest)).
    destruct (sign_prefix w1 sg w2 "(" (e +:+ w3 +:+ String ")" rest) Hw1 Hw2
                eq_refl eq_refl eq_refl) as (Hsign & Hafter).
    rewrite number_at_paren; rewrite Hafter; [| reflexivity].
    simpl advance. rewrite Hsign.
    rewrite IH.
    + rewrite expr_loop_at_stop; rewrite skip_to_char by (exact Hw3 || reflexivity);
        try reflexivity.
    + apply follows_number_space; [exact Hw3 | reflexivity].
    + split; rewrite skip_to_char by (exact Hw3 || reflexivity); reflexivity.
  - (* a number is a term *)
    intros n v _ IH rest Hrest. rewrite term_at_eq, (IH rest Hrest). reflexivity.
  - (* product *)
    intros t v w n x _ IHt Hw _ IHn rest Hrest.
    rewrite !app_assoc.
    change ("*" +:+ n +:+ rest) with (String "*" (n +:+ rest)).
    rewrite IHt by (apply follows_number_space; [exact Hw | reflexivity]).
    rewrite term_loop_at_mul; rewrite skip_to_char by (exact Hw || reflexivity);
      [| reflexivity].
    simpl advance. rewrite (IHn rest Hrest). reflexivity.
  - (* quotient *)
    intros t v w n x _ IHt Hw _ IHn rest Hrest.
    rewrite !app_assoc.
    change ("/" +:+ n +:+ rest) with (String "/" (n +:+ rest)).
    rewrite IHt by (apply follows_number_space; [exact Hw | reflexivity]).
    rewrite term_loop_at_div; rewrite skip_to_char by (exact Hw || reflexivity);
      [| reflexivity].
    simpl advance. rewrite (IHn rest Hrest). reflexivity.
  - (* a term is an expression *)
    intros t v _ IH rest Hrest [Hmul Hdiv].
    rewrite expression_at_eq, (IH rest Hrest).
    rewrite (term_loop_at_stop _ _ _ Hmul Hdiv). simpl.
    apply expr_loop_at_skip.
  - (* sum *)
    intros e v w t x _ IHe Hw _ IHt rest Hrest [Hmul Hdiv].
    rewrite !app_assoc.
    change ("+" +:+ t +:+ rest) with (String "+" (t +:+ rest)).
    rewrite IHe.
    + rewrite expr_loop_at_add; rewrite skip_to_char by (exact Hw || reflexivity);
        [| reflexivity].
      simpl advance. rewrite (IHt rest Hrest).
      rewrite (term_loop_at_stop _ _ _ Hmul Hdiv). simpl.
      apply expr_loop_at_skip.
    + apply follows_number_space; [exact Hw | reflexivity].
    + split; rewrite skip_to_char by (exact Hw || reflexivity); reflexivity.
  - (* difference *)
    intros e v w t x _ IHe Hw _ IHt rest Hrest [Hmul Hdiv].
    rewrite !app_assoc.
    change ("-" +:+ t +:+ rest) with (String "-" (t +:+ rest)).
    rewrite IHe.
    + rewrite expr_loop_at_sub; rewrite skip_to_char by (exact Hw || reflexivity);
        [| reflexivity].
      simpl advance. rewrite (IHt rest Hrest).
      rewrite (term_loop_at_stop _ _ _ Hmul Hdiv). simpl.
      apply expr_loop_at_skip.
    + apply follows_number_space; [exact Hw | reflexivity].
    + split; rewrite skip_to_char by (exact Hw || reflexivity); reflexivity.
Qed.

End EvaluatorGrammar.

(** ** The evaluator: grammar, degenerate input *)

Section EvaluatorContract.
Import Calc TokenizerSpec.
Variable strtod : string -> float * nat.

Lemma skip_spaces_only (w : string) : all_space w = true -> skip_spaces w = EmptyString.
Proof.
  induction w as [|c w IH]; simpl; [reflexivity |].
  intros H. apply andb_prop in H as [Hc Hw]. rewrite Hc. auto.
Qed.

Lemma follows_number_only (w : string) : all_space w = true -> follows_number w = true.
Proof.
  destruct w as [|c w]; simpl; [reflexivity |].
  intros H. apply andb_prop in H as [Hc _]. now rewrite Hc.
Qed.

(** A derivation of the whole text, trailing white space allowed, gives the
    value the evaluator returns, with the cursor at the end. *)
Lemma run_expression_grammar (s : string) (v : float) (w : string) :
  gexpression strtod s v -> all_space w = true ->
  run_expression strtod (s +:+ w) = Some (v, EmptyString).
Proof.
  intros Hg Hw. rewrite run_expression_eq. f_equal.
  destruct (grammar_sound strtod) as (_ & _ & H).
  rewrite (H s v Hg w (follows_number_only w Hw)).
  - rewrite expr_loop_at_stop; rewrite skip_spaces_only by exact Hw; reflexivity.
  - split; rewrite skip_spaces_only by exact Hw; reflexivity.
Qed.

Lemma digit_not_special (c : ascii) :
  is_digit c = true -> isspace c = false /\ mem_char c "+-(" = false.
Proof.
  destruct c as [[] [] [] [] [] [] [] []]; vm_compute; intros; split; congruence.
Qed.

Lemma float_literal_digits (ds : string) :
  reads_integers strtod ->
  ds <> EmptyString -> all_digits ds = true -> String.length ds <= 15 ->
  float_literal strtod ds (float_of_digits ds).
Proof.
  intros Hr Hne Hd Hl. split.
  - destruct ds as [|c ds]; [congruence |]. simpl in Hd.
    apply andb_prop in Hd as [Hc _]. destruct (digit_not_special c Hc). eauto.
  - intros rest Hrest. now apply Hr.
Qed.

(** A number written as an optional sign and an integer of digits. *)
Lemma gnumber_digits (w1 : string) (sg : sign_mark) (w2 ds : string) :
  reads_integers strtod ->
  all_space w1 = true -> all_space w2 = true ->
  ds <> EmptyString -> all_digits ds = true -> String.length ds <= 15 ->
  gnumber strtod (w1 +:+ sign_text sg +:+ w2 +:+ ds)
    (PrimFloat.mul (sign_value sg) (float_of_digits ds)).
Proof.
  intros Hr Hw1 Hw2 Hne Hd Hl. apply G_literal; auto.
  now apply float_literal_digits.
Qed.

Lemma calc_grammar (s : string) (v : float) :
  c_str s = s -> gexpression strtod s v -> calc strtod s = Some v.
Proof.
  intros Hc Hg. unfold calc. rewrite Hc, <- (app_nil_r s).
  now rewrite (run_expression_grammar s v EmptyString Hg eq_refl).
Qed.

(** Division by a zero gives an infinity or a NaN. *)
Lemma div_by_zero (v x : float) : is_zero x -> infinite_or_nan (PrimFloat.div v x).
Proof.
  intros [s Hx]. unfold infinite_or_nan. rewrite FloatAxioms.div_spec, Hx.
  destruct (Prim2SF v); simpl; eauto.
Qed.

End EvaluatorContract.

Lemma digits_prefix_app (ds rest : string) :
  Calc.all_digits ds = true -> Calc.follows_number rest = true ->
  Calc.digits_prefix (ds +:+ rest) = ds.
Proof.
  intros Hd Hrest. induction ds as [|c ds IH]; simpl in *.
  - destruct rest as [|c rest]; [reflexivity |]. simpl in *.
    replace (Calc.is_digit c) with false; [reflexivity |].
    revert Hrest. destruct c as [[] [] [] [] [] [] [] []]; vm_compute; congruence.
  - apply andb_prop in Hd as [Hc Hd]. rewrite Hc, IH by exact Hd. reflexivity.
Qed.

Lemma strtod_integers_reads_integers : Calc.reads_integers Calc.strtod_integers.
Proof.
  intros ds rest Hne Hd Hl Hrest. unfold Calc.strtod_integers.
  rewrite digits_prefix_app by assumption.
  destruct ds; [congruence | reflexivity].
Qed.

(** C6.  The evaluator implements the grammar
    [expression := term (('+' | '-') term)*],
    [term := number (('*' | '/') number)*],
    [number := ['+' | '-'] ( '(' expression ')' | float-literal )]:
    for every text the grammar derives, with white space between tokens and
    after the last one, it returns the value of the derivation, in which the
    operators associate to the left and [*], [/] bind tighter than [+], [-],
    and it leaves the cursor at the end of the text.  With a [strtod] that
    reads decimal integers, [2 + 3 * 4] gives 14, [(2 + 3) * 4] gives 20,
    [-5 + 2] gives -3 and [1 / 0] gives the infinity. *)
Theorem evaluator_implements_grammar (strtod : string -> float * nat) :
  (forall s v w,
     Calc.gexpression strtod s v -> TokenizerSpec.all_space w = true ->
     Calc.run_expression strtod (s +:+ w) = Some (v, EmptyString)) /\
  (Calc.reads_integers strtod ->
   Calc.calc strtod "2 + 3 * 4" = Some 14%float /\
   Calc.calc strtod "(2 + 3) * 4" = Some 20%float /\
   Calc.calc strtod "-5 + 2" = Some (-3)%float /\
   Calc.calc strtod "1 / 0" = Some infinity).
Proof.
  split; [apply run_expression_grammar |]. intros Hr.
  assert (lit : forall w1 sg ds,
            TokenizerSpec.all_space w1 = true -> ds <> EmptyString ->
            Calc.all_digits ds = true -> String.length ds <= 15 ->
            Calc.gnumber strtod (w1 +:+ Calc.sign_text sg +:+ EmptyString +:+ ds)
              (PrimFloat.mul (Calc.sign_value sg) (Calc.float_of_digits ds))).
  { intros. now apply gnumber_digits. }
  pose proof (lit EmptyString Calc.NoSign "2" eq_refl ltac:(discriminate) eq_refl
                ltac:(simpl; lia)) as n2.
  pose proof (lit " " Calc.NoSign "2" eq_refl ltac:(discriminate) eq_refl
                ltac:(simpl; lia)) as n2'.
  pose proof (lit " " Calc.NoSign "3" eq_refl ltac:(discriminate) eq_refl
                ltac:(simpl; lia)) as n3.
  pose proof (lit " " Calc.NoSign "4" eq_refl ltac:(discriminate) eq_refl
                ltac:(simpl; lia)) as n4.
  pose proof (lit EmptyString Calc.MinusSign "5" eq_refl ltac:(discriminate) eq_refl
                ltac:(simpl; lia)) as n5.
  pose proof (lit EmptyString Calc.NoSign "1" eq_refl ltac:(discriminate) eq_refl
                ltac:(simpl; lia)) as n1.
  pose proof (lit " " Calc.NoSign "0" eq_refl ltac:(discriminate) eq_refl
                ltac:(simpl; lia)) as n0.
  repeat split; apply calc_grammar; try reflexivity.
  - exact (Calc.G_add strtod _ _ " " _ _
             (Calc.G_term strtod _ _ (Calc.G_number strtod _ _ n2)) eq_refl
             (Calc.G_mul strtod _ _ " " _ _ (Calc.G_number strtod _ _ n3) eq_refl n4)).
  - exact (Calc.G_term strtod _ _
             (Calc.G_mul strtod _ _ " " _ _
                (Calc.G_number strtod _ _
                   (Calc.G_paren strtod EmptyString Calc.NoSign EmptyString _ _ EmptyString
                      eq_refl eq_refl eq_refl
                      (Calc.G_add strtod _ _ " " _ _
                         (Calc.G_term strtod _ _ (Calc.G_number strtod _ _ n2)) eq_refl
                         (Calc.G_number strtod _ _ n3))))
                eq_refl n4)).
  - exact (Calc.G_add strtod _ _ " " _ _
             (Calc.G_term strtod _ _ (Calc.G_number strtod _ _ n5)) eq_refl
             (Calc.G_number strtod _ _ n2')).
  - exact (Calc.G_term strtod _ _
             (Calc.G_div strtod _ _ " " _ _ (Calc.G_number strtod _ _ n1) eq_refl n0)).
Qed.

Lemma evaluator_implements_grammar_witness :
  Calc.run_expression Calc.strtod_integers ("7 * (1 + 2)" +:+ " ")
    = Some (21%float, EmptyString) /\
  Calc.calc Calc.strtod_integers "2 + 3 * 4" = Some 14%float /\
  Calc.calc Calc.strtod_integers "(2 + 3) * 4" = Some 20%float /\
  Calc.calc Calc.strtod_integers "-5 + 2" = Some (-3)%float /\
  Calc.calc Calc.strtod_integers "1 / 0" = Some infinity.
Proof.
  split.
  - apply (proj1 (evaluator_implements_grammar Calc.strtod_integers)
             "7 * (1 + 2)" 21%float " "); [| reflexivity].
    assert (lit : forall w1 ds,
              TokenizerSpec.all_space w1 = true -> ds <> EmptyString ->
              Calc.all_digits ds = true -> String.length ds <= 15 ->
              Calc.gnumber Calc.strtod_integers
                (w1 +:+ Calc.sign_text Calc.NoSign +:+ EmptyString +:+ ds)
                (PrimFloat.mul (Calc.sign_value Calc.NoSign) (Calc.float_of_digits ds))).
    { intros. apply gnumber_digits; auto using strtod_integers_reads_integers. }
    pose proof (lit EmptyString "7" eq_refl ltac:(discriminate) eq_refl
                  ltac:(simpl; lia)) as n7.
    pose proof (lit EmptyString "1" eq_refl ltac:(discriminate) eq_refl
                  ltac:(simpl; lia)) as n1.
    pose proof (lit " " "2" eq_refl ltac:(discriminate) eq_refl
                  ltac:(simpl; lia)) as n2.
    exact (Calc.G_term _ _ _
             (Calc.G_mul _ _ _ " " _ _ (Calc.G_number _ _ _ n7) eq_refl
                (Calc.G_paren _ " " Calc.NoSign EmptyString _ _ EmptyString
                   eq_refl eq_refl eq_refl
                   (Calc.G_add _ _ _ " " _ _
                      (Calc.G_term _ _ _ (Calc.G_number _ _ _ n1)) eq_refl
                      (Calc.G_number _ _ _ n2))))).
  - exact (proj2 (evaluator_implements_grammar Calc.strtod_integers)
             strtod_integers_reads_integers).
Defined.

(** C7.  Where a number is expected and [strtod] converts nothing (and no
    parenthesis opens), [parse_number] returns 0 and leaves the cursor where
    the number was expected, after the white space and the sign, in front
    of the text it could not read; when that text does not open with an
    operator, this is also what the whole evaluation returns.  Dividing by a
    number that evaluates to a zero gives an infinity or a NaN, and this is
    the value that the loop of [parse_term] carries on: it is what
    [parse_term] returns when nothing continues the term, and what the
    whole evaluation returns for a term divided by such a number.  Neither
    case, and no other text, stops the evaluation: it returns a value on
    every input. *)
Theorem evaluator_degenerate_input (strtod : string -> float * nat) :
  (forall p fuel,
     let q := Calc.skip_spaces (Calc.after_sign (Calc.skip_spaces p)) in
     Ascii.eqb (Calc.peek q) "(" = false -> (strtod q).2 = 0 ->
     Calc.parse_number strtod (S fuel) p = Some (0%float, q)) /\
  (forall p,
     let q := Calc.skip_spaces (Calc.after_sign (Calc.skip_spaces p)) in
     Ascii.eqb (Calc.peek q) "(" = false -> (strtod q).2 = 0 ->
     mem_char (Calc.peek q) "+-*/" = false ->
     Calc.run_expression strtod p = Some (0%float, q)) /\
  (forall v x, Calc.is_zero x -> Calc.infinite_or_nan (PrimFloat.div v x)) /\
  (forall v p,
     Ascii.eqb (Calc.peek (Calc.skip_spaces p)) "/" = true ->
     let xr := Calc.number_at strtod (Calc.advance (Calc.skip_spaces p)) in
     Calc.term_loop_at strtod v p = Calc.term_loop_at strtod (PrimFloat.div v xr.1) xr.2) /\
  (forall v p,
     Ascii.eqb (Calc.peek (Calc.skip_spaces p)) "/" = true ->
     let xr := Calc.number_at strtod (Calc.advance (Calc.skip_spaces p)) in
     Calc.is_zero xr.1 -> Calc.stops_term xr.2 ->
     Calc.term_loop_at strtod v p = (PrimFloat.div v xr.1, Calc.skip_spaces xr.2) /\
     Calc.infinite_or_nan (Calc.term_loop_at strtod v p).1) /\
  (forall t v w n x,
     Calc.gterm strtod t v -> TokenizerSpec.all_space w = true ->
     Calc.gnumber strtod n x -> Calc.is_zero x ->
     Calc.run_expression strtod (t +:+ w +:+ "/" +:+ n)
     = Some (PrimFloat.div v x, EmptyString) /\
     Calc.infinite_or_nan (PrimFloat.div v x)) /\
  (forall p, exists v q, Calc.run_expression strtod p = Some (v, q)) /\
  (forall expr, exists v, Calc.calc strtod expr = Some v).
Proof.
  split; [| split; [| split; [| split; [| split; [| split; [| split]]]]]].
  - intros p fuel q Hparen Hn. simpl. fold q. rewrite Hparen.
    destruct (strtod q) as [val n]. simpl in Hn. now rewrite Hn.
  - intros p q Hparen Hn Hop.
    assert (Hq : Calc.skip_spaces q = q) by apply skip_spaces_idem.
    simpl in Hop.
    apply orb_false_elim in Hop as [Hadd Hop]. apply orb_false_elim in Hop as [Hsub Hop].
    apply orb_false_elim in Hop as [Hmul Hop]. apply orb_false_elim in Hop as [Hdiv _].
    rewrite run_expression_eq, expression_at_eq, term_at_eq.
    rewrite (number_at_strtod strtod p Hparen). fold q. rewrite Hn. cbn [Nat.eqb fst snd].
    rewrite term_loop_at_stop by (rewrite Hq; assumption).
    cbn [fst snd]. rewrite expr_loop_at_stop by (rewrite skip_spaces_idem, Hq; assumption).
    now rewrite skip_spaces_idem, Hq.
  - intros v x. apply div_by_zero.
  - intros v p Hdiv xr. now apply term_loop_at_div.
  - intros v p Hdiv xr Hzero [Hmul Hdiv'].
    assert (H : Calc.term_loop_at strtod v p
                = (PrimFloat.div v xr.1, Calc.skip_spaces xr.2)).
    { rewrite (term_loop_at_div strtod v p Hdiv). fold xr.
      now apply term_loop_at_stop. }
    split; [exact H |]. rewrite H. cbn [fst]. now apply div_by_zero.
  - intros t v w n x Ht Hw Hn Hzero. split; [| now apply div_by_zero].
    pose proof (run_expression_grammar strtod (t +:+ w +:+ "/" +:+ n)
                  (PrimFloat.div v x) EmptyString) as H.
    rewrite app_nil_r in H. apply H; [| reflexivity].
    apply Calc.G_term. now apply Calc.G_div.
  - intros p. rewrite run_expression_eq.
    destruct (Calc.expression_at strtod p) as [v q]. eauto.
  - intros expr. unfold Calc.calc. rewrite run_expression_eq. simpl. eauto.
Qed.

Lemma evaluator_degenerate_input_witness :
  Calc.parse_number Calc.strtod_integers 1 "-x" = Some (0%float, "x") /\
  Calc.run_expression Calc.strtod_integers "-x" = Some (0%float, "x") /\
  Calc.run_expression Calc.strtod_integers "1 / 0" = Some (infinity, EmptyString) /\
  Calc.infinite_or_nan infinity.
Proof.
  pose proof (evaluator_degenerate_input Calc.strtod_integers)
    as (Hnum & Hrun & _ & _ & _ & Hdiv & _).
  assert (lit : forall w1 ds,
            TokenizerSpec.all_space w1 = true -> ds <> EmptyString ->
            Calc.all_digits ds = true -> String.length ds <= 15 ->
            Calc.gnumber Calc.strtod_integers
              (w1 +:+ Calc.sign_text Calc.NoSign +:+ EmptyString +:+ ds)
              (PrimFloat.mul (Calc.sign_value Calc.NoSign) (Calc.float_of_digits ds))).
  { intros. apply gnumber_digits; auto using strtod_integers_reads_integers. }
  pose proof (lit EmptyString "1" eq_refl ltac:(discriminate) eq_refl
                ltac:(simpl; lia)) as n1.
  pose proof (lit " " "0" eq_refl ltac:(discriminate) eq_refl
                ltac:(simpl; lia)) as n0.
  assert (Hzero : Calc.is_zero
                    (PrimFloat.mul (Calc.sign_value Calc.NoSign) (Calc.float_of_digits "0")))
    by (exists false; reflexivity).
  destruct (Hdiv "1" _ " " " 0" _ (Calc.G_number _ _ _ n1) eq_refl n0 Hzero) as [Hr Hinf].
  split; [apply (Hnum "-x" 0); reflexivity |].
  split; [apply (Hrun "-x"); reflexivity |].
  split; [exact Hr | exact Hinf].
Defined.

(** ** The file follower *)

Section FollowerFacts.
Import Follower.

Lemma substr_from_nil (n : nat) : substr_from n EmptyString = EmptyString.
Proof. destruct n; reflexivity. Qed.

Lemma substr_from_add (a b : nat) (s : string) :
  substr_from (a + b) s = substr_from b (substr_from a s).
Proof.
  revert s. induction a as [|a IH]; intros s; [reflexivity |].
  destruct s as [|c s]; simpl; [now rewrite substr_from_nil | apply IH].
Qed.

Lemma substr_from_length_eq (n : nat) (s : string) :
  String.length (substr_from n s) = String.length s - n.
Proof.
  revert s. induction n as [|n IH]; intros s; simpl; [lia |].
  destruct s as [|c s]; simpl; [reflexivity | apply IH].
Qed.

Lemma substr_from_extends (a : nat) (c t : string) :
  a <= String.length c -> substr_from a (c +:+ t) = substr_from a c +:+ t.
Proof.
  revert c. induction a as [|a IH]; intros c Ha; [reflexivity |].
  destruct c as [|d c]; simpl in *; [lia |]. apply IH. lia.
Qed.

Lemma substr_from_end (n : nat) (s : string) :
  String.length s <= n -> substr_from n s = EmptyString.
Proof.
  intros H. pose proof (substr_from_length_eq n s) as L.
  destruct (substr_from n s); [reflexivity | simpl in L; lia].
Qed.

Lemma back_substr_from (n : nat) (s : string) :
  n < String.length s -> back (substr_from n s) = back s.
Proof.
  revert s. induction n as [|n IH]; intros s Hn; [reflexivity |].
  destruct s as [|c s]; simpl in Hn; [lia |].
  rewrite back_cons_nonempty by (destruct s; simpl in *; [lia | discriminate]).
  apply IH. lia.
Qed.

Lemma read_line_whole (s : string) :
  s <> EmptyString -> back s = Some "010"%char -> exists l, read_line s = (l, true).
Proof.
  induction s as [|c s IH]; [congruence |]. intros _ Hb. simpl.
  destruct (Ascii.eqb_spec c "010") as [->|Hc]; [eauto |].
  destruct s as [|d s]; [simpl in Hb; congruence |].
  rewrite back_cons_nonempty in Hb by discriminate.
  destruct (IH ltac:(discriminate) Hb) as [l Hl]. rewrite Hl. eauto.
Qed.

Lemma read_line_split (s l : string) :
  read_line s = (l, true) ->
  s = l +:+ String "010" (substr_from (String.length l + 1) s) /\ no_newline l = true.
Proof.
  revert l. induction s as [|c s IH]; intros l; simpl; [discriminate |].
  destruct (Ascii.eqb_spec c "010") as [->|Hc].
  - intros [= <-]. auto.
  - destruct (read_line s) as [l' t]. intros [= <- ->].
    destruct (IH l' eq_refl) as [Hs Hl]. simpl. split.
    + f_equal. exact Hs.
    + rewrite Hl. destruct (Ascii.eqb_spec c "010"); [congruence | reflexivity].
Qed.

Lemma output_of_app (ls : list string) (l : string) :
  output_of (ls ++ [l]) = output_of ls +:+ l +:+ nl.
Proof.
  induction ls as [|x ls IH].
  - reflexivity.
  - change (output_of ((x :: ls) ++ [l])) with (x +:+ nl +:+ output_of (ls ++ [l])).
    rewrite IH. change (output_of (x :: ls)) with (x +:+ nl +:+ output_of ls).
    now rewrite !app_assoc.
Qed.

Lemma lines_of_line (l rest : string) :
  no_newline l = true -> lines_of (l +:+ nl +:+ rest) = l :: lines_of rest.
Proof.
  induction l as [|c l IH]; intros H; [reflexivity |].
  simpl in H. apply andb_prop in H as [Hc Hl]. simpl.
  apply negb_true_iff in Hc. rewrite Hc.
  change (lines_of (l +:+ String "010" rest)) with (lines_of (l +:+ nl +:+ rest)).
  now rewrite (IH Hl).
Qed.

Lemma lines_of_output (ls : list string) :
  Forall (fun l => no_newline l = true) ls -> lines_of (output_of ls) = ls.
Proof.
  induction 1 as [|l ls Hl _ IH]; [reflexivity |].
  change (output_of (l :: ls)) with (l +:+ nl +:+ output_of ls).
  rewrite lines_of_line by exact Hl. now rewrite IH.
Qed.

Lemma start_offset_max (pos_off : Z) :
  start_offset pos_off = Z.max 0 (pos_off - 4096).
Proof.
  unfold start_offset.
  destruct (Z.ltb_spec pos_off 0); destruct (Z.ltb_spec 4096 0);
    try destruct (Z.ltb_spec 4096 pos_off); lia.
Qed.

Lemma attach_in_step (content0 : string) :
  in_step (Z.to_nat (Z.max 0 (Z.of_nat (String.length content0) - 4096))) content0
    (attach content0).
Proof.
  unfold in_step, attach, output. simpl. rewrite start_offset_max.
  split; [lia |]. split; [lia |]. split; [reflexivity | constructor].
Qed.

(** One call of [getline] on a content of whole lines. *)
Lemma step_in_step (start : nat) (c : string) (st : follower) :
  whole_lines c -> in_step start c st -> in_step start c (step c st).
Proof.
  intros Hc (Hlo & Hhi & Hout & Hnl). unfold step, getline.
  destruct (eofbit (stream st) || failbit (stream st)).
  { destruct (state st); (split; [| split; [| split]]); assumption. }
  destruct (Nat.eq_dec (gpos (stream st)) (String.length c)) as [Hend | Hmid].
  - rewrite (substr_from_end _ c) by lia. simpl.
    destruct (state st); (split; [| split; [| split]]); assumption.
  - assert (Hne : substr_from (gpos (stream st)) c <> EmptyString).
    { intros E. pose proof (substr_from_length_eq (gpos (stream st)) c) as L.
      rewrite E in L. simpl in L. lia. }
    assert (Hb : back (substr_from (gpos (stream st)) c) = Some "010"%char).
    { rewrite back_substr_from by lia. destruct Hc as [-> | Hc]; [simpl in *; lia | exact Hc]. }
    destruct (read_line_whole _ Hne Hb) as [l Hl]. rewrite Hl.
    destruct (read_line_split _ _ Hl) as [Hs Hno].
    rewrite <- substr_from_add in Hs.
    pose proof (substr_from_length_eq (gpos (stream st)) c) as L.
    rewrite Hs, length_app in L. simpl in L.
    assert (Hinv : in_step start c
              {| stream := {| gpos := gpos (stream st) + String.length l + 1;
                              eofbit := false; failbit := false |};
                 state := state st; emitted := emitted st ++ [l] |}).
    { unfold in_step, output. simpl. split; [lia |]. split; [lia |]. split.
      - rewrite output_of_app, Hout. rewrite Hs at 1. rewrite !app_assoc.
        now rewrite Nat.add_assoc.
      - apply Forall_app. split; [exact Hnl | now constructor]. }
    destruct (state st); exact Hinv.
Qed.

Lemma extends_in_step (start : nat) (c c' : string) (st : follower) :
  extends c c' -> in_step start c st -> in_step start c' st.
Proof.
  intros [t ->] (Hlo & Hhi & Hout & Hnl). split; [| split; [| split]]; try assumption.
  - rewrite length_app. lia.
  - rewrite !substr_from_extends by lia. now rewrite Hout, app_assoc.
Qed.

Lemma follow_in_step (snapshots : list string) : forall start c st,
  grows c snapshots -> Forall whole_lines snapshots -> in_step start c st ->
  in_step start (List.last snapshots c) (follow snapshots st).
Proof.
  induction snapshots as [|c' snapshots IH]; intros start c st Hg Hw Hinv; [exact Hinv |].
  destruct Hg as [Hext Hg]. inversion Hw as [|? ? Hc' Hw']; subst.
  change (List.last (c' :: snapshots) c) with
    (match snapshots with [] => c' | _ => List.last snapshots c end).
  replace (match snapshots with [] => c' | _ => List.last snapshots c end)
    with (List.last snapshots c').
  - simpl. apply IH; [exact Hg | exact Hw' |].
    apply step_in_step; [exact Hc' |]. now apply (extends_in_step start c).
  - destruct snapshots as [|x xs]; [reflexivity |].
    clear. revert x. induction xs as [|y ys IHy]; intros x; [reflexivity |].
    change (List.last (x :: y :: ys) c') with (List.last (y :: ys) c').
    change (List.last (x :: y :: ys) c) with (List.last (y :: ys) c). apply IHy.
Qed.

End FollowerFacts.

Section FollowerProgress.
Import Follower.

(** At the end of the file no call moves the cursor. *)
Lemma step_at_end (c : string) (st : follower) :
  gpos (stream st) = String.length c ->
  gpos (stream (step c st)) = String.length c.
Proof.
  intros Hend. unfold step, getline.
  destruct (eofbit (stream st) || failbit (stream st)).
  { destruct (state st); exact Hend. }
  rewrite (substr_from_end _ c) by lia. simpl.
  destruct (state st); exact Hend.
Qed.

Lemma follow_at_end (c : string) (n : nat) : forall st,
  gpos (stream st) = String.length c ->
  gpos (stream (follow (repeat c n) st)) = String.length c.
Proof.
  induction n as [|n IH]; intros st Hend; [exact Hend |].
  simpl. apply IH. now apply step_at_end.
Qed.

(** Before the end, a call either repairs the stream or reads a line. *)
Lemma step_progress (c : string) (st : follower) :
  whole_lines c -> gpos (stream st) < String.length c ->
  (String.length c - gpos (stream (step c st))) + wasted (step c st)
  < (String.length c - gpos (stream st)) + wasted st.
Proof.
  intros Hc Hmid. unfold step, getline, wasted, not_good.
  destruct (eofbit (stream st) || failbit (stream st)) eqn:Hbad.
  { destruct (state st); simpl; [rewrite orb_true_r |]; simpl; lia. }
  assert (Hne : substr_from (gpos (stream st)) c <> EmptyString).
  { intros E. pose proof (substr_from_length_eq (gpos (stream st)) c) as L.
    rewrite E in L. simpl in L. lia. }
  assert (Hb : back (substr_from (gpos (stream st)) c) = Some "010"%char).
  { rewrite back_substr_from by lia. destruct Hc as [-> | Hc]; [simpl in *; lia | exact Hc]. }
  destruct (read_line_whole _ Hne Hb) as [l Hl]. rewrite Hl.
  destruct (state st); simpl; lia.
Qed.

Lemma follow_reaches_end (start : nat) (c : string) (n : nat) : forall st,
  whole_lines c -> in_step start c st ->
  (String.length c - gpos (stream st)) + wasted st <= n ->
  gpos (stream (follow (repeat c n) st)) = String.length c.
Proof.
  induction n as [|n IH]; intros st Hc Hinv Hn.
  - destruct Hinv as (_ & Hhi & _). simpl. lia.
  - simpl. destruct (Nat.eq_dec (gpos (stream st)) (String.length c)) as [Hend | Hmid].
    + apply follow_at_end. now apply step_at_end.
    + assert (Hlt : gpos (stream st) < String.length c).
      { destruct Hinv as (_ & Hhi & _). lia. }
      pose proof (step_progress c st Hc Hlt).
      apply IH; [exact Hc | now apply step_in_step | lia].
Qed.

Lemma wasted_le_2 (st : follower) : wasted st <= 2.
Proof. unfold wasted. destruct (not_good (stream st)), (state st); lia. Qed.

Lemma follow_app (xs ys : list string) (st : follower) :
  follow (xs ++ ys) st = follow ys (follow xs st).
Proof. revert st. induction xs as [|x xs IH]; intros st; [reflexivity | apply IH]. Qed.

Lemma grows_repeat (c : string) (n : nat) : grows c (repeat c n).
Proof.
  induction n as [|n IH]; simpl; [exact I |].
  split; [exists EmptyString; now rewrite app_nil_r | exact IH].
Qed.

Lemma last_repeat (c d : string) (n : nat) : List.last (repeat c n) c = c.
Proof.
  induction n as [|n IH]; [reflexivity |].
  destruct n; [reflexivity | exact IH].
Qed.

End FollowerProgress.

(** C8.  [tail -f <file>] does not follow <file>.  [main] hands the whole
    token list to [cmd_tailf] when the second token is [-f], and [cmd_tailf]
    opens the file named by the second token.  So for every file name typed
    after [-f] the follower is selected and opens the file called [-f]: with
    no such file it reports that it cannot open the file and writes none of
    the lines of <file>, however that file is and grows; with such a file
    it follows that one.  The help text announces [tail -f <file>]. *)
Theorem tail_f_does_not_follow_the_named_file
    (fname : string) (more : list string) (open_file : string -> option string)
    (snapshots : list string) :
  split_args "tail -f log.txt" = ["tail"; "-f"; "log.txt"] /\
  select ("tail" :: "-f" :: fname :: more) = Some TailFollow /\
  (open_file "-f" = None ->
   Follower.cmd_tailf ("tail" :: "-f" :: fname :: more) open_file snapshots
   = Follower.Refused (eprint_colored RED ("tail -f: cannot open file" +:+ nl))) /\
  (forall content, open_file "-f" = Some content ->
   Follower.cmd_tailf ("tail" :: "-f" :: fname :: more) open_file snapshots
   = Follower.Following (Follower.follow snapshots (Follower.attach content))) /\
  Follower.cmd_tailf ["tail"; "-f"; "log.txt"]
    (fun name => if String.eqb name "log.txt" then Some ("A" +:+ nl +:+ "B" +:+ nl) else None)
    [ "A" +:+ nl +:+ "B" +:+ nl; "A" +:+ nl +:+ "B" +:+ nl +:+ "C" +:+ nl ]
  = Follower.Refused (eprint_colored RED ("tail -f: cannot open file" +:+ nl)).
Proof.
  split; [reflexivity | split; [reflexivity | split; [| split; [| reflexivity]]]].
  - intros H. unfold Follower.cmd_tailf. now rewrite H.
  - intros content H. unfold Follower.cmd_tailf. now rewrite H.
Qed.

(** A line that reaches the file in two appends is written as two lines:
    the file is only appended to, first [ab] without a newline and then [c]
    with one, and a poll falls between the two appends.  The follower
    writes [ab] as a line of its own and later [c] as another; the line
    [abc] of the file is never written. *)
Lemma follower_splits_a_line_appended_in_two :
  Follower.grows ("x" +:+ nl)
    ["x" +:+ nl; "x" +:+ nl; "x" +:+ nl +:+ "ab"; "x" +:+ nl +:+ "ab";
     "x" +:+ nl +:+ "abc" +:+ nl; "x" +:+ nl +:+ "abc" +:+ nl] /\
  Follower.cmd_tailf ["tail"; "-f"]
    (fun name => if String.eqb name "-f" then Some ("x" +:+ nl) else None)
    ["x" +:+ nl; "x" +:+ nl; "x" +:+ nl +:+ "ab"; "x" +:+ nl +:+ "ab";
     "x" +:+ nl +:+ "abc" +:+ nl; "x" +:+ nl +:+ "abc" +:+ nl]
  = Follower.Following
      {| Follower.stream := {| Follower.gpos := 6; Follower.eofbit := false;
                               Follower.failbit := false |};
         Follower.state := Follower.Follow;
         Follower.emitted := ["x"; "ab"; "c"] |} /\
  Follower.lines_of ("x" +:+ nl +:+ "abc" +:+ nl) = ["x"; "abc"] /\
  ["x"; "ab"; "c"] <> ["x"; "abc"].
Proof.
  repeat split; try reflexivity; try discriminate.
  - exists EmptyString. reflexivity.
  - exists EmptyString. reflexivity.
  - exists "ab". reflexivity.
  - exists EmptyString. reflexivity.
  - exists (String "c" nl). reflexivity.
  - exists EmptyString. reflexivity.
Qed.

(** X26.  What [cmd_tailf] does with the file it opens, the one named by
    the second element of its argument list (under [main] that element is
    always [-f]).  Let that file have the content [content0] at that moment
    and be only appended to, whole lines at a time: its content ends with a
    newline (or is empty) then and at every later read.  The follower
    starts at offset [max(0, end - 4096)].  At
    any moment of the run the cursor lies between that offset and the end of
    the file, the file from that offset on is exactly what was written so
    far followed by what is still unread, and the lines written are the
    lines of that text, in order.  Once the file stops growing, after at
    most as many reads as bytes are unread, and two more, the lines written
    are exactly the lines of the file from the start offset to its end. *)
Theorem follower_emits_whole_lines
    (cmd fname : string) (more : list string) (open_file : string -> option string)
    (content0 : string) (snapshots : list string) :
  open_file fname = Some content0 ->
  Follower.grows content0 snapshots ->
  Forall Follower.whole_lines (content0 :: snapshots) ->
  let c := List.last snapshots content0 in
  let start := Z.to_nat (Z.max 0 (Z.of_nat (String.length content0) - 4096)) in
  Follower.gpos (Follower.stream (Follower.attach content0)) = start /\
  exists st,
    Follower.cmd_tailf (cmd :: fname :: more) open_file snapshots = Follower.Following st /\
    start <= Follower.gpos (Follower.stream st) <= String.length c /\
    substr_from start c
      = Follower.output st +:+ substr_from (Follower.gpos (Follower.stream st)) c /\
    Follower.emitted st = Follower.lines_of (Follower.output st) /\
    forall n, String.length c - Follower.gpos (Follower.stream st) + 2 <= n ->
      exists st',
        Follower.cmd_tailf (cmd :: fname :: more) open_file (snapshots ++ repeat c n)
          = Follower.Following st' /\
        Follower.emitted st' = Follower.lines_of (substr_from start c).
Proof.
  intros Hopen Hg Hw c start.
  assert (Hws : Forall Follower.whole_lines snapshots) by (now inversion Hw).
  assert (Hc : Follower.whole_lines c).
  { subst c. clear -Hw. inversion Hw as [|? ? H0 Hs]; subst. clear Hw.
    revert content0 H0. induction Hs as [|x xs Hx _ IH]; intros c0 H0; [exact H0 |].
    change (Follower.whole_lines (List.last (x :: xs) c0)) with
      (Follower.whole_lines (match xs with [] => x | _ => List.last xs c0 end)).
    destruct xs as [|y ys]; [exact Hx |]. apply (IH c0 H0). }
  pose proof (follow_in_step snapshots start content0 (Follower.attach content0)
                Hg Hws (attach_in_step content0)) as Hinv.
  fold c in Hinv.
  split; [simpl; now rewrite start_offset_max |]. clearbody c start.
  exists (Follower.follow snapshots (Follower.attach content0)).
  unfold Follower.cmd_tailf at 1. rewrite Hopen.
  destruct Hinv as (Hlo & Hhi & Hout & Hnl).
  split; [reflexivity |]. split; [exact (conj Hlo Hhi) |]. split; [exact Hout |].
  split; [symmetry; now apply lines_of_output |].
  intros n Hn.
  exists (Follower.follow (snapshots ++ repeat c n) (Follower.attach content0)).
  unfold Follower.cmd_tailf. rewrite Hopen. split; [reflexivity |].
  rewrite follow_app.
  set (st := Follower.follow snapshots (Follower.attach content0)) in *.
  assert (Hinv : Follower.in_step start c st) by (repeat split; assumption).
  pose proof (wasted_le_2 st) as Hwaste.
  assert (Hfuel : String.length c - Follower.gpos (Follower.stream st)
                  + Follower.wasted st <= n).
  { clearbody st. lia. }
  pose proof (follow_reaches_end start c n st Hc Hinv Hfuel) as Hend.
  assert (Hrep : Forall Follower.whole_lines (repeat c n)).
  { clear -Hc. induction n; simpl; constructor; auto. }
  pose proof (follow_in_step (repeat c n) start c st (grows_repeat c n) Hrep Hinv)
    as (_ & _ & Hout' & Hnl').
  rewrite (last_repeat c c n) in Hout'. rewrite Hend in Hout'.
  rewrite (substr_from_end (String.length c) c) in Hout' by lia.
  rewrite app_nil_r in Hout'.
  rewrite Hout'. symmetry. now apply lines_of_output.
Qed.

Lemma follower_emits_whole_lines_witness :
  exists st,
    Follower.cmd_tailf ["tail"; "-f"]
      (fun name => if String.eqb name "-f" then Some ("A" +:+ nl +:+ "B" +:+ nl) else None)
      ["A" +:+ nl +:+ "B" +:+ nl; "A" +:+ nl +:+ "B" +:+ nl;
       "A" +:+ nl +:+ "B" +:+ nl; "A" +:+ nl +:+ "B" +:+ nl;
       "A" +:+ nl +:+ "B" +:+ nl +:+ "C" +:+ nl;
       "A" +:+ nl +:+ "B" +:+ nl +:+ "C" +:+ nl]
    = Follower.Following st /\
    Follower.emitted st = ["A"; "B"; "C"].
Proof.
  destruct (follower_emits_whole_lines "tail" "-f" []
              (fun name => if String.eqb name "-f" then Some ("A" +:+ nl +:+ "B" +:+ nl) else None)
              ("A" +:+ nl +:+ "B" +:+ nl)
              ["A" +:+ nl +:+ "B" +:+ nl; "A" +:+ nl +:+ "B" +:+ nl;
               "A" +:+ nl +:+ "B" +:+ nl; "A" +:+ nl +:+ "B" +:+ nl;
               "A" +:+ nl +:+ "B" +:+ nl +:+ "C" +:+ nl;
               "A" +:+ nl +:+ "B" +:+ nl +:+ "C" +:+ nl]
              eq_refl)
    as (_ & st & Hrun & _ & _ & Hlines & _).
  - repeat split; try (exists EmptyString; reflexivity).
    exists (String "C" nl). reflexivity.
  - repeat constructor; right; reflexivity.
  - exists st. split; [exact Hrun |].
    injection Hrun as <-. reflexivity.
Defined.

(* ===================================================================== *)
(** * Further properties of the code *)
(* ===================================================================== *)

(** ** Permission bits *)

Section PermsFacts.
Import Perms.
Local Open Scope Z_scope.

Lemma char_bits (c : ascii) :
  let x := char_value c - char_value "0" in
  (if Z.land x 4 =? 0 then 0 else 4) + (if Z.land x 2 =? 0 then 0 else 2)
  + (if Z.land x 1 =? 0 then 0 else 1) = code c mod 8.
Proof. destruct c as [[] [] [] [] [] [] [] []]; reflexivity. Qed.

Lemma add_flags_value (owner group other : Z) :
  add_flag other 1 others_exec
 (add_flag other 2 others_write
 (add_flag other 4 others_read
 (add_flag group 1 group_exec
 (add_flag group 2 group_write
 (add_flag group 4 group_read
 (add_flag owner 1 owner_exec
 (add_flag owner 2 owner_write
 (add_flag owner 4 owner_read none))))))))
  = 64 * ((if Z.land owner 4 =? 0 then 0 else 4) + (if Z.land owner 2 =? 0 then 0 else 2)
          + (if Z.land owner 1 =? 0 then 0 else 1))
  + 8 * ((if Z.land group 4 =? 0 then 0 else 4) + (if Z.land group 2 =? 0 then 0 else 2)
         + (if Z.land group 1 =? 0 then 0 else 1))
  + ((if Z.land other 4 =? 0 then 0 else 4) + (if Z.land other 2 =? 0 then 0 else 2)
     + (if Z.land other 1 =? 0 then 0 else 1)).
Proof.
  unfold add_flag.
  destruct (Z.land owner 4 =? 0), (Z.land owner 2 =? 0), (Z.land owner 1 =? 0),
    (Z.land group 4 =? 0), (Z.land group 2 =? 0), (Z.land group 1 =? 0),
    (Z.land other 4 =? 0), (Z.land other 2 =? 0), (Z.land other 1 =? 0); reflexivity.
Qed.

Lemma chmod_perms_chars (s : string) :
  chmod_perms s =
  let d := chmod_digits s in
  let n := String.length d in
  64 * (code (char_at (n - 3) d) mod 8) + 8 * (code (char_at (n - 2) d) mod 8)
  + code (char_at (n - 1) d) mod 8.
Proof.
  unfold chmod_perms. cbv zeta. rewrite add_flags_value.
  now rewrite !char_bits.
Qed.

End PermsFacts.

Section PermsContract.
Import Perms.
Local Open Scope Z_scope.

Lemma char_at_app (pre x : string) (k : nat) :
  char_at (String.length pre + k) (pre +:+ x) = char_at k x.
Proof.
  unfold char_at. induction pre as [|c pre IH]; [reflexivity |]. simpl. exact IH.
Qed.

(** Whatever precedes them, the last three characters are what is read. *)
Lemma chmod_digits_last3 (pre : string) (a b c : ascii) :
  exists pre', chmod_digits (pre +:+ String a (String b (String c EmptyString)))
               = pre' +:+ String a (String b (String c EmptyString)).
Proof.
  unfold chmod_digits. destruct pre as [|p pre].
  - simpl. unfold is_char. destruct (Ascii.eqb_spec a "0") as [->|Ha].
    + exists EmptyString. reflexivity.
    + exists EmptyString. reflexivity.
  - change (front (String p pre +:+ String a (String b (String c EmptyString))))
      with (Some p).
    unfold is_char. destruct (Ascii.eqb p "0").
    + exists pre. simpl substr_from.
      replace (String.length (pre +:+ String a (String b (String c EmptyString))) <? 3)%nat
        with false; [reflexivity |].
      symmetry. apply Nat.ltb_ge. rewrite length_app. simpl. lia.
    + exists (String p pre).
      replace (String.length (String p pre +:+ String a (String b (String c EmptyString))) <? 3)%nat
        with false; [reflexivity |].
      symmetry. apply Nat.ltb_ge. rewrite length_app. simpl. lia.
Qed.

Lemma chmod_perms_last3 (pre : string) (a b c : ascii) :
  chmod_perms (pre +:+ String a (String b (String c EmptyString)))
  = 64 * (code a mod 8) + 8 * (code b mod 8) + code c mod 8.
Proof.
  rewrite chmod_perms_chars. cbv zeta.
  destruct (chmod_digits_last3 pre a b c) as [pre' ->].
  rewrite length_app. simpl String.length.
  replace (String.length pre' + 3 - 3)%nat with (String.length pre' + 0)%nat by lia.
  replace (String.length pre' + 3 - 2)%nat with (String.length pre' + 1)%nat by lia.
  replace (String.length pre' + 3 - 1)%nat with (String.length pre' + 2)%nat by lia.
  now rewrite !char_at_app.
Qed.

(** X1.  [cmd_chmod] reads the mode as its last three characters and keeps
    of each the low three bits of its character code: the mask it passes on
    is [64 * (a mod 8) + 8 * (b mod 8) + (c mod 8)] for a mode ending in
    [a b c], whatever the characters are and whatever precedes them.  A mode
    of two, one or no characters counts as padded with zeros on the left.
    The mask never holds a bit beyond [0777]. *)
Theorem chmod_reads_last_three_characters :
  (forall pre a b c,
     chmod_perms (pre +:+ String a (String b (String c EmptyString)))
     = 64 * (code a mod 8) + 8 * (code b mod 8) + code c mod 8) /\
  (forall b c, chmod_perms (String b (String c EmptyString))
               = 8 * (code b mod 8) + code c mod 8) /\
  (forall c, chmod_perms (String c EmptyString) = code c mod 8) /\
  chmod_perms EmptyString = 0 /\
  (forall mode, 0 <= chmod_perms mode <= 511) /\
  (forall cmd mode file more,
     cmd_chmod (cmd :: mode :: file :: more) = ChmodSet file (chmod_perms mode)).
Proof.
  split; [exact chmod_perms_last3 |]. split; [| split; [| split; [| split]]].
  - intros b c. rewrite chmod_perms_chars. unfold chmod_digits, is_char. simpl front.
    destruct (Ascii.eqb b "0") eqn:Hb; [| reflexivity].
    apply Ascii.eqb_eq in Hb. subst b. reflexivity.
  - intros c. rewrite chmod_perms_chars. unfold chmod_digits, is_char. simpl front.
    destruct (Ascii.eqb c "0") eqn:Hc; [| reflexivity].
    apply Ascii.eqb_eq in Hc. subst c. reflexivity.
  - reflexivity.
  - intros mode. rewrite chmod_perms_chars. cbv zeta.
    pose proof (Z.mod_pos_bound (code (char_at (String.length (chmod_digits mode) - 3)
                                         (chmod_digits mode))) 8 ltac:(lia)).
    pose proof (Z.mod_pos_bound (code (char_at (String.length (chmod_digits mode) - 2)
                                         (chmod_digits mode))) 8 ltac:(lia)).
    pose proof (Z.mod_pos_bound (code (char_at (String.length (chmod_digits mode) - 1)
                                         (chmod_digits mode))) 8 ltac:(lia)).
    lia.
  - reflexivity.
Qed.

(** X2.  For a mode of three octal digits, what [cmd_chmod] computes is what
    [perms_to_string] renders as the usual nine characters: [r], [w], [x] or
    a dash for the owner, the group and the others, in this order. *)
Theorem chmod_then_perms_to_string (o g t : Z) :
  0 <= o < 8 -> 0 <= g < 8 -> 0 <= t < 8 ->
  chmod_perms (octal3 o g t) = 64 * o + 8 * g + t /\
  perms_to_string (chmod_perms (octal3 o g t)) = rwx o +:+ rwx g +:+ rwx t.
Proof.
  intros Ho Hg Ht.
  assert (Eo : o = 0 \/ o = 1 \/ o = 2 \/ o = 3 \/ o = 4 \/ o = 5 \/ o = 6 \/ o = 7) by lia.
  assert (Eg : g = 0 \/ g = 1 \/ g = 2 \/ g = 3 \/ g = 4 \/ g = 5 \/ g = 6 \/ g = 7) by lia.
  assert (Et : t = 0 \/ t = 1 \/ t = 2 \/ t = 3 \/ t = 4 \/ t = 5 \/ t = 6 \/ t = 7) by lia.
  clear Ho Hg Ht.
  repeat (destruct Eo as [-> | Eo]); try subst o;
    repeat (destruct Eg as [-> | Eg]); try subst g;
      repeat (destruct Et as [-> | Et]); try subst t; split; reflexivity.
Qed.

Lemma chmod_then_perms_to_string_witness :
  chmod_perms "755" = 493 /\ perms_to_string (chmod_perms "755") = "rwxr-xr-x".
Proof. apply (chmod_then_perms_to_string 7 5 5); lia. Defined.

End PermsContract.

(** ** More on the tokenizer *)

Section TokenizerMore.
Import TokenizerSpec.

Lemma words_from_all_space_r (w cur : string) :
  all_space w = true -> words_from cur w = flush cur.
Proof.
  revert cur. induction w as [|c w IH]; intros cur H; [reflexivity |].
  simpl in *. apply andb_prop in H as [Hc Hw]. rewrite Hc, (IH EmptyString Hw).
  apply List.app_nil_r.
Qed.

Lemma words_from_app_space_r (s w cur : string) :
  all_space w = true -> words_from cur (s +:+ w) = words_from cur s.
Proof.
  intros Hw. revert cur. induction s as [|c s IH]; intros cur; simpl.
  - now apply words_from_all_space_r.
  - destruct (isspace c); now rewrite IH.
Qed.

Lemma words_app_space_l (w s : string) :
  all_space w = true -> words (w +:+ s) = words s.
Proof.
  unfold words. induction w as [|c w IH]; intros H; [reflexivity |].
  simpl in *. apply andb_prop in H as [Hc Hw]. rewrite Hc. simpl. auto.
Qed.

Lemma words_from_nil (s cur : string) :
  words_from cur s = [] -> cur = EmptyString /\ all_space s = true.
Proof.
  revert cur. induction s as [|c s IH]; intros cur; simpl.
  - destruct cur; [auto | discriminate].
  - destruct (isspace c).
    + intros H. apply app_eq_nil in H as [Hc Hs].
      destruct (IH _ Hs) as [_ Hall]. split; [| exact Hall].
      destruct cur; [reflexivity | discriminate].
    + intros H. destruct (IH _ H) as [Hcur _]. destruct cur; discriminate.
Qed.

Lemma group_words_open_nonempty (ws : list string) : forall q token,
  group_words (Some (q, token)) ws <> [].
Proof.
  induction ws as [|w ws IH]; intros q token; simpl; [discriminate |].
  destruct (is_char q (back w)); [discriminate | apply IH].
Qed.

Lemma group_words_nil (ws : list string) : group_words None ws = [] -> ws = [].
Proof.
  destruct ws as [|w ws]; [reflexivity |]. simpl.
  destruct (opening w); [| discriminate].
  intros H. now apply group_words_open_nonempty in H.
Qed.

(** X3.  A line has no token exactly when it is made of white space only
    (the empty line included): nothing else is a no-op line. *)
Theorem split_args_nil_iff_all_space (line : string) :
  split_args line = [] <-> all_space line = true.
Proof.
  split; [| apply split_args_all_space].
  rewrite split_args_tokenize. unfold tokenize. intros H.
  apply group_words_nil in H. now apply words_from_nil in H.
Qed.

(** X4.  White space before the first token and after the last one never
    changes the tokens of a line. *)
Theorem split_args_ignores_outer_space (w line w' : string) :
  all_space w = true -> all_space w' = true ->
  split_args (w +:+ line +:+ w') = split_args line.
Proof.
  intros Hw Hw'. rewrite !split_args_tokenize. unfold tokenize.
  rewrite (words_app_space_l w _ Hw). unfold words.
  now rewrite (words_from_app_space_r line w' _ Hw').
Qed.

Lemma split_args_ignores_outer_space_witness :
  split_args (String "009" " " +:+ "ls  -l" +:+ "  ") = ["ls"; "-l"].
Proof.
  rewrite (split_args_ignores_outer_space (String "009" " ") "ls  -l" "  " eq_refl eq_refl).
  reflexivity.
Defined.

End TokenizerMore.

Section QuotedArgument.
Import TokenizerSpec Quoting.

Lemma words_from_app_space (a b cur : string) (c : ascii) :
  isspace c = true ->
  words_from cur (a +:+ String c b) = words_from cur a ++ words b.
Proof.
  intros Hc. revert cur. induction a as [|d a IH]; intros cur; simpl.
  - now rewrite Hc.
  - destruct (isspace d); [| apply IH]. now rewrite IH, List.app_assoc.
Qed.

Lemma words_word (t : string) :
  t <> EmptyString -> no_space t = true -> words t = [t].
Proof.
  intros Hne Hns. unfold words.
  pose proof (words_from_no_space t EmptyString EmptyString Hns) as H.
  rewrite app_nil_r in H. rewrite H. simpl.
  destruct t; [congruence | reflexivity].
Qed.

Lemma no_space_app (a b : string) :
  no_space a = true -> no_space b = true -> no_space (a +:+ b) = true.
Proof.
  intros Ha Hb. induction a as [|c a IH]; [exact Hb |]. simpl in *.
  apply andb_prop in Ha as [Hc Ha]. now rewrite Hc, IH.
Qed.

Lemma is_quote_no_space (q : ascii) : is_quote q = true -> isspace q = false.
Proof.
  unfold is_quote. intros H. apply orb_prop in H as [H | H];
    apply Ascii.eqb_eq in H; subst q; reflexivity.
Qed.

Lemma back_mem_char (w : string) (c : ascii) :
  back w = Some c -> mem_char c w = true.
Proof.
  induction w as [|d w IH]; [discriminate |].
  destruct w as [|e w].
  - simpl. intros [= ->]. now rewrite Ascii.eqb_refl.
  - intros H. rewrite back_cons_nonempty in H by discriminate.
    simpl. simpl in IH. rewrite (IH H). apply orb_true_r.
Qed.

Lemma quotable_back (q : ascii) (w : string) :
  quotable q w -> is_char q (back w) = false.
Proof.
  intros (_ & _ & Hm). unfold is_char. destruct (back w) as [c|] eqn:Hb; [| reflexivity].
  destruct (Ascii.eqb_spec c q) as [->|]; [| reflexivity].
  apply back_mem_char in Hb. congruence.
Qed.

Lemma group_words_open_step (q : ascii) (token w : string) (ws : list string) :
  group_words (Some (q, token)) ([w] ++ ws)
  = if is_char q (back w)
    then strip_matching (token +:+ " " +:+ w) :: group_words None ws
    else group_words (Some (q, token +:+ " " +:+ w)) ws.
Proof. reflexivity. Qed.

Lemma group_words_none_step (w : string) (ws : list string) :
  group_words None ([w] ++ ws)
  = match opening w with
    | Some q => group_words (Some (q, w)) ws
    | None => strip_matching w :: group_words None ws
    end.
Proof. reflexivity. Qed.

Lemma concat_cons2 (w w' : string) (ws : list string) :
  String.concat " " (w :: w' :: ws) = w +:+ String " " (String.concat " " (w' :: ws)).
Proof. reflexivity. Qed.

Lemma words_app_space (a b : string) :
  words (a +:+ String " " b) = words a ++ words b.
Proof. unfold words at 1. now apply words_from_app_space. Qed.

(** The words that follow the first one inside the quotes, the last one
    carrying the closing quote. *)
Lemma group_words_closing (q : ascii) (ws : list string) : forall token rest,
  is_quote q = true -> ws <> [] -> Forall (quotable q) ws ->
  group_words (Some (q, token))
    (words (String.concat " " ws +:+ String q EmptyString) ++ rest)
  = strip_matching (token +:+ " " +:+ String.concat " " ws +:+ String q EmptyString)
      :: group_words None rest.
Proof.
  induction ws as [|w ws IH]; intros token rest Hq Hne Hall; [congruence |].
  inversion Hall as [|? ? Hw Hws]; subst. pose proof Hw as (Hwne & Hwns & Hwm).
  destruct ws as [|w' ws].
  - change (String.concat " " [w]) with w.
    rewrite words_word.
    + rewrite group_words_open_step, back_app_cons.
      unfold is_char, back. now rewrite Ascii.eqb_refl.
    + destruct w; discriminate.
    + apply no_space_app; [exact Hwns |]. simpl.
      now rewrite (is_quote_no_space q Hq).
  - rewrite concat_cons2, app_assoc.
    change (String " " (String.concat " " (w' :: ws)) +:+ String q EmptyString)
      with (String " " (String.concat " " (w' :: ws) +:+ String q EmptyString)).
    rewrite words_app_space, (words_word w Hwne Hwns), <- List.app_assoc.
    rewrite group_words_open_step, (quotable_back q w Hw).
    rewrite IH by (try assumption; discriminate).
    f_equal. f_equal. now rewrite !app_assoc.
Qed.

Lemma group_words_quoted (q : ascii) (ws rest : list string) :
  is_quote q = true -> ws <> [] -> Forall (quotable q) ws ->
  group_words None (words (quoted q ws) ++ rest)
  = String.concat " " ws :: group_words None rest.
Proof.
  intros Hq Hne Hall. destruct ws as [|w ws]; [congruence |].
  inversion Hall as [|? ? Hw Hws]; subst. pose proof Hw as (Hwne & Hwns & Hwm).
  unfold quoted. destruct ws as [|w' ws].
  - change (String.concat " " [w]) with w. rewrite words_word.
    + rewrite group_words_none_step. unfold opening. simpl front. cbv iota. rewrite Hq.
      rewrite back_cons_nonempty by (destruct w; discriminate).
      rewrite back_app_cons. unfold is_char at 1, back. rewrite Ascii.eqb_refl.
      simpl negb. simpl andb. cbv iota.
      rewrite <- strip_quotes_matching, strip_quotes_bounded by exact Hq.
      reflexivity.
    + discriminate.
    + simpl. rewrite (is_quote_no_space q Hq). simpl.
      apply no_space_app; [exact Hwns |]. simpl. now rewrite (is_quote_no_space q Hq).
  - rewrite concat_cons2, app_assoc.
    change (String q (w +:+ String " " (String.concat " " (w' :: ws)) +:+ String q EmptyString))
      with (String q w +:+ String " " (String.concat " " (w' :: ws) +:+ String q EmptyString)).
    rewrite words_app_space, words_word, <- List.app_assoc; [| discriminate |].
    2:{ simpl. now rewrite (is_quote_no_space q Hq), Hwns. }
    rewrite group_words_none_step.
    unfold opening. simpl front. cbv iota. rewrite Hq.
    rewrite back_cons_nonempty by exact Hwne.
    rewrite (quotable_back q w Hw). simpl negb. cbv iota. simpl andb. cbv iota.
    rewrite group_words_closing by (try assumption; discriminate).
    f_equal.
    replace (String q w +:+ " " +:+ String.concat " " (w' :: ws) +:+ String q EmptyString)
      with (String q ((w +:+ String " " (String.concat " " (w' :: ws))) +:+ String q EmptyString)).
    + rewrite <- strip_quotes_matching. now apply strip_quotes_bounded.
    + rewrite app_assoc. reflexivity.
Qed.

End QuotedArgument.

Section QuotedArgumentContract.
Import TokenizerSpec Quoting.

Lemma words_concat_flat (xs : list string) :
  words (String.concat " " xs) = List.concat (List.map words xs).
Proof.
  induction xs as [|x xs IH]; [reflexivity |].
  destruct xs as [|y xs].
  - simpl. now rewrite List.app_nil_r.
  - rewrite concat_cons2, words_app_space, IH. reflexivity.
Qed.

Lemma words_plain_tokens (toks : list string) :
  Forall plain_token toks -> List.concat (List.map words toks) = toks.
Proof.
  induction 1 as [|t toks (Hne & Hns & _) _ IH]; [reflexivity |].
  simpl. now rewrite (words_word t Hne Hns), IH.
Qed.

Lemma group_words_plain_app (toks rest : list string) :
  Forall plain_token toks ->
  group_words None (toks ++ rest) = toks ++ group_words None rest.
Proof.
  induction 1 as [|t toks (Hne & _ & Hq) _ IH]; [reflexivity |].
  simpl. unfold opening, strip_matching. unfold begins_with_quote in Hq.
  destruct t as [|c t]; [congruence |]. simpl in *. rewrite Hq. simpl.
  now rewrite IH.
Qed.

(** X5.  Quotes carry an argument with spaces.  On a line of plain tokens
    separated by single spaces, one of them replaced by the words
    [w1 ... wn] between two equal quotes (the words free of white space and
    of that quote, separated by single spaces), the tokenizer returns the
    plain tokens unchanged and, in place of the quoted text, the single
    token [w1 ... wn] without its quotes. *)
Theorem split_args_quoted_argument
    (q : ascii) (before ws after : list string) :
  is_quote q = true ->
  Forall plain_token before -> Forall plain_token after ->
  ws <> [] -> Forall (quotable q) ws ->
  split_args (String.concat " " (before ++ [quoted q ws] ++ after))
  = before ++ [String.concat " " ws] ++ after.
Proof.
  intros Hq Hb Ha Hne Hws. rewrite split_args_tokenize. unfold tokenize.
  rewrite words_concat_flat, !List.map_app, !List.concat_app.
  rewrite (words_plain_tokens before Hb), (words_plain_tokens after Ha).
  simpl List.map. simpl List.concat. rewrite List.app_nil_r.
  rewrite group_words_plain_app by exact Hb.
  rewrite group_words_quoted by assumption.
  now rewrite (group_words_plain after Ha).
Qed.

Lemma split_args_quoted_argument_witness :
  split_args ("cp " +:+ dq +:+ "my old file" +:+ dq +:+ " backup")
  = ["cp"; "my old file"; "backup"].
Proof.
  apply (split_args_quoted_argument dquote ["cp"] ["my"; "old"; "file"] ["backup"]).
  - reflexivity.
  - repeat constructor; discriminate.
  - repeat constructor; discriminate.
  - discriminate.
  - repeat constructor; discriminate.
Defined.

End QuotedArgumentContract.

(** ** More on the loop of [main] and on the alias table *)

Section LoopMore.
Import TokenizerSpec.
Context (world : Type)
        (os_builtin : string -> list string -> shell -> world -> world * console)
        (os_popen : string -> world -> world * console).

(** Plain tokens joined by single spaces come back as they are. *)
Lemma split_args_plain (toks : list string) :
  Forall plain_token toks -> split_args (String.concat " " toks) = toks.
Proof.
  intros H. rewrite split_args_tokenize. unfold tokenize.
  rewrite words_concat by exact H. now apply group_words_plain.
Qed.

Lemma tokens_nonempty_line (line : string) (cmd : string) (args : list string) :
  split_args line = cmd :: args -> line <> EmptyString.
Proof. intros H ->. discriminate. Qed.


End LoopMore.



(** X7.  [exit] and [quit] end the loop.  When the first token of a line,
    after alias substitution, is [exit] or [quit], whatever follows it on
    the line, the line is still logged, nothing is printed, and no later
    line of the input is read. *)
Theorem exit_ends_the_loop
    (world : Type) (os_builtin : string -> list string -> shell -> world -> world * console)
    (os_popen : string -> world -> world * console) (sh : shell) (w : world)
    (line cmd : string) (args later : list string) :
  split_args (substitute_aliases (alias_map sh) line) = cmd :: args ->
  cmd = "exit" \/ cmd = "quit" ->
  main_loop world os_builtin os_popen sh w (line :: later)
  = ({| history_buf := history_buf sh ++ [substitute_aliases (alias_map sh) line];
        alias_map := alias_map sh |}, w, []).
Proof.
  intros Hs Hcmd.
  assert (Hne : line <> EmptyString).
  { intros ->. unfold substitute_aliases in Hs. discriminate. }
  simpl. rewrite main_step_nonempty by exact Hne. unfold dispatch. rewrite Hs.
  destruct Hcmd as [-> | ->]; reflexivity.
Qed.

Lemma exit_ends_the_loop_witness :
  main_loop unit quiet_builtin quiet_popen fresh tt ["echo a"; "quit now"; "echo b"]
  = ({| history_buf := ["echo a"; "quit now"]; alias_map := ∅ |}, tt, [print ("a" +:+ nl)]).
Proof.
  change (main_loop unit quiet_builtin quiet_popen fresh tt ["echo a"; "quit now"; "echo b"])
    with (let '(sh, w, cs) :=
            main_loop unit quiet_builtin quiet_popen
              {| history_buf := ["echo a"]; alias_map := ∅ |} tt ["quit now"; "echo b"]
          in (sh, w, print ("a" +:+ nl) :: cs)).
  assert (Hs : split_args (substitute_aliases
                             (alias_map {| history_buf := ["echo a"]; alias_map := ∅ |})
                             "quit now") = ["quit"; "now"]) by (vm_compute; reflexivity).
  rewrite (exit_ends_the_loop unit quiet_builtin quiet_popen
             {| history_buf := ["echo a"]; alias_map := ∅ |} tt "quit now" "quit" ["now"]
             ["echo b"] Hs (or_intror eq_refl)).
  reflexivity.
Defined.


Section EchoFacts.

Lemma echo_args_rest (l : list string) : forall i,
  2 <= i ->
  echo_args i l = match l with [] => EmptyString | _ => " " +:+ String.concat " " l end.
Proof.
  induction l as [|y r IH]; intros i Hi; [reflexivity |].
  cbn [echo_args]. destruct (Nat.ltb_spec 1 i) as [_|Hlt]; [| lia].
  rewrite (IH (S i)) by lia. destruct r as [|z r]; cbn [String.concat].
  - now rewrite app_nil_r.
  - reflexivity.
Qed.

Lemma echo_args_concat (l : list string) : echo_args 1 l = String.concat " " l.
Proof.
  destruct l as [|x l]; [reflexivity |].
  cbn [echo_args]. rewrite (echo_args_rest l 2) by lia.
  change (Nat.ltb 1 1) with false. cbv iota.
  destruct l as [|y l]; cbn [String.concat].
  - apply app_nil_r.
  - reflexivity.
Qed.

End EchoFacts.

(** X8.  [echo] prints its arguments joined by single spaces and one
    newline.  The arguments are the tokens of the line after alias
    substitution, so the spacing of the line and the quotes around an
    argument do not reach the output; the history and the alias table are
    left as the logging of the line made them. *)
Theorem echo_prints_joined_arguments
    (world : Type) (os_builtin : string -> list string -> shell -> world -> world * console)
    (os_popen : string -> world -> world * console) (sh : shell) (w : world)
    (line : string) (args : list string) :
  split_args (substitute_aliases (alias_map sh) line) = "echo" :: args ->
  main_step world os_builtin os_popen sh w line
  = Continue {| history_buf := history_buf sh ++ [substitute_aliases (alias_map sh) line];
                alias_map := alias_map sh |} w
      (print (String.concat " " args +:+ nl)).
Proof.
  intros Hs.
  assert (Hne : line <> EmptyString).
  { intros ->. unfold substitute_aliases in Hs. discriminate. }
  rewrite main_step_nonempty by exact Hne. unfold dispatch. rewrite Hs.
  change (select ("echo" :: args)) with (Some (Builtin "echo")).
  cbv iota. change (String.eqb "echo" "echo") with true. cbv iota.
  unfold cmd_echo. cbn [List.tl]. now rewrite echo_args_concat.
Qed.

Lemma echo_prints_joined_arguments_witness :
  main_step unit quiet_builtin quiet_popen fresh tt
    ("echo   " +:+ dq +:+ "a   b" +:+ dq +:+ "   c")
  = Continue {| history_buf := ["echo   " +:+ dq +:+ "a   b" +:+ dq +:+ "   c"];
                alias_map := ∅ |} tt (print ("a b c" +:+ nl)).
Proof.
  assert (Hs : split_args (substitute_aliases (alias_map fresh)
                 ("echo   " +:+ dq +:+ "a   b" +:+ dq +:+ "   c")) = ["echo"; "a b"; "c"])
    by (vm_compute; reflexivity).
  exact (echo_prints_joined_arguments unit quiet_builtin quiet_popen fresh tt _ _ Hs).
Defined.

Section AliasTable.
Import TokenizerSpec AliasLines.
Context (world : Type)
        (os_builtin : string -> list string -> shell -> world -> world * console)
        (os_popen : string -> world -> world * console).

Lemma substring_prefix (a b : string) : substring 0 (String.length a) (a +:+ b) = a.
Proof.
  induction a as [|c a IH]; simpl.
  - now destruct b.
  - now rewrite IH.
Qed.

Lemma find_char_app (c : ascii) (pre post : string) :
  find_char c pre = None ->
  find_char c (pre +:+ String c post) = Some (String.length pre).
Proof.
  intros H. unfold find_char. apply find_first_of_app; [exact H |].
  simpl. now rewrite Ascii.eqb_refl.
Qed.

(** [cmd_alias] on a second token [name=value] whose name has no [=]. *)
Lemma cmd_alias_binding (cmd name value : string) (more : list string)
    (m : gmap string string) :
  find_char "=" name = None ->
  cmd_alias (cmd :: (name +:+ String "=" value) :: more) m
  = (<[name := strip_quotes value]> m,
     print ("alias " +:+ colorize MINT_GREEN name +:+ " -> " +:+ strip_quotes value +:+ nl)).
Proof.
  intros H. unfold cmd_alias. rewrite (find_char_app "=" name value H).
  unfold substr. rewrite substring_prefix, substr_from_app. reflexivity.
Qed.

Lemma binding_plain_token (name value : string) :
  no_space name = true -> begins_with_quote name = false -> no_space value = true ->
  plain_token (name +:+ String "=" value).
Proof.
  intros Hn Hq Hv. repeat split.
  - destruct name; discriminate.
  - apply no_space_app; [exact Hn |]. simpl. exact Hv.
  - destruct name; [reflexivity | exact Hq].
Qed.

(** Which lines can change the alias table. *)
Lemma dispatch_alias_map (sh : shell) (w : world) (line : string) :
  alias_map (outcome_shell (dispatch world os_builtin os_popen sh w line)) = alias_map sh
  \/ exists rest, split_args line = "alias" :: rest \/ split_args line = "unalias" :: rest.
Proof.
  unfold dispatch.
  destruct (select (split_args line)) as [[| name | |]|] eqn:Hsel.
  - now left.
  - destruct (select_Builtin _ _ Hsel) as [rest Hrest].
    destruct (String.eqb_spec name "echo"); [now left |].
    destruct (String.eqb_spec name "history").
    { left. now destruct (cmd_history _ _). }
    destruct (String.eqb_spec name "alias") as [->|].
    { right. exists rest. now left. }
    destruct (String.eqb_spec name "unalias") as [->|].
    { right. exists rest. now right. }
    left. now destruct (os_builtin _ _ _ _).
  - left. now destruct (os_builtin _ _ _ _).
  - left. now destruct (os_popen _ _).
  - now left.
Qed.

Lemma main_step_alias_map (sh : shell) (w : world) (line : string) :
  ~ defines_alias (alias_map sh) line ->
  alias_map (outcome_shell (main_step world os_builtin os_popen sh w line)) = alias_map sh.
Proof.
  intros H. destruct line as [|c l]; [reflexivity |].
  rewrite main_step_nonempty by discriminate.
  destruct (dispatch_alias_map
              {| history_buf := history_buf sh ++ [substitute_aliases (alias_map sh) (String c l)];
                 alias_map := alias_map sh |} w
              (substitute_aliases (alias_map sh) (String c l))) as [E | E]; [exact E |].
  exfalso. apply H. exact E.
Qed.

End AliasTable.


(** X9.  Defining an alias and using it.  In a session where [alias] itself
    is not aliased, the line [alias name=value] (name and value free of white
    space, the name without [=] and not opening with a quote) is logged as
    typed and binds the name to the value less one pair of enclosing quotes;
    every other name keeps its binding; and from then on a line that
    consists of the name alone is rewritten to that value. *)
Theorem alias_defines_then_substitutes
    (world : Type) (os_builtin : string -> list string -> shell -> world -> world * console)
    (os_popen : string -> world -> world * console) (sh : shell) (w : world)
    (name value : string) :
  alias_map sh !! "alias" = None ->
  TokenizerSpec.no_space name = true -> TokenizerSpec.begins_with_quote name = false ->
  find_char "=" name = None -> TokenizerSpec.no_space value = true ->
  let line := "alias " +:+ name +:+ "=" +:+ value in
  let m' := <[name := strip_quotes value]> (alias_map sh) in
  main_step world os_builtin os_popen sh w line
  = Continue {| history_buf := history_buf sh ++ [line]; alias_map := m' |} w
      (print ("alias " +:+ colorize MINT_GREEN name +:+ " -> " +:+ strip_quotes value +:+ nl))
  /\ (forall k, k <> name -> m' !! k = alias_map sh !! k)
  /\ (name <> EmptyString -> substitute_aliases m' name = strip_quotes value).
Proof.
  intros Hfree Hn Hq Heq Hv line m'.
  assert (Hsplit : split_args line = ["alias"; name +:+ String "=" value]).
  { apply (split_args_plain ["alias"; name +:+ String "=" value]).
    constructor; [repeat split; discriminate |].
    constructor; [now apply binding_plain_token | constructor]. }
  assert (Hsub : substitute_aliases (alias_map sh) line = line).
  { apply substitute_aliases_absent. intros k args Hk.
    rewrite Hsplit in Hk. injection Hk as <- _. exact Hfree. }
  split; [| split].
  - rewrite main_step_nonempty by discriminate. rewrite Hsub.
    unfold dispatch. rewrite Hsplit.
    change (select ["alias"; name +:+ String "=" value]) with (Some (Builtin "alias")).
    cbv iota.
    change (String.eqb "alias" "echo") with false.
    change (String.eqb "alias" "history") with false.
    change (String.eqb "alias" "alias") with true. cbv iota.
    rewrite cmd_alias_binding by exact Heq. reflexivity.
  - intros k Hk. unfold m'. apply lookup_insert_ne. congruence.
  - intros Hne. apply (substitute_aliases_single m' name name).
    + apply (split_args_plain [name]).
      constructor; [repeat split; assumption | constructor].
    + unfold m'. apply lookup_insert_eq.
Qed.

Lemma alias_defines_then_substitutes_witness :
  main_step unit quiet_builtin quiet_popen fresh tt "alias ll='ls'"
  = Continue {| history_buf := ["alias ll='ls'"]; alias_map := <["ll" := "ls"]> ∅ |} tt
      (print ("alias " +:+ colorize MINT_GREEN "ll" +:+ " -> ls" +:+ nl))
  /\ substitute_aliases (<["ll" := "ls"]> ∅) "ll" = "ls".
Proof.
  pose proof (alias_defines_then_substitutes unit quiet_builtin quiet_popen fresh tt
                "ll" "'ls'" eq_refl eq_refl eq_refl eq_refl eq_refl) as [H1 [_ H3]].
  split; [exact H1 | apply H3; discriminate].
Defined.

(** X10.  [unalias] undoes [alias].  Removing a name right after binding it
    reports the removal and leaves the table without that name; when the
    name was free before the binding, the table is the one from before.
    Removing a name that is not bound changes nothing and reports that. *)
Theorem unalias_undoes_alias
    (c c' name value : string) (more more' : list string) (m : gmap string string) :
  find_char "=" name = None ->
  cmd_unalias (c' :: name :: more') (cmd_alias (c :: (name +:+ "=" +:+ value) :: more) m).1
  = (delete name m, print ("unalias: removed" +:+ nl))
  /\ (m !! name = None -> delete name m = m)
  /\ (m !! name = None ->
      cmd_unalias (c' :: name :: more') m
      = (m, eprint_colored YELLOW ("unalias: not found" +:+ nl))).
Proof.
  intros Heq. split; [| split].
  - change (name +:+ "=" +:+ value) with (name +:+ String "=" value).
    rewrite cmd_alias_binding by exact Heq. unfold cmd_unalias. cbn [fst].
    rewrite lookup_insert_eq, delete_insert_eq. reflexivity.
  - apply delete_id.
  - intros H. unfold cmd_unalias. now rewrite H.
Qed.

Lemma unalias_undoes_alias_witness :
  cmd_unalias ["unalias"; "ll"] (cmd_alias ["alias"; "ll=ls"] ∅).1
  = (delete "ll" ∅, print ("unalias: removed" +:+ nl)).
Proof.
  exact (proj1 (unalias_undoes_alias "alias" "unalias" "ll" "ls" [] [] ∅ eq_refl)).
Defined.

(** X11.  Only [alias] and [unalias] change the alias table.  Over a whole
    run of the loop, when no input line has [alias] or [unalias] as its
    first token after substitution, the table at the end is the table at the
    start, whatever the other commands, the operating system and [popen]
    do. *)
Theorem alias_table_is_stable
    (world : Type) (os_builtin : string -> list string -> shell -> world -> world * console)
    (os_popen : string -> world -> world * console) (sh : shell) (w : world)
    (input : list string) :
  Forall (fun line => ~ AliasLines.defines_alias (alias_map sh) line) input ->
  alias_map (main_loop world os_builtin os_popen sh w input).1.1 = alias_map sh.
Proof.
  revert sh w. induction input as [|line input IH]; intros sh w H; [reflexivity |].
  inversion H as [|? ? Hline Hrest]; subst.
  pose proof (main_step_alias_map world os_builtin os_popen sh w line Hline) as Hstep.
  cbn [main_loop].
  destruct (main_step world os_builtin os_popen sh w line) as [sh' w' c | sh' w'];
    cbn [outcome_shell] in Hstep.
  - specialize (IH sh' w'). rewrite Hstep in IH. specialize (IH Hrest).
    destruct (main_loop world os_builtin os_popen sh' w' input) as [[sh'' w''] cs].
    exact IH.
  - exact Hstep.
Qed.

Lemma alias_table_is_stable_witness :
  alias_map (main_loop unit quiet_builtin quiet_popen
               {| history_buf := []; alias_map := {["ll" := "ls -l"]} |} tt
               ["ll /tmp"; "echo alias x=y"; "history -c"]).1.1
  = {["ll" := "ls -l"]}.
Proof.
  assert (H : Forall (fun line =>
                ~ AliasLines.defines_alias
                    (alias_map {| history_buf := []; alias_map := {["ll" := "ls -l"]} |}) line)
                ["ll /tmp"; "echo alias x=y"; "history -c"]).
  { repeat constructor; intros [rest [H | H]]; vm_compute in H; discriminate. }
  exact (alias_table_is_stable unit quiet_builtin quiet_popen
           {| history_buf := []; alias_map := {["ll" := "ls -l"]} |} tt
           ["ll /tmp"; "echo alias x=y"; "history -c"] H).
Defined.

(** X12.  [tail -f] never follows the file it is given.  [main] selects the
    follower when the second token is [-f] and hands it the whole token
    list, and the follower opens the file named by the second token: so the
    file it opens is the one named [-f], whatever name comes after. *)
Theorem tail_f_opens_the_file_named_dash_f
    (args : list string) (open_file : string -> option string) (snapshots : list string) :
  select args = Some TailFollow ->
  Follower.cmd_tailf args open_file snapshots
  = match open_file "-f" with
    | None => Follower.Refused (eprint_colored RED ("tail -f: cannot open file" +:+ nl))
    | Some content0 =>
        Follower.Following (Follower.follow snapshots (Follower.attach content0))
    end.
Proof.
  intros H. destruct args as [|cmd rest]; [discriminate |].
  unfold select in H.
  destruct (String.eqb cmd "exit" || String.eqb cmd "quit"); [discriminate |].
  destruct (String.eqb cmd "tail").
  - destruct rest as [|x rest]; [discriminate |].
    cbn [List.length List.nth] in H.
    destruct (String.eqb_spec x "-f") as [-> | _].
    + reflexivity.
    + rewrite andb_false_r in H. discriminate.
  - destruct (is_builtin cmd); discriminate.
Qed.

Lemma tail_f_opens_the_file_named_dash_f_witness :
  split_args "tail -f log.txt" = ["tail"; "-f"; "log.txt"] /\
  Follower.cmd_tailf ["tail"; "-f"; "log.txt"]
    (fun name => if String.eqb name "log.txt" then Some ("x" +:+ nl) else None) []
  = Follower.Refused (eprint_colored RED ("tail -f: cannot open file" +:+ nl)).
Proof.
  split; [reflexivity |].
  exact (tail_f_opens_the_file_named_dash_f ["tail"; "-f"; "log.txt"]
           (fun name => if String.eqb name "log.txt" then Some ("x" +:+ nl) else None) []
           eq_refl).
Defined.


(** ** The text-file commands *)

Section TextFileFacts.
Import Follower TextFile TextSpec.

Lemma read_line_partial (s l : string) :
  read_line s = (l, false) -> s = l /\ no_newline l = true.
Proof.
  revert l. induction s as [|c s IH]; intros l H; simpl in H.
  - injection H as <-. now split.
  - destruct (Ascii.eqb c "010") eqn:Hc; [discriminate |].
    destruct (read_line s) as [l' t] eqn:Hr. injection H as <- ->.
    destruct (IH l' eq_refl) as [-> Hn]. split; [reflexivity |].
    simpl. now rewrite Hc.
Qed.

Lemma lines_of_no_newline (l : string) :
  no_newline l = true -> l <> EmptyString -> lines_of l = [l].
Proof.
  induction l as [|c l IH]; intros Hn Hne; [congruence |].
  simpl in Hn. apply andb_true_iff in Hn as [Hc Hn].
  apply negb_true_iff in Hc. simpl. rewrite Hc.
  destruct l as [|d l]; [reflexivity |].
  now rewrite IH.
Qed.

Lemma lines_of_no_newline_all (s : string) :
  Forall (fun l => no_newline l = true) (lines_of s).
Proof.
  induction s as [|c s IH]; simpl; [constructor |].
  destruct (Ascii.eqb c "010") eqn:Hc.
  - constructor; [reflexivity | exact IH].
  - destruct (lines_of s) as [|l ls].
    + constructor; [| constructor]. simpl. now rewrite Hc.
    + inversion IH; subst. constructor; [| assumption]. simpl. now rewrite Hc.
Qed.

Lemma getlines_not_good (fuel : nat) (content : string) (f : ifstream) :
  not_good f = true -> getlines fuel content f = [].
Proof.
  intros H. destruct fuel; [reflexivity |]. simpl. unfold getline.
  unfold not_good in H. now rewrite H.
Qed.

(** The calls of [getline] deliver the lines of what is left of the file. *)
Lemma getlines_lines_of (fuel : nat) (content : string) : forall f : ifstream,
  not_good f = false ->
  String.length (substr_from (gpos f) content) < fuel ->
  getlines fuel content f = lines_of (substr_from (gpos f) content).
Proof.
  induction fuel as [|fuel IH]; intros f Hg Hlen; [lia |].
  cbn [getlines]. unfold getline. unfold not_good in Hg. rewrite Hg.
  destruct (read_line (substr_from (gpos f) content)) as [line t] eqn:Hr.
  destruct t.
  - destruct (read_line_split _ _ Hr) as [Hs Hn].
    rewrite IH; cbn [gpos eofbit failbit not_good orb]; try reflexivity.
    + rewrite <- Nat.add_assoc, substr_from_add.
      etransitivity; [| symmetry; apply (f_equal lines_of); exact Hs].
      symmetry. apply (lines_of_line line _ Hn).
    + rewrite <- Nat.add_assoc, substr_from_add.
      apply (f_equal String.length) in Hs. rewrite length_app in Hs. simpl in Hs. lia.
  - destruct (read_line_partial _ _ Hr) as [Hs Hn].
    destruct line as [|c line].
    + now rewrite Hs.
    + rewrite getlines_not_good by reflexivity.
      rewrite Hs. now rewrite lines_of_no_newline.
Qed.

Lemma getlines_opened (fuel : nat) (content : string) :
  String.length content < fuel -> getlines fuel content opened = lines_of content.
Proof. intros H. now apply (getlines_lines_of fuel content opened). Qed.

Lemma cat_loop_getlines (fuel : nat) (content : string) : forall f,
  cat_loop fuel content f = output_of (getlines fuel content f).
Proof.
  induction fuel as [|fuel IH]; intros f; [reflexivity |].
  cbn [cat_loop getlines]. destruct (getline content f) as [f' [line|]]; [| reflexivity].
  cbn [output_of]. now rewrite IH.
Qed.

Lemma head_loop_getlines (fuel : nat) (content : string) : forall n f,
  head_loop fuel n content f
  = output_of (firstn (Z.to_nat (10 - n)) (getlines fuel content f)).
Proof.
  induction fuel as [|fuel IH]; intros n f.
  - simpl. now rewrite firstn_nil.
  - cbn [head_loop getlines]. destruct (Z.ltb_spec n 10) as [Hn | Hn].
    + replace (Z.to_nat (10 - n)) with (S (Z.to_nat (10 - (n + 1)))) by lia.
      destruct (getline content f) as [f' [line|]]; [| reflexivity].
      cbn [firstn output_of]. now rewrite IH.
    + replace (Z.to_nat (10 - n)) with 0 by lia. reflexivity.
Qed.

Lemma tail_loop_getlines (fuel : nat) (content : string) : forall buf f,
  tail_loop fuel buf content f = fold_left push_back_10 (getlines fuel content f) buf.
Proof.
  induction fuel as [|fuel IH]; intros buf f; [reflexivity |].
  cbn [tail_loop getlines]. destruct (getline content f) as [f' [line|]]; [| reflexivity].
  cbn [fold_left]. apply IH.
Qed.

Lemma push_back_10_lastn (ls : list string) : forall buf,
  List.length buf <= 10 ->
  fold_left push_back_10 ls buf = lastn 10 (buf ++ ls).
Proof.
  unfold lastn. induction ls as [|l ls IH]; intros buf Hb.
  - cbn [fold_left]. rewrite List.app_nil_r.
    replace (List.length buf - 10) with 0 by lia. reflexivity.
  - cbn [fold_left]. unfold push_back_10 at 2.
    destruct (Nat.ltb_spec 10 (List.length (buf ++ [l]))) as [Hlt | Hge];
      rewrite List.length_app in *; cbn [List.length] in *.
    + destruct buf as [|x buf]; [simpl in Hlt; lia |].
      cbn [app List.tl]. rewrite IH by (rewrite List.length_app; simpl in *; lia).
      rewrite <- List.app_assoc. cbn [app].
      rewrite !List.length_app. cbn [List.length] in *.
      replace (S (List.length buf) + S (List.length ls) - 10)
        with (S (List.length buf + S (List.length ls) - 10)) by lia.
      reflexivity.
    + rewrite IH by (rewrite List.length_app; simpl; lia).
      rewrite <- List.app_assoc. cbn [app]. rewrite List.length_app. reflexivity.
Qed.

(** What [cat] prints is the file, closed by a newline when it lacks one. *)
Lemma output_lines_of (s : string) :
  output_of (lines_of s) = if ends_line s then s else s +:+ nl.
Proof.
  induction s as [|c s IH]; [reflexivity |].
  cbn [lines_of]. destruct (Ascii.eqb c "010") eqn:Hc.
  - apply Ascii.eqb_eq in Hc. subst c. cbn [output_of]. rewrite IH.
    unfold ends_line. destruct s as [|d s]; [reflexivity |].
    rewrite (back_cons_nonempty "010" (String d s)) by discriminate.
    destruct (is_char "010" (back (String d s))); reflexivity.
  - destruct s as [|d s].
    + cbn [lines_of output_of]. unfold ends_line. simpl. now rewrite Hc.
    + assert (Hne : lines_of (String d s) <> []).
      { simpl. destruct (Ascii.eqb d "010"); [discriminate |].
        destruct (lines_of s); discriminate. }
      destruct (lines_of (String d s)) as [|l ls] eqn:Hl; [congruence |].
      cbn [output_of] in *. change (String c l +:+ ?x) with (String c (l +:+ x)).
      rewrite IH. unfold ends_line.
      rewrite (back_cons_nonempty c (String d s)) by discriminate.
      destruct (is_char "010" (back (String d s))); reflexivity.
Qed.

End TextFileFacts.


(** X13.  [cat] prints the file as it is when the file is empty or ends
    with a newline, and the file followed by one newline otherwise: the
    output always consists of whole lines.  More calls of [getline] than the
    bound of the model change nothing: the loop has ended by itself. *)
Theorem cat_prints_the_file_in_whole_lines
    (cmd fname : string) (more : list string) (open_file : string -> option string)
    (content : string) :
  open_file fname = Some content ->
  TextFile.cmd_cat (cmd :: fname :: more) open_file
  = print (if TextSpec.ends_line content then content else content +:+ nl)
  /\ (forall fuel, String.length content < fuel ->
        TextFile.cat_loop fuel content TextFile.opened
        = Follower.output_of (Follower.lines_of content)).
Proof.
  intros Hopen. split.
  - unfold TextFile.cmd_cat. rewrite Hopen, cat_loop_getlines.
    rewrite getlines_opened by (unfold TextFile.calls; lia).
    now rewrite output_lines_of.
  - intros fuel Hfuel. rewrite cat_loop_getlines. now rewrite getlines_opened.
Qed.

Lemma cat_prints_the_file_in_whole_lines_witness :
  TextFile.cmd_cat ["cat"; "notes"]
    (fun name => if String.eqb name "notes" then Some ("a" +:+ nl +:+ "b") else None)
  = print ("a" +:+ nl +:+ "b" +:+ nl).
Proof.
  exact (proj1 (cat_prints_the_file_in_whole_lines "cat" "notes" []
                  (fun name => if String.eqb name "notes" then Some ("a" +:+ nl +:+ "b")
                               else None)
                  ("a" +:+ nl +:+ "b") eq_refl)).
Defined.

(** X14.  [head] prints the first ten lines of the file, each closed by a
    newline, and all of them when the file has at most ten: then its output
    is that of [cat]. *)
Theorem head_prints_first_ten_lines
    (cmd fname : string) (more : list string) (open_file : string -> option string)
    (content : string) :
  open_file fname = Some content ->
  TextFile.cmd_head (cmd :: fname :: more) open_file
  = print (Follower.output_of (firstn 10 (Follower.lines_of content)))
  /\ (List.length (Follower.lines_of content) <= 10 ->
      TextFile.cmd_head (cmd :: fname :: more) open_file
      = TextFile.cmd_cat (cmd :: fname :: more) open_file).
Proof.
  intros Hopen.
  assert (H : TextFile.cmd_head (cmd :: fname :: more) open_file
              = print (Follower.output_of (firstn 10 (Follower.lines_of content)))).
  { unfold TextFile.cmd_head. rewrite Hopen, head_loop_getlines.
    rewrite getlines_opened by (unfold TextFile.calls; lia). reflexivity. }
  split; [exact H |].
  intros Hlen. rewrite H. unfold TextFile.cmd_cat. rewrite Hopen, cat_loop_getlines.
  rewrite getlines_opened by (unfold TextFile.calls; lia).
  now rewrite firstn_all2 by exact Hlen.
Qed.

Lemma head_prints_first_ten_lines_witness :
  TextFile.cmd_head ["head"; "f"]
    (fun _ => Some ("1" +:+ nl +:+ "2" +:+ nl +:+ "3" +:+ nl +:+ "4" +:+ nl +:+ "5" +:+ nl
                    +:+ "6" +:+ nl +:+ "7" +:+ nl +:+ "8" +:+ nl +:+ "9" +:+ nl +:+ "10"
                    +:+ nl +:+ "11" +:+ nl +:+ "12"))
  = print ("1" +:+ nl +:+ "2" +:+ nl +:+ "3" +:+ nl +:+ "4" +:+ nl +:+ "5" +:+ nl
           +:+ "6" +:+ nl +:+ "7" +:+ nl +:+ "8" +:+ nl +:+ "9" +:+ nl +:+ "10" +:+ nl).
Proof.
  exact (proj1 (head_prints_first_ten_lines "head" "f" []
                  (fun _ => Some ("1" +:+ nl +:+ "2" +:+ nl +:+ "3" +:+ nl +:+ "4" +:+ nl
                    +:+ "5" +:+ nl +:+ "6" +:+ nl +:+ "7" +:+ nl +:+ "8" +:+ nl +:+ "9"
                    +:+ nl +:+ "10" +:+ nl +:+ "11" +:+ nl +:+ "12")) _ eq_refl)).
Defined.

(** X15.  [tail] prints the last ten lines of the file in their order, each
    closed by a newline, and all of them when the file has at most ten;
    its buffer never holds more than ten lines. *)
Theorem tail_prints_last_ten_lines
    (cmd fname : string) (more : list string) (open_file : string -> option string)
    (content : string) :
  open_file fname = Some content ->
  TextFile.cmd_tail (cmd :: fname :: more) open_file
  = print (Follower.output_of (TextSpec.lastn 10 (Follower.lines_of content)))
  /\ List.length (TextFile.tail_loop (TextFile.calls content) [] content TextFile.opened)
     = Nat.min 10 (List.length (Follower.lines_of content))
  /\ (List.length (Follower.lines_of content) <= 10 ->
      TextFile.cmd_tail (cmd :: fname :: more) open_file
      = TextFile.cmd_cat (cmd :: fname :: more) open_file).
Proof.
  intros Hopen.
  assert (Hbuf : TextFile.tail_loop (TextFile.calls content) [] content TextFile.opened
                 = TextSpec.lastn 10 (Follower.lines_of content)).
  { rewrite tail_loop_getlines.
    rewrite getlines_opened by (unfold TextFile.calls; lia).
    now rewrite push_back_10_lastn by (simpl; lia). }
  assert (H : TextFile.cmd_tail (cmd :: fname :: more) open_file
              = print (Follower.output_of (TextSpec.lastn 10 (Follower.lines_of content)))).
  { unfold TextFile.cmd_tail. now rewrite Hopen, Hbuf. }
  split; [exact H | split].
  - rewrite Hbuf. unfold TextSpec.lastn. rewrite List.length_skipn. lia.
  - intros Hlen. rewrite H. unfold TextFile.cmd_cat. rewrite Hopen, cat_loop_getlines.
    rewrite getlines_opened by (unfold TextFile.calls; lia).
    unfold TextSpec.lastn.
    replace (List.length (Follower.lines_of content) - 10) with 0 by lia. reflexivity.
Qed.

Lemma tail_prints_last_ten_lines_witness :
  TextFile.cmd_tail ["tail"; "f"]
    (fun _ => Some ("1" +:+ nl +:+ "2" +:+ nl +:+ "3" +:+ nl +:+ "4" +:+ nl +:+ "5" +:+ nl
                    +:+ "6" +:+ nl +:+ "7" +:+ nl +:+ "8" +:+ nl +:+ "9" +:+ nl +:+ "10"
                    +:+ nl +:+ "11" +:+ nl +:+ "12"))
  = print ("3" +:+ nl +:+ "4" +:+ nl +:+ "5" +:+ nl +:+ "6" +:+ nl +:+ "7" +:+ nl
           +:+ "8" +:+ nl +:+ "9" +:+ nl +:+ "10" +:+ nl +:+ "11" +:+ nl +:+ "12" +:+ nl).
Proof.
  exact (proj1 (tail_prints_last_ten_lines "tail" "f" []
                  (fun _ => Some ("1" +:+ nl +:+ "2" +:+ nl +:+ "3" +:+ nl +:+ "4" +:+ nl
                    +:+ "5" +:+ nl +:+ "6" +:+ nl +:+ "7" +:+ nl +:+ "8" +:+ nl +:+ "9"
                    +:+ nl +:+ "10" +:+ nl +:+ "11" +:+ nl +:+ "12")) _ eq_refl)).
Defined.


Section UniqFacts.
Import Follower TextFile TextSpec.

Lemma getline_None (content : string) (f f' : ifstream) :
  getline content f = (f', None) -> not_good f' = true.
Proof.
  unfold getline. destruct (eofbit f || failbit f).
  - intros H. injection H as <-. unfold not_good. simpl. apply orb_true_r.
  - destruct (read_line _) as [line t]. destruct t; [discriminate |].
    destruct line; [| discriminate]. intros H. injection H as <-. reflexivity.
Qed.

Lemma uniq_loop_getlines (fuel : nat) (content : string) : forall prev f,
  uniq_loop fuel prev content f
  = output_of (squeeze_from prev (getlines fuel content f)).
Proof.
  induction fuel as [|fuel IH]; intros prev f; [reflexivity |].
  cbn [uniq_loop getlines]. destruct (getline content f) as [f' [cur|]]; [| reflexivity].
  cbn [squeeze_from]. rewrite IH. destruct (String.eqb cur prev); cbn [negb].
  - reflexivity.
  - cbn [output_of]. now rewrite app_assoc.
Qed.

Lemma squeeze_from_no_adjacent (ls : list string) : forall prev,
  no_adjacent_equal (prev :: squeeze_from prev ls).
Proof.
  induction ls as [|l ls IH]; intros prev; [exact I |].
  cbn [squeeze_from]. destruct (String.eqb_spec l prev) as [-> | Hne].
  - apply IH.
  - split; [congruence | apply IH].
Qed.

Lemma squeeze_from_fixed (ls : list string) : forall prev,
  no_adjacent_equal (prev :: ls) -> squeeze_from prev ls = ls.
Proof.
  induction ls as [|l ls IH]; intros prev H; [reflexivity |].
  destruct H as [Hne H]. cbn [squeeze_from].
  destruct (String.eqb_spec l prev) as [-> | _]; [congruence |].
  now rewrite IH.
Qed.

Lemma squeeze_no_adjacent (ls : list string) : no_adjacent_equal (squeeze ls).
Proof. destruct ls as [|l ls]; [exact I | apply squeeze_from_no_adjacent]. Qed.

Lemma squeeze_idem (ls : list string) : squeeze (squeeze ls) = squeeze ls.
Proof.
  destruct ls as [|l ls]; [reflexivity |]. cbn [squeeze].
  now rewrite squeeze_from_fixed by apply squeeze_from_no_adjacent.
Qed.

Lemma squeeze_from_Forall (P : string -> Prop) (ls : list string) : forall prev,
  Forall P ls -> Forall P (squeeze_from prev ls).
Proof.
  induction ls as [|l ls IH]; intros prev H; [constructor |].
  inversion H; subst. cbn [squeeze_from].
  destruct (String.eqb l prev); [| constructor; [assumption |]]; now apply IH.
Qed.

Lemma squeeze_Forall (P : string -> Prop) (ls : list string) :
  Forall P ls -> Forall P (squeeze ls).
Proof.
  destruct ls as [|l ls]; intros H; [constructor |]. inversion H; subst.
  constructor; [assumption | now apply squeeze_from_Forall].
Qed.

Lemma cmd_uniq_squeeze (cmd fname : string) (more : list string)
    (open_file : string -> option string) (content : string) :
  open_file fname = Some content ->
  cmd_uniq (cmd :: fname :: more) open_file
  = print (output_of (squeeze (lines_of content))).
Proof.
  intros Hopen. unfold cmd_uniq. rewrite Hopen.
  rewrite <- (getlines_opened (S (calls content)) content) by (unfold calls; lia).
  cbn [getlines]. destruct (getline content opened) as [f' [prev|]] eqn:Hg.
  - rewrite uniq_loop_getlines. reflexivity.
  - rewrite uniq_loop_getlines.
    now rewrite getlines_not_good by exact (getline_None _ _ _ Hg).
Qed.

End UniqFacts.

(** X16.  [uniq] reduces every run of equal adjacent lines to one line: it
    prints the lines of the file without those that repeat the line before,
    so no two neighbouring lines of the output are equal, and running it on
    its own output prints that output again. *)
Theorem uniq_squeezes_adjacent_duplicates
    (cmd fname : string) (more : list string) (open_file : string -> option string)
    (content : string) :
  open_file fname = Some content ->
  TextFile.cmd_uniq (cmd :: fname :: more) open_file
  = print (Follower.output_of (TextSpec.squeeze (Follower.lines_of content)))
  /\ TextSpec.no_adjacent_equal (TextSpec.squeeze (Follower.lines_of content))
  /\ (forall open_again : string -> option string,
        open_again fname
        = Some (Follower.output_of (TextSpec.squeeze (Follower.lines_of content))) ->
        TextFile.cmd_uniq (cmd :: fname :: more) open_again
        = TextFile.cmd_uniq (cmd :: fname :: more) open_file).
Proof.
  intros Hopen. split; [now apply cmd_uniq_squeeze | split].
  - apply squeeze_no_adjacent.
  - intros open_again Hagain.
    rewrite (cmd_uniq_squeeze cmd fname more open_again _ Hagain).
    rewrite (cmd_uniq_squeeze cmd fname more open_file _ Hopen).
    rewrite lines_of_output by (apply squeeze_Forall, lines_of_no_newline_all).
    now rewrite squeeze_idem.
Qed.

Lemma uniq_squeezes_adjacent_duplicates_witness :
  TextFile.cmd_uniq ["uniq"; "f"]
    (fun _ => Some ("a" +:+ nl +:+ "a" +:+ nl +:+ "b" +:+ nl +:+ "a" +:+ nl +:+ "a"))
  = print ("a" +:+ nl +:+ "b" +:+ nl +:+ "a" +:+ nl).
Proof.
  exact (proj1 (uniq_squeezes_adjacent_duplicates "uniq" "f" []
                  (fun _ => Some ("a" +:+ nl +:+ "a" +:+ nl +:+ "b" +:+ nl +:+ "a" +:+ nl
                                  +:+ "a")) _ eq_refl)).
Defined.


Section WcFacts.
Import Follower TextFile TextSpec TokenizerSpec.

Lemma size_t_small (n : N) : (n < 18446744073709551616)%N -> size_t n = n.
Proof. intros H. unfold size_t. now apply N.mod_small. Qed.

Lemma count_words_words (fuel : nat) : forall (W : N) (iss : string),
  String.length iss <= fuel ->
  (W + N.of_nat (List.length (words iss)) < 18446744073709551616)%N ->
  count_words fuel W iss = (W + N.of_nat (List.length (words iss)))%N.
Proof.
  induction fuel as [|fuel IH]; intros W iss Hlen Hb.
  - destruct iss; [| simpl in Hlen; lia]. simpl. lia.
  - cbn [count_words]. destruct (extract iss) as [[w r]|] eqn:He.
    + rewrite (extract_Some_words _ _ _ He) in *. cbn [List.length] in *.
      destruct (extract_Some _ _ _ He) as [_ Hr].
      rewrite size_t_small by lia. rewrite IH by lia. lia.
    + rewrite (extract_None_words _ He). simpl. lia.
Qed.

Lemma wc_loop_getlines (fuel : nat) (content : string) : forall (f : ifstream) (L W C : N),
  (L + N.of_nat (List.length (getlines fuel content f)) < 18446744073709551616)%N ->
  (W + N.of_nat (List.length (flat_map words (getlines fuel content f)))
   < 18446744073709551616)%N ->
  (C + N.of_nat (String.length (output_of (getlines fuel content f)))
   < 18446744073709551616)%N ->
  wc_loop fuel L W C content f
  = ((L + N.of_nat (List.length (getlines fuel content f)))%N,
     (W + N.of_nat (List.length (flat_map words (getlines fuel content f))))%N,
     (C + N.of_nat (String.length (output_of (getlines fuel content f))))%N).
Proof.
  induction fuel as [|fuel IH]; intros f L W C.
  - simpl. intros _ _ _. now rewrite !N.add_0_r.
  - cbn [wc_loop getlines]. destruct (getline content f) as [f' [line|]].
    + cbn [List.length flat_map output_of].
      rewrite List.length_app, !length_app. change (String.length nl) with 1.
      intros HL HW HC.
      rewrite (size_t_small (L + 1)) by lia.
      rewrite (size_t_small (N.of_nat (String.length line) + 1)) by lia.
      rewrite size_t_small by lia.
      rewrite count_words_words by lia.
      rewrite IH by lia.
      f_equal; [f_equal |]; lia.
    + simpl. intros _ _ _. now rewrite !N.add_0_r.
Qed.

Lemma words_output_of (ls : list string) : words (output_of ls) = flat_map words ls.
Proof.
  induction ls as [|l ls IH]; [reflexivity |].
  cbn [output_of flat_map]. rewrite <- IH.
  change (l +:+ nl +:+ output_of ls) with (l +:+ String "010" (output_of ls)).
  unfold words at 1. now rewrite words_from_app_space.
Qed.

Lemma words_lines_of (s : string) : flat_map words (lines_of s) = words s.
Proof.
  rewrite <- words_output_of, output_lines_of.
  destruct (ends_line s); [reflexivity |].
  unfold words. now rewrite words_from_app_space_r.
Qed.

Lemma words_from_length (s : string) : forall cur,
  List.length (words_from cur s)
  <= String.length s + match cur with EmptyString => 0 | _ => 1 end.
Proof.
  induction s as [|c s IH]; intros cur.
  - destruct cur; simpl; lia.
  - cbn [words_from String.length]. destruct (isspace c).
    + rewrite List.length_app. specialize (IH EmptyString).
      destruct cur; simpl in *; lia.
    + specialize (IH (cur +:+ String c EmptyString)).
      destruct (cur +:+ String c EmptyString); destruct cur; simpl in *; lia.
Qed.

Lemma words_length (s : string) : List.length (words s) <= String.length s.
Proof. pose proof (words_from_length s EmptyString) as H. unfold words. simpl in H. lia. Qed.

Lemma lines_le_output (ls : list string) :
  List.length ls <= String.length (output_of ls).
Proof.
  induction ls as [|l ls IH]; [simpl; lia |].
  cbn [output_of List.length]. rewrite !length_app. change (String.length nl) with 1. lia.
Qed.

Lemma output_lines_of_length (s : string) :
  String.length (output_of (lines_of s))
  = String.length s + (if ends_line s then 0 else 1).
Proof.
  rewrite output_lines_of. destruct (ends_line s); [lia |].
  rewrite length_app. reflexivity.
Qed.

End WcFacts.

(** X17.  [wc] prints three counts and the file name.  For a file that the
    64-bit counters can hold, the first is the number of lines, a last line
    without newline included; the second is the number of runs of characters
    other than white space in the whole file; the third is the number of
    bytes when the file is empty or ends with a newline, and one more than
    that otherwise, since every line is counted with a newline. *)
Theorem wc_counts_lines_words_bytes
    (cmd fname : string) (more : list string) (open_file : string -> option string)
    (content : string) :
  (N.of_nat (String.length content) + 1 < 18446744073709551616)%N ->
  open_file fname = Some content ->
  TextFile.cmd_wc (cmd :: fname :: more) open_file
  = print (TextFile.show_N (N.of_nat (List.length (Follower.lines_of content)))
           +:+ " " +:+ TextFile.show_N (N.of_nat (List.length (TokenizerSpec.words content)))
           +:+ " " +:+ TextFile.show_N (N.of_nat (String.length content)
                                        + (if TextSpec.ends_line content then 0 else 1))
           +:+ " " +:+ fname +:+ nl).
Proof.
  intros Hsize Hopen. unfold TextFile.cmd_wc. rewrite Hopen.
  pose proof (words_length content) as Hw.
  pose proof (lines_le_output (Follower.lines_of content)) as Hl.
  pose proof (output_lines_of_length content) as Ho.
  assert (Hb : (if TextSpec.ends_line content then 0 else 1) <= 1)
    by (destruct (TextSpec.ends_line content); lia).
  rewrite wc_loop_getlines;
    rewrite ?getlines_opened by (unfold TextFile.calls; lia);
    rewrite ?words_lines_of; try lia.
  rewrite !N.add_0_l, Ho.
  replace (N.of_nat (String.length content + (if TextSpec.ends_line content then 0 else 1)))
    with (N.of_nat (String.length content)
          + (if TextSpec.ends_line content then 0 else 1))%N
    by (destruct (TextSpec.ends_line content); lia).
  reflexivity.
Qed.

Lemma wc_counts_lines_words_bytes_witness :
  TextFile.cmd_wc ["wc"; "f"] (fun _ => Some ("one two" +:+ nl +:+ " three"))
  = print ("2 3 15 f" +:+ nl).
Proof.
  assert (H : (N.of_nat (String.length ("one two" +:+ nl +:+ " three")) + 1
               < 18446744073709551616)%N) by (vm_compute; reflexivity).
  exact (wc_counts_lines_words_bytes "wc" "f" []
           (fun _ => Some ("one two" +:+ nl +:+ " three")) _ H eq_refl).
Defined.


Section GrepFacts.
Import Follower TextFile TextSpec.

Lemma contains_occurs (pattern line : string) :
  contains pattern line = true
  <-> exists m, substring m (String.length pattern) line = pattern.
Proof.
  unfold contains. destruct (String.index 0 pattern line) as [m|] eqn:Hi.
  - split; [intros _ | reflexivity]. exists m. exact (index_correct1 _ _ _ _ Hi).
  - split; [discriminate |]. intros [m Hm]. exfalso.
    destruct pattern as [|c pattern].
    + apply index_correct4 in Hi. lia.
    + apply (index_correct3 0 m _ _ Hi); [discriminate | lia | exact Hm].
Qed.

Lemma grep_loop_getlines (pattern : string) (fuel : nat) (content : string) :
  forall (f : ifstream) (k : N),
  (k + N.of_nat (List.length (getlines fuel content f)) < 18446744073709551616)%N ->
  grep_loop fuel pattern k content f
  = grep_report (matches pattern k (getlines fuel content f)).
Proof.
  induction fuel as [|fuel IH]; intros f k; [reflexivity |].
  cbn [grep_loop getlines]. destruct (getline content f) as [f' [line|]]; [| reflexivity].
  cbn [List.length matches]. intros Hk.
  rewrite size_t_small by lia. rewrite IH by lia.
  destruct (contains pattern line); [| reflexivity].
  cbn [app grep_report]. now rewrite !app_assoc.
Qed.

Lemma matches_In (pattern : string) (ls : list string) : forall (k0 k : N) (l : string),
  In (k, l) (matches pattern k0 ls)
  <-> (k0 <= k)%N /\ nth_error ls (N.to_nat (k - k0)) = Some l
      /\ contains pattern l = true.
Proof.
  induction ls as [|l0 ls IH]; intros k0 k l.
  - simpl. split; [tauto |]. intros (_ & H & _). now destruct (N.to_nat (k - k0)).
  - cbn [matches]. rewrite in_app_iff, IH. split.
    + intros [H | (Hk & Hn & Hc)].
      * destruct (contains pattern l0) eqn:Hc; [| destruct H].
        destruct H as [H | []]. injection H as <- <-.
        rewrite N.sub_diag. simpl. repeat split; [lia | exact Hc].
      * replace (N.to_nat (k - k0)) with (S (N.to_nat (k - (k0 + 1)))) by lia.
        repeat split; [lia | exact Hn | exact Hc].
    + intros (Hk & Hn & Hc).
      destruct (N.eq_dec k k0) as [-> | Hne].
      * left. rewrite N.sub_diag in Hn. simpl in Hn. injection Hn as ->.
        rewrite Hc. now left.
      * right. replace (N.to_nat (k - k0)) with (S (N.to_nat (k - (k0 + 1)))) in Hn by lia.
        repeat split; [lia | exact Hn | exact Hc].
Qed.

Lemma lines_of_length (s : string) : List.length (lines_of s) <= String.length s.
Proof.
  induction s as [|c s IH]; [simpl; lia |].
  cbn [lines_of String.length]. destruct (Ascii.eqb c "010"); [simpl; lia |].
  destruct (lines_of s); simpl in *; lia.
Qed.

End GrepFacts.

(** X18.  [grep] prints the lines of the file in which the pattern occurs,
    in their order, each after its line number, counted from 1 over all
    lines of the file: a line is reported under number [k] exactly when it is
    the [k]-th line and the pattern is a substring of it.  The empty
    pattern occurs in every line. *)
Theorem grep_prints_the_matching_lines
    (cmd pattern fname : string) (more : list string)
    (open_file : string -> option string) (content : string) :
  (N.of_nat (String.length content) + 1 < 18446744073709551616)%N ->
  open_file fname = Some content ->
  TextFile.cmd_grep (cmd :: pattern :: fname :: more) open_file
  = print (TextSpec.grep_report (TextSpec.matches pattern 1 (Follower.lines_of content)))
  /\ (forall (k : N) (l : string),
        In (k, l) (TextSpec.matches pattern 1 (Follower.lines_of content))
        <-> (1 <= k)%N
            /\ nth_error (Follower.lines_of content) (N.to_nat (k - 1)) = Some l
            /\ exists m, substring m (String.length pattern) l = pattern)
  /\ (forall l, TextFile.contains EmptyString l = true).
Proof.
  intros Hsize Hopen. split; [| split].
  - unfold TextFile.cmd_grep. rewrite Hopen.
    pose proof (lines_of_length content) as Hl.
    rewrite grep_loop_getlines;
      rewrite ?getlines_opened by (unfold TextFile.calls; lia); [reflexivity | lia].
  - intros k l. rewrite matches_In, contains_occurs. reflexivity.
  - intros l. apply contains_occurs. exists 0. now destruct l.
Qed.

Lemma grep_prints_the_matching_lines_witness :
  TextFile.cmd_grep ["grep"; "an"; "f"]
    (fun _ => Some ("banana" +:+ nl +:+ "cherry" +:+ nl +:+ "mango"))
  = print (colorize MAGENTA "1: " +:+ "banana" +:+ nl
           +:+ colorize MAGENTA "3: " +:+ "mango" +:+ nl).
Proof.
  assert (H : (N.of_nat (String.length ("banana" +:+ nl +:+ "cherry" +:+ nl +:+ "mango")) + 1
               < 18446744073709551616)%N) by (vm_compute; reflexivity).
  exact (proj1 (grep_prints_the_matching_lines "grep" "an" "f" []
                  (fun _ => Some ("banana" +:+ nl +:+ "cherry" +:+ nl +:+ "mango")) _
                  H eq_refl)).
Defined.


(** ** [replace] *)

Section ReplaceFacts.
Import Replace.

Lemma index_app_skip (a s b : string) (q : nat) :
  String.index (String.length a + q) s (a +:+ b)
  = option_map (Nat.add (String.length a)) (String.index q s b).
Proof.
  induction a as [|c a IH].
  - simpl. now destruct (String.index q s b).
  - change (String c a +:+ b) with (String c (a +:+ b)).
    change (String.length (String c a) + q) with (S (String.length a + q)).
    cbn [String.index]. rewrite IH. now destruct (String.index q s b).
Qed.

Lemma substring_app_skip (a b : string) (p : nat) :
  substring 0 (String.length a + p) (a +:+ b) = a +:+ substring 0 p b.
Proof.
  induction a as [|c a IH]; [reflexivity |].
  change (String c a +:+ b) with (String c (a +:+ b)).
  change (String.length (String c a) + p) with (S (String.length a + p)).
  cbn [substring]. now rewrite IH.
Qed.

Lemma substr_from_app_skip (a b : string) (k : nat) :
  substr_from (String.length a + k) (a +:+ b) = substr_from k b.
Proof. now rewrite substr_from_add, substr_from_app_length. Qed.

Lemma replace_at_app_skip (a b newv : string) (p n : nat) :
  replace_at (String.length a + p) n newv (a +:+ b) = a +:+ replace_at p n newv b.
Proof.
  unfold replace_at, substr.
  rewrite substring_app_skip, <- Nat.add_assoc, substr_from_app_skip.
  now rewrite app_assoc.
Qed.

(** What lies before the position of the search takes no part in it. *)
Lemma replace_loop_shift (oldv newv : string) (fuel : nat) :
  forall (done rest : string) (q : nat),
  replace_loop fuel oldv newv (done +:+ rest) (String.length done + q)
  = option_map (String.append done) (replace_loop fuel oldv newv rest q).
Proof.
  induction fuel as [|fuel IH]; intros done rest q; [reflexivity |].
  cbn [replace_loop]. rewrite index_app_skip.
  destruct (String.index q oldv rest) as [p|]; [| reflexivity].
  cbn [option_map]. rewrite replace_at_app_skip, <- Nat.add_assoc. apply IH.
Qed.

Lemma replace_loop_more (oldv newv : string) (fuel : nat) :
  forall (content : string) (q : nat) (r : string) (k : nat),
  replace_loop fuel oldv newv content q = Some r ->
  replace_loop (fuel + k) oldv newv content q = Some r.
Proof.
  induction fuel as [|fuel IH]; intros content q r k H; [discriminate |].
  cbn [replace_loop Nat.add] in *.
  destruct (String.index q oldv content) as [p|]; [now apply IH | exact H].
Qed.

Lemma prefix_length (s1 s2 : string) :
  String.prefix s1 s2 = true -> String.length s1 <= String.length s2.
Proof.
  revert s2. induction s1 as [|a s1 IH]; intros s2 H; [simpl; lia |].
  destruct s2 as [|b s2]; [discriminate |]. simpl in H.
  destruct (ascii_dec a b); [| discriminate]. apply IH in H. simpl. lia.
Qed.

Lemma index_bound (s1 s2 : string) : forall n p,
  String.index n s1 s2 = Some p -> p + String.length s1 <= String.length s2.
Proof.
  induction s2 as [|b s2 IH]; intros n p H.
  - destruct n; [| discriminate]. simpl in H.
    destruct s1; [| discriminate]. injection H as <-. simpl. lia.
  - destruct n as [|n]; cbn [String.index] in H.
    + destruct (String.prefix s1 (String b s2)) eqn:Hp.
      * injection H as <-. apply prefix_length in Hp. lia.
      * destruct (String.index 0 s1 s2) as [k|] eqn:Hk; [| discriminate].
        injection H as <-. apply IH in Hk. simpl. lia.
    + destruct (String.index n s1 s2) as [k|] eqn:Hk; [| discriminate].
      injection H as <-. apply IH in Hk. simpl. lia.
Qed.

Lemma substring_0_length (s : string) : forall p,
  p <= String.length s -> String.length (substring 0 p s) = p.
Proof.
  induction s as [|c s IH]; intros p Hp.
  - simpl in Hp. assert (p = 0) as -> by lia. reflexivity.
  - destruct p as [|p]; [reflexivity |]. simpl in *. rewrite IH; lia.
Qed.

Lemma substring_split (s : string) : forall p m,
  p + m <= String.length s ->
  s = substring 0 p s +:+ substring p m s +:+ substr_from (p + m) s.
Proof.
  induction s as [|c s IH]; intros p m H.
  - simpl in H. assert (p = 0) as -> by lia. assert (m = 0) as -> by lia. reflexivity.
  - destruct p as [|p].
    + destruct m as [|m]; [reflexivity |].
      cbn [substring Nat.add substr_from String.append].
      f_equal. assert (E : substring 0 0 s = EmptyString) by now destruct s.
      rewrite (IH 0 m) at 1 by (simpl in H; lia). now rewrite E.
    + cbn [substring Nat.add substr_from].
      change (String c ?x +:+ ?y) with (String c (x +:+ y)).
      f_equal. apply IH. simpl in H. lia.
Qed.

(** One turn of the loop, seen from the text: what precedes the inserted
    text and that text are final, the search goes on behind them. *)
Lemma replace_loop_turn (oldv newv content : string) (fuel p : nat) :
  String.index 0 oldv content = Some p ->
  replace_loop (S fuel) oldv newv content 0
  = option_map (String.append (substr 0 p content +:+ newv))
      (replace_loop fuel oldv newv (substr_from (p + String.length oldv) content) 0).
Proof.
  intros Hi. cbn [replace_loop]. rewrite Hi. unfold replace_at.
  pose proof (index_bound _ _ _ _ Hi) as Hb.
  rewrite <- app_assoc.
  rewrite <- (replace_loop_shift oldv newv fuel (substr 0 p content +:+ newv) _ 0).
  rewrite Nat.add_0_r, length_app. unfold substr.
  now rewrite substring_0_length by lia.
Qed.

Lemma replace_loop_ends (oldv newv : string) (fuel : nat) : forall content,
  oldv <> EmptyString -> String.length content < fuel ->
  exists r, replace_loop fuel oldv newv content 0 = Some r.
Proof.
  induction fuel as [|fuel IH]; intros content Hne Hlen; [lia |].
  destruct (String.index 0 oldv content) as [p|] eqn:Hi.
  - rewrite (replace_loop_turn _ _ _ _ _ Hi).
    pose proof (index_bound _ _ _ _ Hi) as Hb.
    destruct (IH (substr_from (p + String.length oldv) content) Hne) as [r Hr].
    { rewrite substr_from_length_eq. destruct oldv; [congruence | simpl in *; lia]. }
    rewrite Hr. eexists. reflexivity.
  - exists content. cbn [replace_loop]. now rewrite Hi.
Qed.

Lemma replace_loop_replaced (oldv newv content : string) (fuel : nat) :
  oldv <> EmptyString -> String.length content < fuel ->
  replace_loop fuel oldv newv content 0 = replaced oldv newv content.
Proof.
  intros Hne Hlen. unfold replaced.
  destruct (replace_loop_ends oldv newv (S (String.length content)) content Hne) as [r Hr];
    [lia |].
  rewrite Hr. replace fuel with (S (String.length content) + (fuel - S (String.length content)))
    by lia.
  now apply replace_loop_more.
Qed.

Lemma replaced_turn (oldv newv content : string) (p : nat) :
  oldv <> EmptyString ->
  String.index 0 oldv content = Some p ->
  replaced oldv newv content
  = option_map (String.append (substr 0 p content +:+ newv))
      (replaced oldv newv (substr_from (p + String.length oldv) content)).
Proof.
  intros Hne Hi. unfold replaced at 1. rewrite (replace_loop_turn _ _ _ _ _ Hi).
  rewrite replace_loop_replaced; [reflexivity | exact Hne |].
  pose proof (index_bound _ _ _ _ Hi) as Hb. rewrite substr_from_length_eq.
  destruct oldv; [congruence | simpl in *; lia].
Qed.

Lemma replaced_same (oldv : string) (n : nat) : forall content,
  oldv <> EmptyString -> String.length content <= n ->
  replaced oldv oldv content = Some content.
Proof.
  induction n as [|n IH]; intros content Hne Hlen.
  - destruct content; [| simpl in Hlen; lia].
    unfold replaced. cbn [String.length replace_loop].
    destruct oldv; [congruence | reflexivity].
  - destruct (String.index 0 oldv content) as [p|] eqn:Hi.
    + rewrite (replaced_turn _ _ _ _ Hne Hi).
      pose proof (index_bound _ _ _ _ Hi) as Hb.
      rewrite IH; [| exact Hne |].
      * cbn [option_map]. f_equal. rewrite app_assoc.
        pose proof (substring_split content p (String.length oldv) Hb) as E.
        rewrite (index_correct1 _ _ _ _ Hi) in E. symmetry. exact E.
      * rewrite substr_from_length_eq. destruct oldv; [congruence | simpl in *; lia].
    + unfold replaced. cbn [replace_loop]. now rewrite Hi.
Qed.

Lemma index_empty (s : string) : forall n,
  n <= String.length s -> String.index n EmptyString s = Some n.
Proof.
  induction s as [|b s IH]; intros n Hn.
  - simpl in Hn. assert (n = 0) as -> by lia. reflexivity.
  - destruct n as [|n]; [reflexivity |]. cbn [String.index].
    rewrite IH by (simpl in Hn; lia). reflexivity.
Qed.

Lemma replace_loop_empty_old (newv : string) (fuel : nat) : forall content pos,
  pos <= String.length content ->
  replace_loop fuel EmptyString newv content pos = None.
Proof.
  induction fuel as [|fuel IH]; intros content pos Hpos; [reflexivity |].
  cbn [replace_loop]. rewrite index_empty by exact Hpos. apply IH.
  unfold replace_at, substr. rewrite !length_app, substring_0_length by exact Hpos. lia.
Qed.

End ReplaceFacts.


(** X19.  [replace] with a non-empty <old> ends and rewrites the file from
    left to right.  The backup [file.bak] receives the original content and
    the file the result; the result is the content itself when <old> does
    not occur or when <new> equals <old>; otherwise it is the text before
    the first occurrence, then <new>, then the result for the text behind
    that occurrence: inserted text is never searched again. *)
Theorem replace_rewrites_left_to_right
    (cmd file oldv newv : string) (more : list string) (files : gmap string string)
    (content : string) :
  files !! file = Some content -> oldv <> EmptyString ->
  exists r,
    Replace.replaced oldv newv content = Some r
    /\ (forall fuel, String.length content < fuel ->
          Replace.cmd_replace fuel (cmd :: file :: oldv :: newv :: more) files
          = Replace.Done (<[file := r]> (<[file +:+ ".bak" := content]> files))
              (print ("replaced (backup -> " +:+ (file +:+ ".bak") +:+ ")" +:+ nl)))
    /\ match String.index 0 oldv content with
       | None => r = content
       | Some p =>
           exists r',
             Replace.replaced oldv newv (substr_from (p + String.length oldv) content)
             = Some r'
             /\ r = substr 0 p content +:+ newv +:+ r'
       end
    /\ (newv = oldv -> r = content).
Proof.
  intros Hfile Hne.
  destruct (replace_loop_ends oldv newv (S (String.length content)) content Hne) as [r Hr];
    [lia |].
  exists r. split; [exact Hr | split; [| split]].
  - intros fuel Hfuel. unfold Replace.cmd_replace. rewrite Hfile.
    rewrite (replace_loop_replaced oldv newv content fuel Hne Hfuel).
    unfold Replace.replaced. now rewrite Hr.
  - destruct (String.index 0 oldv content) as [p|] eqn:Hi.
    + pose proof (replaced_turn oldv newv content p Hne Hi) as Ht.
      unfold Replace.replaced at 1 in Ht. rewrite Hr in Ht.
      destruct (Replace.replaced oldv newv
                  (substr_from (p + String.length oldv) content)) as [r'|];
        [| discriminate].
      exists r'. split; [reflexivity |]. cbn [option_map] in Ht.
      injection Ht as ->. now rewrite app_assoc.
    + cbn [Replace.replace_loop] in Hr. rewrite Hi in Hr. now injection Hr as <-.
  - intros ->.
    pose proof (replaced_same oldv (String.length content) content Hne (le_n _)) as Hs.
    unfold Replace.replaced in Hs. rewrite Hr in Hs. now injection Hs.
Qed.

Lemma replace_rewrites_left_to_right_witness :
  exists r,
    Replace.replaced "aa" "a" "aaaaa" = Some r
    /\ Replace.cmd_replace 6 ["replace"; "f"; "aa"; "a"] {["f" := "aaaaa"]}
       = Replace.Done (<["f" := r]> (<["f.bak" := "aaaaa"]> {["f" := "aaaaa"]}))
           (print ("replaced (backup -> f.bak)" +:+ nl))
    /\ r = "aaa".
Proof.
  assert (Hf : ({["f" := "aaaaa"]} : gmap string string) !! "f" = Some "aaaaa")
    by (vm_compute; reflexivity).
  assert (Hne : "aa" <> EmptyString) by discriminate.
  destruct (replace_rewrites_left_to_right "replace" "f" "aa" "a" [] {["f" := "aaaaa"]}
              "aaaaa" Hf Hne) as (r & Hr & Hcmd & _).
  exists r. split; [exact Hr | split].
  - apply Hcmd. simpl. lia.
  - vm_compute in Hr. now injection Hr as <-.
Defined.

(** X20.  [replace] with an empty <old> and an empty <new> never ends.
    The empty text is found at position 0, replacing it by the empty text
    leaves the content as it is, and the position stays 0: a turn of the
    loop reproduces its own state, so whatever the number of turns the loop
    is still running.  The backup has been written by then; the file itself
    is never rewritten and nothing is printed.  The line [replace f "" ""]
    reaches the command with such arguments. *)
Theorem replace_empty_by_empty_never_ends
    (cmd file : string) (more : list string) (files : gmap string string)
    (content : string) (fuel : nat) :
  files !! file = Some content ->
  Replace.cmd_replace fuel (cmd :: file :: EmptyString :: EmptyString :: more) files
  = Replace.Spinning (<[file +:+ ".bak" := content]> files)
  /\ String.index 0 EmptyString content = Some 0
  /\ Replace.replace_at 0 (String.length EmptyString) EmptyString content = content
  /\ 0 + String.length EmptyString = 0.
Proof.
  intros Hfile. split; [| split; [| split]].
  - unfold Replace.cmd_replace. rewrite Hfile.
    now rewrite replace_loop_empty_old by lia.
  - apply index_empty. lia.
  - unfold Replace.replace_at, substr. now destruct content.
  - reflexivity.
Qed.

Lemma replace_empty_by_empty_never_ends_witness :
  split_args ("replace f " +:+ dq +:+ dq +:+ " " +:+ dq +:+ dq)
  = ["replace"; "f"; EmptyString; EmptyString]
  /\ Replace.cmd_replace 1000 ["replace"; "f"; EmptyString; EmptyString] {["f" := "abc"]}
     = Replace.Spinning (<["f.bak" := "abc"]> {["f" := "abc"]}).
Proof.
  split; [vm_compute; reflexivity |].
  assert (Hf : ({["f" := "abc"]} : gmap string string) !! "f" = Some "abc")
    by (vm_compute; reflexivity).
  exact (proj1 (replace_empty_by_empty_never_ends "replace" "f" [] {["f" := "abc"]} "abc"
                  1000 Hf)).
Defined.

(** ** More on the evaluator *)

Section EvaluatorMore.
Import Calc TokenizerSpec.
Variable strtod : string -> float * nat.

Lemma not_operator (c : ascii) :
  mem_char c "+-*/" = false ->
  Ascii.eqb c "+" = false /\ Ascii.eqb c "-" = false /\
  Ascii.eqb c "*" = false /\ Ascii.eqb c "/" = false.
Proof.
  simpl. intros H.
  apply orb_false_elim in H as [H1 H]. apply orb_false_elim in H as [H2 H].
  apply orb_false_elim in H as [H3 H]. apply orb_false_elim in H as [H4 _]. auto.
Qed.

(** An expression followed by text that does not continue it. *)
Lemma expression_at_followed (e : string) (v : float) (rest : string) :
  gexpression strtod e v -> follows_number rest = true ->
  mem_char (peek (skip_spaces rest)) "+-*/" = false ->
  expression_at strtod (e +:+ rest) = (v, skip_spaces rest).
Proof.
  intros He Hf Hop. apply not_operator in Hop as (Hadd & Hsub & Hmul & Hdiv).
  destruct (grammar_sound strtod) as (_ & _ & H).
  rewrite (H e v He rest Hf (conj Hmul Hdiv)).
  now apply expr_loop_at_stop.
Qed.

(** A parenthesis that the text never closes. *)
Lemma number_at_unclosed (w1 : string) (sg : sign_mark) (w2 e : string) (v : float) :
  all_space w1 = true -> all_space w2 = true -> gexpression strtod e v ->
  number_at strtod (w1 +:+ sign_text sg +:+ w2 +:+ String "(" e)
  = (PrimFloat.mul (sign_value sg) v, EmptyString).
Proof.
  intros H1 H2 He.
  destruct (sign_prefix w1 sg w2 "(" e H1 H2 eq_refl eq_refl eq_refl) as [Hsign Hp2].
  rewrite number_at_paren by (rewrite Hp2; reflexivity).
  rewrite Hp2, Hsign. cbn [advance].
  pose proof (expression_at_followed e v EmptyString He eq_refl eq_refl) as Hx.
  rewrite app_nil_r in Hx. rewrite Hx. reflexivity.
Qed.

Lemma expression_at_unclosed (w1 : string) (sg : sign_mark) (w2 e : string) (v : float) :
  all_space w1 = true -> all_space w2 = true -> gexpression strtod e v ->
  expression_at strtod (w1 +:+ sign_text sg +:+ w2 +:+ String "(" e)
  = (PrimFloat.mul (sign_value sg) v, EmptyString).
Proof.
  intros H1 H2 He.
  rewrite expression_at_eq, term_at_eq, (number_at_unclosed w1 sg w2 e v H1 H2 He).
  cbn [fst snd]. rewrite term_loop_at_stop by reflexivity.
  cbn [fst snd skip_spaces]. now rewrite expr_loop_at_stop by reflexivity.
Qed.

End EvaluatorMore.

(** X21.  [calc] evaluates the longest expression that opens the text and
    ignores what follows it without a message.  When an expression of the
    grammar is followed by the end, white space, or a closing parenthesis
    that nothing opened, and the next character after the white space is no
    operator, the result is the value of that expression and the cursor
    stops there. *)
Theorem calc_ignores_text_after_expression
    (strtod : string -> float * nat) (e : string) (v : float) (rest : string) :
  Calc.gexpression strtod e v -> Calc.follows_number rest = true ->
  mem_char (Calc.peek (Calc.skip_spaces rest)) "+-*/" = false ->
  Calc.run_expression strtod (e +:+ rest) = Some (v, Calc.skip_spaces rest)
  /\ (Calc.c_str (e +:+ rest) = e +:+ rest -> Calc.calc strtod (e +:+ rest) = Some v).
Proof.
  intros He Hf Hop.
  assert (H : Calc.run_expression strtod (e +:+ rest) = Some (v, Calc.skip_spaces rest)).
  { rewrite run_expression_eq. f_equal. now apply expression_at_followed. }
  split; [exact H |]. intros Hc. unfold Calc.calc. rewrite Hc, H. reflexivity.
Qed.

Lemma calc_ignores_text_after_expression_witness :
  Calc.calc Calc.strtod_integers "2 + 3) * 4 junk" = Some 5%float.
Proof.
  assert (lit : forall w1 ds,
            TokenizerSpec.all_space w1 = true -> ds <> EmptyString ->
            Calc.all_digits ds = true -> String.length ds <= 15 ->
            Calc.gnumber Calc.strtod_integers
              (w1 +:+ Calc.sign_text Calc.NoSign +:+ EmptyString +:+ ds)
              (PrimFloat.mul (Calc.sign_value Calc.NoSign) (Calc.float_of_digits ds))).
  { intros. apply gnumber_digits; auto using strtod_integers_reads_integers. }
  pose proof (lit EmptyString "2" eq_refl ltac:(discriminate) eq_refl
                ltac:(simpl; lia)) as n2.
  pose proof (lit " " "3" eq_refl ltac:(discriminate) eq_refl
                ltac:(simpl; lia)) as n3.
  exact (proj2 (calc_ignores_text_after_expression Calc.strtod_integers
                  "2 + 3" 5%float ") * 4 junk"
                  (Calc.G_add _ _ _ " " _ _
                     (Calc.G_term _ _ _ (Calc.G_number _ _ _ n2)) eq_refl
                     (Calc.G_number _ _ _ n3))
                  eq_refl eq_refl) eq_refl).
Defined.

(** X22.  [calc] accepts a parenthesis that is never closed: an opening
    parenthesis, with its optional sign, followed by an expression of the
    grammar and then the end of the text evaluates like the same text with
    the closing parenthesis added, and the whole text is consumed. *)
Theorem calc_accepts_unclosed_parenthesis
    (strtod : string -> float * nat) (w1 : string) (sg : Calc.sign_mark)
    (w2 e : string) (v : float) :
  TokenizerSpec.all_space w1 = true -> TokenizerSpec.all_space w2 = true ->
  Calc.gexpression strtod e v ->
  Calc.run_expression strtod (w1 +:+ Calc.sign_text sg +:+ w2 +:+ "(" +:+ e)
  = Some (PrimFloat.mul (Calc.sign_value sg) v, EmptyString)
  /\ Calc.run_expression strtod (w1 +:+ Calc.sign_text sg +:+ w2 +:+ "(" +:+ e +:+ ")")
     = Some (PrimFloat.mul (Calc.sign_value sg) v, EmptyString).
Proof.
  intros H1 H2 He. split.
  - rewrite run_expression_eq. f_equal.
    now apply (expression_at_unclosed strtod w1 sg w2 e v).
  - pose proof (run_expression_grammar strtod
                  (w1 +:+ Calc.sign_text sg +:+ w2 +:+ "(" +:+ e +:+ EmptyString +:+ ")")
                  (PrimFloat.mul (Calc.sign_value sg) v) EmptyString) as H.
    rewrite app_nil_r in H. apply H; [| reflexivity].
    apply Calc.G_term, Calc.G_number.
    now apply (Calc.G_paren strtod w1 sg w2 e v EmptyString).
Qed.

Lemma calc_accepts_unclosed_parenthesis_witness :
  Calc.calc Calc.strtod_integers "-(2 + 3" = Some (-5)%float.
Proof.
  assert (lit : forall w1 ds,
            TokenizerSpec.all_space w1 = true -> ds <> EmptyString ->
            Calc.all_digits ds = true -> String.length ds <= 15 ->
            Calc.gnumber Calc.strtod_integers
              (w1 +:+ Calc.sign_text Calc.NoSign +:+ EmptyString +:+ ds)
              (PrimFloat.mul (Calc.sign_value Calc.NoSign) (Calc.float_of_digits ds))).
  { intros. apply gnumber_digits; auto using strtod_integers_reads_integers. }
  pose proof (lit EmptyString "2" eq_refl ltac:(discriminate) eq_refl
                ltac:(simpl; lia)) as n2.
  pose proof (lit " " "3" eq_refl ltac:(discriminate) eq_refl
                ltac:(simpl; lia)) as n3.
  pose proof (proj1 (calc_accepts_unclosed_parenthesis Calc.strtod_integers
                       EmptyString Calc.MinusSign EmptyString "2 + 3" 5%float
                       eq_refl eq_refl
                       (Calc.G_add _ _ _ " " _ _
                          (Calc.G_term _ _ _ (Calc.G_number _ _ _ n2)) eq_refl
                          (Calc.G_number _ _ _ n3)))) as H.
  unfold Calc.calc.
  change (Calc.c_str "-(2 + 3") with "-(2 + 3".
  change (EmptyString +:+ Calc.sign_text Calc.MinusSign +:+ EmptyString +:+ "(" +:+ "2 + 3")
    with "-(2 + 3" in H.
  rewrite H. reflexivity.
Defined.


(** ** [which] and the bookmarks *)

Section WhichFacts.
Import Which.
Variable is_executable_file : string -> option bool.

Lemma read_until_Some (sep : ascii) (s l r : string) :
  read_until sep s = (l, Some r) -> s = l +:+ String sep r /\ free_of sep l.
Proof.
  revert l. induction s as [|c s IH]; intros l H; simpl in H; [discriminate |].
  destruct (Ascii.eqb c sep) eqn:Hc.
  - injection H as <- <-. apply Ascii.eqb_eq in Hc. subst c. now split.
  - destruct (read_until sep s) as [l' r']. injection H as <- ->.
    destruct (IH l' eq_refl) as [-> Hf]. split; [reflexivity |].
    unfold free_of in *. simpl. rewrite Ascii.eqb_sym, Hc. exact Hf.
Qed.

Lemma read_until_None (sep : ascii) (s l : string) :
  read_until sep s = (l, None) -> s = l /\ free_of sep l.
Proof.
  revert l. induction s as [|c s IH]; intros l H; simpl in H.
  - injection H as <-. now split.
  - destruct (Ascii.eqb c sep) eqn:Hc; [discriminate |].
    destruct (read_until sep s) as [l' r']. injection H as <- ->.
    destruct (IH l' eq_refl) as [-> Hf]. split; [reflexivity |].
    unfold free_of in *. simpl. rewrite Ascii.eqb_sym, Hc. exact Hf.
Qed.

Lemma entries_free (sep : ascii) (l : string) :
  free_of sep l -> l <> EmptyString -> entries sep l = [l].
Proof.
  unfold free_of. induction l as [|c l IH]; intros Hf Hne; [congruence |].
  simpl in Hf. apply orb_false_elim in Hf as [Hc Hf].
  simpl. rewrite Ascii.eqb_sym, Hc.
  destruct l as [|d l]; [reflexivity |]. now rewrite IH.
Qed.

Lemma entries_cons (sep : ascii) (l r : string) :
  free_of sep l -> entries sep (l +:+ String sep r) = l :: entries sep r.
Proof.
  unfold free_of. induction l as [|c l IH]; intros Hf.
  - simpl. now rewrite Ascii.eqb_refl.
  - simpl in Hf. apply orb_false_elim in Hf as [Hc Hf].
    change (String c l +:+ String sep r) with (String c (l +:+ String sep r)).
    cbn [entries]. rewrite Ascii.eqb_sym, Hc. now rewrite IH.
Qed.

Lemma entries_concat (sep : ascii) (dirs : list string) (dir : string) :
  Forall (free_of sep) dirs -> free_of sep dir -> dir <> EmptyString ->
  entries sep (String.concat (String sep EmptyString) (dirs ++ [dir])) = dirs ++ [dir].
Proof.
  intros Hdirs Hdir Hne. induction Hdirs as [|d dirs Hd _ IH].
  - simpl. now apply entries_free.
  - cbn [app]. destruct (dirs ++ [dir]) as [|x xs] eqn:Hx.
    { now destruct dirs. }
    change (String.concat (String sep EmptyString) (d :: x :: xs))
      with (d +:+ String sep (String.concat (String sep EmptyString) (x :: xs))).
    rewrite entries_cons by exact Hd. now rewrite IH.
Qed.

Lemma getline_sep_Some (sep : ascii) (s l r : string) :
  read_until sep s = (l, Some r) -> getline_sep sep (Some s) = (Some l, Some r).
Proof. intros H. unfold getline_sep. rewrite H. now destruct l. Qed.

Lemma which_loop_entries (cmd : string) (fuel : nat) : forall s,
  String.length s < fuel ->
  which_loop is_executable_file fuel cmd (Some s)
  = search is_executable_file (map (fun part => path_append part cmd) (entries ":" s)).
Proof.
  induction fuel as [|fuel IH]; intros s Hlen; [lia |].
  cbn [which_loop].
  destruct (read_until ":" s) as [l [r|]] eqn:Hr.
  - rewrite (getline_sep_Some _ _ _ _ Hr).
    destruct (read_until_Some _ _ _ _ Hr) as [-> Hf].
    rewrite entries_cons by exact Hf. cbn [map search].
    destruct (is_executable_file (path_append l cmd)) as [[|]|]; try reflexivity.
    apply IH. rewrite length_app in Hlen. simpl in Hlen. lia.
  - unfold getline_sep. rewrite Hr.
    destruct (read_until_None _ _ _ Hr) as [-> Hf].
    destruct l as [|c l]; [reflexivity |].
    rewrite entries_free by (exact Hf || discriminate). cbn [map search].
    destruct (is_executable_file (path_append (String c l) cmd)) as [[|]|];
      try reflexivity.
    now destruct fuel.
Qed.

(** The search stops at the first candidate that is not found wanting. *)
Lemma search_first (before : list string) (c : string) (after : list string) :
  Forall (fun x => is_executable_file x = Some false) before ->
  search is_executable_file (before ++ c :: after)
  = match is_executable_file c with
    | None => Uncaught
    | Some true => Printed (print (c +:+ nl))
    | Some false => search is_executable_file after
    end.
Proof.
  induction 1 as [|x before Hx _ IH]; [reflexivity |].
  cbn [app search]. now rewrite Hx.
Qed.

Lemma search_none (candidates : list string) :
  Forall (fun x => is_executable_file x = Some false) candidates ->
  search is_executable_file candidates = Printed (print ("which: not found" +:+ nl)).
Proof.
  induction 1 as [|x candidates Hx _ IH]; [reflexivity |].
  cbn [search]. now rewrite Hx.
Qed.

End WhichFacts.

(** X23.  [which] searches the entries of [PATH] in their order.  The
    candidate of an entry is the entry joined with the name by one slash, and
    the name alone when the name is absolute, whatever the entry.  The
    command prints the first candidate that is an executable file, provided
    the status of every candidate before it could be read and said no; it
    prints [which: not found] when that holds of all candidates; and when
    the status of a candidate cannot be read before an executable one is
    met, the exception leaves the command and the loop of [main] and ends
    the program.  The entries are the texts between the colons of [PATH],
    so a list of directories written with colons comes back as it is. *)
Theorem which_finds_first_executable_in_path
    (is_executable_file : string -> option bool) (getenv : string -> option string)
    (c cmd : string) (more : list string) (path : string) :
  getenv "PATH" = Some path ->
  let candidates := map (fun part => Which.path_append part cmd) (Which.entries ":" path) in
  let result := Which.cmd_which is_executable_file (c :: cmd :: more) getenv in
  result = Which.search is_executable_file candidates
  /\ (forall before hit after,
        candidates = before ++ hit :: after ->
        Forall (fun x => is_executable_file x = Some false) before ->
        (is_executable_file hit = Some true ->
         result = Which.Printed (print (hit +:+ nl)))
        /\ (is_executable_file hit = None -> result = Which.Uncaught))
  /\ (Forall (fun x => is_executable_file x = Some false) candidates ->
      result = Which.Printed (print ("which: not found" +:+ nl)))
  /\ (is_char "/" (front cmd) = true ->
      forall dir, Which.path_append dir cmd = cmd)
  /\ (is_char "/" (front cmd) = false ->
      forall dir,
        Which.path_append dir cmd
        = if Which.has_filename dir then dir +:+ "/" +:+ cmd else dir +:+ cmd)
  /\ (forall dirs dir,
        Forall (Which.free_of ":") dirs -> Which.free_of ":" dir -> dir <> EmptyString ->
        Which.entries ":" (String.concat ":" (dirs ++ [dir])) = dirs ++ [dir]).
Proof.
  intros Hpath candidates result.
  assert (H : result = Which.search is_executable_file candidates).
  { unfold result, Which.cmd_which. rewrite Hpath. apply which_loop_entries. lia. }
  split; [exact H | split; [| split; [| split; [| split]]]].
  - intros before hit after Hc Hbefore. rewrite H, Hc, search_first by exact Hbefore.
    split; intros ->; reflexivity.
  - intros Hall. rewrite H. now apply search_none.
  - intros Habs dir. unfold Which.path_append. now rewrite Habs.
  - intros Hrel dir. unfold Which.path_append. now rewrite Hrel.
  - intros dirs dir. apply entries_concat.
Qed.

Lemma which_finds_first_executable_in_path_witness :
  Which.cmd_which
    (fun p => if String.eqb p "/bin/ls" || String.eqb p "/opt/bin/ls" then Some true
              else Some false)
    ["which"; "ls"]
    (fun name => if String.eqb name "PATH" then Some "/usr/bin:/bin:/opt/bin" else None)
  = Which.Printed (print ("/bin/ls" +:+ nl))
  /\ Which.cmd_which
       (fun p => if String.eqb p "/root/ls" then None
                 else if String.eqb p "/bin/ls" then Some true else Some false)
       ["which"; "ls"]
       (fun name => if String.eqb name "PATH" then Some "/usr/bin:/root:/bin" else None)
     = Which.Uncaught.
Proof.
  split.
  - apply (proj1 (proj2 (which_finds_first_executable_in_path
                    (fun p => if String.eqb p "/bin/ls" || String.eqb p "/opt/bin/ls"
                              then Some true else Some false)
                    (fun name => if String.eqb name "PATH"
                                 then Some "/usr/bin:/bin:/opt/bin" else None)
                    "which" "ls" [] "/usr/bin:/bin:/opt/bin" eq_refl))
             ["/usr/bin/ls"] "/bin/ls" ["/opt/bin/ls"] eq_refl);
      [repeat constructor | reflexivity].
  - apply (proj1 (proj2 (which_finds_first_executable_in_path
                    (fun p => if String.eqb p "/root/ls" then None
                              else if String.eqb p "/bin/ls" then Some true else Some false)
                    (fun name => if String.eqb name "PATH"
                                 then Some "/usr/bin:/root:/bin" else None)
                    "which" "ls" [] "/usr/bin:/root:/bin" eq_refl))
             ["/usr/bin/ls"] "/root/ls" ["/bin/ls"] eq_refl);
      [repeat constructor | reflexivity].
Defined.

(** X24.  A bookmark brings back the directory it was taken in.  [bookmark
    n] binds [n] to the working directory of that moment and leaves the
    other names alone; a later [goto n] asks for exactly that directory,
    wherever the process is by then, and reports the failure of the change
    without moving; after [unbookmark n] the name is unknown to [goto],
    which then leaves the process where it is. *)
Theorem bookmark_goto_round_trip
    (world : Type) (current_path : world -> string + string)
    (set_current_path : string -> world -> world + string)
    (c name dir : string) (more : list string) (bookmarks : gmap string string)
    (w : world) :
  current_path w = inl dir ->
  let bookmarks' := (Bookmark.cmd_bookmark world current_path (c :: name :: more)
                       bookmarks w).1 in
  bookmarks' = <[name := dir]> bookmarks
  /\ (forall c' more' w',
        Bookmark.cmd_goto world set_current_path (c' :: name :: more') bookmarks' w'
        = match set_current_path dir w' with
          | inl w'' => (w'', print ("cwd -> " +:+ colorize MINT_GREEN dir +:+ nl))
          | inr what => (w', eprint_colored RED ("goto: " +:+ what +:+ nl))
          end)
  /\ (forall c' more' w',
        Bookmark.cmd_goto world set_current_path (c' :: name :: more')
          (Bookmark.cmd_unbookmark (c' :: name :: more') bookmarks').1 w'
        = (w', eprint_colored YELLOW ("goto: not found" +:+ nl))).
Proof.
  intros Hcwd bookmarks'.
  assert (Hb : bookmarks' = <[name := dir]> bookmarks).
  { unfold bookmarks', Bookmark.cmd_bookmark. now rewrite Hcwd. }
  split; [exact Hb | split]; intros c' more' w'; rewrite Hb.
  - unfold Bookmark.cmd_goto. now rewrite lookup_insert_eq.
  - unfold Bookmark.cmd_unbookmark, Bookmark.cmd_goto.
    rewrite lookup_insert_eq. cbn [fst]. now rewrite lookup_delete_eq.
Qed.

Lemma bookmark_goto_round_trip_witness :
  Bookmark.cmd_goto string (fun d _ => inl d) ["goto"; "home"]
    (Bookmark.cmd_bookmark string (fun w => inl w) ["bookmark"; "home"] ∅ "/home/me").1
    "/tmp"
  = ("/home/me", print ("cwd -> " +:+ colorize MINT_GREEN "/home/me" +:+ nl)).
Proof.
  exact (proj1 (proj2 (bookmark_goto_round_trip string (fun w => inl w) (fun d _ => inl d)
                         "bookmark" "home" "/home/me" [] ∅ "/home/me" eq_refl))
           "goto" [] "/tmp").
Defined.


(** ** Lines without quotes *)

Section QuoteFree.
Import TokenizerSpec Quoting.

Lemma quote_free_app (a b : string) :
  quote_free a = true -> quote_free b = true -> quote_free (a +:+ b) = true.
Proof.
  induction a as [|c a IH]; simpl; [auto |].
  intros Ha Hb. apply andb_true_iff in Ha as [Hc Ha]. rewrite Hc. simpl. auto.
Qed.

Lemma quote_free_plain (w : string) :
  w <> EmptyString -> no_space w = true -> quote_free w = true -> plain_token w.
Proof.
  intros Hne Hs Hq. repeat split; [exact Hne | exact Hs |].
  destruct w as [|c w]; [reflexivity |]. simpl in Hq.
  apply andb_true_iff in Hq as [Hc _]. unfold begins_with_quote. simpl.
  now apply negb_true_iff in Hc.
Qed.

Lemma words_from_quote_free (s : string) : forall cur,
  no_space cur = true -> quote_free cur = true -> quote_free s = true ->
  Forall plain_token (words_from cur s).
Proof.
  induction s as [|c s IH]; intros cur Hs Hq Hf.
  - simpl. destruct cur as [|d cur]; [constructor |].
    constructor; [| constructor]. now apply quote_free_plain.
  - simpl in Hf. apply andb_true_iff in Hf as [Hc Hf]. cbn [words_from].
    destruct (isspace c) eqn:Hsp.
    + apply Forall_app. split; [| now apply IH].
      destruct cur as [|d cur]; [constructor |].
      constructor; [| constructor]. now apply quote_free_plain.
    + apply IH; [| | exact Hf].
      * apply no_space_app; [exact Hs |]. simpl. now rewrite Hsp.
      * apply quote_free_app; [exact Hq |]. simpl. now rewrite Hc.
Qed.

End QuoteFree.

(** X25.  On a line without quote characters the tokens are the words of
    the line, that is its maximal runs of characters other than white
    space: none is empty, none holds white space, and joining them by single
    spaces gives a line with the same tokens. *)
Theorem split_args_without_quotes (line : string) :
  Quoting.quote_free line = true ->
  split_args line = TokenizerSpec.words line
  /\ Forall TokenizerSpec.plain_token (split_args line)
  /\ split_args (String.concat " " (split_args line)) = split_args line.
Proof.
  intros Hq.
  assert (Hw : Forall TokenizerSpec.plain_token (TokenizerSpec.words line)).
  { now apply words_from_quote_free. }
  assert (Hs : split_args line = TokenizerSpec.words line).
  { rewrite split_args_tokenize. unfold TokenizerSpec.tokenize.
    now apply group_words_plain. }
  rewrite Hs. split; [reflexivity | split; [exact Hw |]].
  now apply split_args_plain.
Qed.

Lemma split_args_without_quotes_witness :
  split_args (String "009" "cp   a.txt  b.txt ") = ["cp"; "a.txt"; "b.txt"]
  /\ split_args (String.concat " " (split_args (String "009" "cp   a.txt  b.txt ")))
     = split_args (String "009" "cp   a.txt  b.txt ").
Proof.
  destruct (split_args_without_quotes (String "009" "cp   a.txt  b.txt ") eq_refl)
    as (H1 & _ & H3).
  split; [rewrite H1; reflexivity | exact H3].
Defined.
